(** * clDES: lazy parallel composition and monolithic supervisor synthesis

    Shallow embedding of
      - cldes/src/operations/SuperProxyCore.hpp  (the virtual product), and
      - cldes/src/operations/OperationsCore.hpp  (SynchronizeStage2,
        RemoveBadStates, SupervisorSynth, GenBinExprTree).

    Conventions of the embedding.
      - [StorageIndex] and [StorageIndexSigned] values are integers of [Z];
        the sentinel [-1] of [Trans] is kept as it is.  The index type is a
        template parameter of the sources, so no particular width is fixed:
        the development covers the runs in which the products
        [q1 * n_states_sys0_ + q0] fit the index type.
      - an event ([cldes::ScalarType]) is a number of [N]; an
        [EventsSet<NEvents>] is a number of [N] read as a bit pattern
        ([test] is [N.testbit], [&], [|], [^], [>>] are [N.land], [N.lor],
        [N.lxor], [N.shiftr]).  None of these operations creates a bit above
        the ones of its operands, so the width [NEvents] needs no truncation.
      - [DESystemBase] is the abstract class: an object is the record of its
        virtual member functions.
      - hash maps and hash sets ([TransMap], [StatesTableHost],
        [SparseStatesMap]) are [gmap]s and [gset]s; stacks and vectors are
        lists.
      - the inverse queries are the ones answered between
        [AllocateInvertedGraph] and [ClearInvertedGraph].
      - [SupervisorSynth], [SynchronizeStage2] and [GenBinExprTree] name the
        proxy class [SyncSysProxy]; the member functions available are the
        ones of [op::SuperProxy] (SuperProxyCore.hpp), which has the same
        members and hands itself to [SynchronizeStage2]: they are the ones
        used for the proxy throughout.
      - the member functions of the concrete [DESystem] and [Trim] are
        defined in cldes/src/des/DESystemCore.hpp, which is not among the
        sources: the operands of a proxy are taken through the interface
        [DESystemBase], under the contract of module [Contract]; the
        concrete automata of the scenarios are modelled from the
        specification. *)

From Stdlib Require Import ZArith NArith List Lia Bool.
From stdpp Require Import gmap sorting.

Local Open Scope Z_scope.

#[local] Set Warnings "-clear-no-such-hyp".

(** ** Events sets *)

Module EventsSet.

Definition t : Type := N.

Definition test (s : t) (e : N) : bool := N.testbit s e.
Definition set (s : t) (e : N) : t := N.setbit s e.

(** The loop shared by every traversal of a set in the sources:
<<
    event = 0;
    while (event_it.any()) {
        if (event_it.test(0)) { body(event) }
        ++event;
        event_it >>= 1;
    }
>>
    The binary representation of the set is consumed from its lowest bit:
    [xO] is a cleared bit 0, [xI] a set one, [xH] the last set bit. *)
Fixpoint for_each_pos {A : Type} (body : N → A → A) (event : N)
    (event_it : positive) (acc : A) : A :=
  match event_it with
  | xH => body event acc
  | xO rest => for_each_pos body (N.succ event) rest acc
  | xI rest => for_each_pos body (N.succ event) rest (body event acc)
  end.

Definition for_each {A : Type} (body : N → A → A) (s : t) (acc : A) : A :=
  match s with
  | N0 => acc
  | Npos p => for_each_pos body 0%N p acc
  end.

(** The events of a set, in ascending order. *)
Definition to_list (s : t) : list N :=
  rev (for_each (λ e acc, e :: acc) s []).

End EventsSet.

(** ** The abstract class [DESystemBase] *)

Module DESystemBase.

Record t : Type := Make {
  GetStatesNumber : Z;
  GetInitialState : Z;
  GetEvents : EventsSet.t;
  GetMarkedStates : gset Z;
  ContainsTrans : Z → N → bool;
  Trans : Z → N → Z;
  ContainsInvTrans : Z → N → bool;
  InvTrans : Z → N → list Z;
  GetStateEvents : Z → EventsSet.t;
  GetInvStateEvents : Z → EventsSet.t
}.

End DESystemBase.

(** ** The virtual product, [op::SuperProxy] *)

(** The indices of the proxy are integers of [Z]: this is the proxy on
    products whose number of states fits [StorageIndex], where the index
    arithmetic of the code does not wrap.  The module [StorageIndex],
    further down, gives the number of states that the constructor
    computes and the value that [Trans] returns on the index types of the
    machine. *)

Module SuperProxy.

Import DESystemBase.

(** A recorded transition [(s_to, e)] and the buffer of a state. *)
Definition InvArgTrans : Type := list (Z * N).

(** The data members: the ones of the base class first, the ones of the
    proxy after them. *)
Record t : Type := Make {
  states_number_ : Z;
  init_state_ : Z;
  events_ : EventsSet.t;
  marked_states_ : gset Z;
  sys0_ : DESystemBase.t;
  sys1_ : DESystemBase.t;
  n_states_sys0_ : Z;
  only_in_0_ : EventsSet.t;
  only_in_1_ : EventsSet.t;
  virtual_states_ : list Z;
  transtriplet_ : list (Z * InvArgTrans);
  triplet_ : list (Z * Z * EventsSet.t);
  bittriplet_ : list (Z * Z * bool)
}.

(** Constructor [SuperProxy(aSys0, aSys1, aNonContr)].  The third argument
    is not read by the body. *)
Definition SuperProxy (aSys0 aSys1 : DESystemBase.t) (aNonContr : gset N)
    : t :=
  let n_states_sys0 := GetStatesNumber aSys0 in
  let in_both := N.land (GetEvents aSys0) (GetEvents aSys1) in
  {| states_number_ := GetStatesNumber aSys0 * GetStatesNumber aSys1;
     init_state_ := GetInitialState aSys1 * GetStatesNumber aSys0
                    + GetInitialState aSys0;
     events_ := N.lor (GetEvents aSys0) (GetEvents aSys1);
     marked_states_ :=
       list_to_set
         (q0 ← elements (GetMarkedStates aSys0);
          q1 ← elements (GetMarkedStates aSys1);
          [q1 * n_states_sys0 + q0]);
     sys0_ := aSys0;
     sys1_ := aSys1;
     n_states_sys0_ := n_states_sys0;
     only_in_0_ := N.lxor (GetEvents aSys0) in_both;
     only_in_1_ := N.lxor (GetEvents aSys1) in_both;
     virtual_states_ := [];
     transtriplet_ := [];
     triplet_ := [];
     bittriplet_ := [] |}.

(** The guard shared by the four transition queries. *)
Definition fires (V : t) (in_x in_y : bool) (aEvent : N) : bool :=
  (in_x && in_y)
  || (in_x && EventsSet.test (only_in_0_ V) aEvent)
  || (in_y && EventsSet.test (only_in_1_ V) aEvent).

Definition ContainsTrans (V : t) (aQ : Z) (aEvent : N) : bool :=
  if negb (EventsSet.test (events_ V) aEvent) then false
  else
    let qx := aQ mod n_states_sys0_ V in
    let qy := aQ / n_states_sys0_ V in
    let in_x := DESystemBase.ContainsTrans (sys0_ V) qx aEvent in
    let in_y := DESystemBase.ContainsTrans (sys1_ V) qy aEvent in
    if fires V in_x in_y aEvent then true else false.

Definition Trans (V : t) (aQ : Z) (aEvent : N) : Z :=
  if negb (EventsSet.test (events_ V) aEvent) then -1
  else
    let qx := aQ mod n_states_sys0_ V in
    let qy := aQ / n_states_sys0_ V in
    let in_x := DESystemBase.ContainsTrans (sys0_ V) qx aEvent in
    let in_y := DESystemBase.ContainsTrans (sys1_ V) qy aEvent in
    if negb (fires V in_x in_y aEvent) then -1
    else if in_x && in_y then
      let q0 := DESystemBase.Trans (sys0_ V) qx aEvent in
      let q1 := DESystemBase.Trans (sys1_ V) qy aEvent in
      q1 * n_states_sys0_ V + q0
    else if in_x then
      let q0 := DESystemBase.Trans (sys0_ V) qx aEvent in
      qy * n_states_sys0_ V + q0
    else
      let q1 := DESystemBase.Trans (sys1_ V) qy aEvent in
      q1 * n_states_sys0_ V + qx.

Definition ContainsInvTrans (V : t) (aQ : Z) (aEvent : N) : bool :=
  if negb (EventsSet.test (events_ V) aEvent) then false
  else
    let qx := aQ mod n_states_sys0_ V in
    let qy := aQ / n_states_sys0_ V in
    let in_x := DESystemBase.ContainsInvTrans (sys0_ V) qx aEvent in
    let in_y := DESystemBase.ContainsInvTrans (sys1_ V) qy aEvent in
    if fires V in_x in_y aEvent then true else false.

Definition InvTrans (V : t) (aQ : Z) (aEvent : N) : list Z :=
  if negb (EventsSet.test (events_ V) aEvent) then []
  else
    let qx := aQ mod n_states_sys0_ V in
    let qy := aQ / n_states_sys0_ V in
    let in_x := DESystemBase.ContainsInvTrans (sys0_ V) qx aEvent in
    let in_y := DESystemBase.ContainsInvTrans (sys1_ V) qy aEvent in
    if negb (fires V in_x in_y aEvent) then []
    else if in_x && in_y then
      let inv_trans_0 := DESystemBase.InvTrans (sys0_ V) qx aEvent in
      let inv_trans_1 := DESystemBase.InvTrans (sys1_ V) qy aEvent in
      q0 ← inv_trans_0; q1 ← inv_trans_1; [q1 * n_states_sys0_ V + q0]
    else if in_x then
      let inv_trans_0 := DESystemBase.InvTrans (sys0_ V) qx aEvent in
      (λ q, qy * n_states_sys0_ V + q) <$> inv_trans_0
    else
      let inv_trans_1 := DESystemBase.InvTrans (sys1_ V) qy aEvent in
      (λ q, q * n_states_sys0_ V + qx) <$> inv_trans_1.

Definition GetStateEvents (V : t) (aQ : Z) : EventsSet.t :=
  let state_event_0 :=
    DESystemBase.GetStateEvents (sys0_ V) (aQ mod n_states_sys0_ V) in
  let state_event_1 :=
    DESystemBase.GetStateEvents (sys1_ V) (aQ / n_states_sys0_ V) in
  N.lor (N.lor (N.land state_event_0 state_event_1)
               (N.land state_event_0 (only_in_0_ V)))
        (N.land state_event_1 (only_in_1_ V)).

Definition GetInvStateEvents (V : t) (aQ : Z) : EventsSet.t :=
  let state_event_0 :=
    DESystemBase.GetInvStateEvents (sys0_ V) (aQ mod n_states_sys0_ V) in
  let state_event_1 :=
    DESystemBase.GetInvStateEvents (sys1_ V) (aQ / n_states_sys0_ V) in
  N.lor (N.lor (N.land state_event_0 state_event_1)
               (N.land state_event_0 (only_in_0_ V)))
        (N.land state_event_1 (only_in_1_ V)).

(** Constructor [SuperProxy(aPlants, aSpecs, aNonContr)]: no member
    initialiser and an empty body.  The members keep whatever their
    default initialisation gives, [default_members]; no argument is read. *)
Definition SuperProxy_from_vectors (default_members : t)
    (aPlants aSpecs : list DESystemBase.t) (aNonContr : gset N) : t :=
  default_members.

(** A proxy seen through the interface of its base class: an operand of a
    proxy may itself be a proxy. *)
Definition as_base (V : t) : DESystemBase.t :=
  {| DESystemBase.GetStatesNumber := states_number_ V;
     DESystemBase.GetInitialState := init_state_ V;
     DESystemBase.GetEvents := events_ V;
     DESystemBase.GetMarkedStates := marked_states_ V;
     DESystemBase.ContainsTrans := ContainsTrans V;
     DESystemBase.Trans := Trans V;
     DESystemBase.ContainsInvTrans := ContainsInvTrans V;
     DESystemBase.InvTrans := InvTrans V;
     DESystemBase.GetStateEvents := GetStateEvents V;
     DESystemBase.GetInvStateEvents := GetInvStateEvents V |}.

End SuperProxy.

(** ** Concrete automata, [DESystem] *)

Module DESystem.

(** The data members that the operations below read or write.  [graph_]
    and [bit_graph_] hold the entries given to [setFromTriplets]. *)
Record t : Type := Make {
  states_number_ : Z;
  init_state_ : Z;
  marked_states_ : gset Z;
  events_ : EventsSet.t;
  graph_ : list (Z * Z * EventsSet.t);
  bit_graph_ : list (Z * Z * bool)
}.

Definition union_events (l : list (Z * Z * EventsSet.t)) : EventsSet.t :=
  foldr (λ tr acc, N.lor tr.2 acc) 0%N l.

(** Modelled from the spec: the member functions of the concrete automaton
    (cldes/src/des/DESystemCore.hpp is not among the sources).  Sections 3
    and 4.2: [state_events(q)] is the union of the events sets leaving
    [q]; [contains_trans(q, e)] holds iff a transition [q --e--> q']
    exists; [trans] returns the successor or NONE; the inverse queries are
    the same on the transposed relation; the six queries answer the
    constant negative result for an event outside the alphabet. *)
Definition GetStateEvents (s : t) (q : Z) : EventsSet.t :=
  N.land (union_events (filter (λ tr, tr.1.1 = q) (graph_ s))) (events_ s).

Definition GetInvStateEvents (s : t) (q : Z) : EventsSet.t :=
  N.land (union_events (filter (λ tr, tr.1.2 = q) (graph_ s))) (events_ s).

Definition ContainsTrans (s : t) (q : Z) (e : N) : bool :=
  EventsSet.test (GetStateEvents s q) e.

Definition ContainsInvTrans (s : t) (q : Z) (e : N) : bool :=
  EventsSet.test (GetInvStateEvents s q) e.

Definition Trans (s : t) (q : Z) (e : N) : Z :=
  if EventsSet.test (events_ s) e then
    match filter (λ tr, tr.1.1 = q ∧ EventsSet.test tr.2 e = true) (graph_ s) with
    | tr :: _ => tr.1.2
    | [] => -1
    end
  else -1.

Definition InvTrans (s : t) (q : Z) (e : N) : list Z :=
  if EventsSet.test (events_ s) e then
    (λ tr, tr.1.1)
      <$> filter (λ tr, tr.1.2 = q ∧ EventsSet.test tr.2 e = true) (graph_ s)
  else [].

Definition as_base (s : t) : DESystemBase.t :=
  {| DESystemBase.GetStatesNumber := states_number_ s;
     DESystemBase.GetInitialState := init_state_ s;
     DESystemBase.GetEvents := events_ s;
     DESystemBase.GetMarkedStates := marked_states_ s;
     DESystemBase.ContainsTrans := ContainsTrans s;
     DESystemBase.Trans := Trans s;
     DESystemBase.ContainsInvTrans := ContainsInvTrans s;
     DESystemBase.InvTrans := InvTrans s;
     DESystemBase.GetStateEvents := GetStateEvents s;
     DESystemBase.GetInvStateEvents := GetInvStateEvents s |}.

(** Modelled from the spec: the constructors of section 6,
    [make_automaton(n_states, init, marked)] followed by
    [set_transition(from, to, event)] calls; an event enters the alphabet
    with its first transition (invariant I1). *)
Definition make_automaton (n_states init : Z) (marked : gset Z) : t :=
  {| states_number_ := n_states;
     init_state_ := init;
     marked_states_ := marked;
     events_ := 0%N;
     graph_ := [];
     bit_graph_ := [] |}.

Definition set_transition (s : t) (from to : Z) (event : N) : t :=
  {| states_number_ := states_number_ s;
     init_state_ := init_state_ s;
     marked_states_ := marked_states_ s;
     events_ := EventsSet.set (events_ s) event;
     graph_ := graph_ s ++ [(from, to, N.shiftl 1 event)];
     bit_graph_ := bit_graph_ s ++ [(to, from, true)] |}.

(** Every index stored in the automaton is one of its states. *)
Definition in_range (s : t) (q : Z) : Prop := 0 ≤ q < states_number_ s.

(** Modelled from the spec: the coefficient at [(from, to)] of the sparse
    matrix that [graph_.setFromTriplets] builds from the triplets.  Section
    4.6: triplets with equal coordinates make one entry, their events sets
    composed by bitwise union; an absent entry is the empty set. *)
Definition coeff (s : t) (from to : Z) : EventsSet.t :=
  union_events (filter (λ tr, tr.1.1 = from ∧ tr.1.2 = to) (graph_ s)).

Definition valid (s : t) : Prop :=
  in_range s (init_state_ s)
  ∧ Forall (λ tr, in_range s tr.1.1 ∧ in_range s tr.1.2) (graph_ s).

End DESystem.

(** ** Materialisation: [SynchronizeStage2] and [operator DESystem()] *)

Module Materialise.

Import SuperProxy.

(** First loop of [SynchronizeStage2]: the dense renumbering.  The state
    of the loop is [(statesmap, bittriplet_, cst)]. *)
Definition map_state (st : gmap Z Z * list (Z * Z * bool) * Z) (s : Z)
    : gmap Z Z * list (Z * Z * bool) * Z :=
  let '(statesmap, bittriplet, cst) := st in
  (<[s := cst]> statesmap, bittriplet ++ [(cst, cst, true)], cst + 1).

(** [statesmap[k]] on a hash map: the value, or the default-constructed
    one for an absent key. *)
Definition at_key (statesmap : gmap Z Z) (k : Z) : Z :=
  default 0 (statesmap !! k).

(** Second loop: the marked pairs that have a new index. *)
Definition remap_marked (V : t) (statesmap : gmap Z Z) (marked : gset Z)
    : gset Z :=
  foldl
    (λ acc s0,
       foldl
         (λ acc s1,
            let key := s1 * n_states_sys0_ V + s0 in
            if decide (is_Some (statesmap !! key))
            then {[ at_key statesmap key ]} ∪ acc
            else acc)
         acc (elements (DESystemBase.GetMarkedStates (sys1_ V))))
    marked (elements (DESystemBase.GetMarkedStates (sys0_ V))).

(** [EventsSet<NEvents>{ 1ul << event }]: the events set of an emitted
    transition.  [1ul] is a word of 64 bits, whatever [NEvents] is, and the
    count of its shift is taken modulo 64, as the [shl] instruction of
    x86-64 does (the C++ standard leaves a count of 64 or more undefined):
    the set holds the event [event mod 64]. *)
Definition label (event : N) : EventsSet.t :=
  N.shiftl 1 (event mod 64).

(** Third loop, inner part: the buffer of [q] is emptied from its back. *)
Definition emit_transition (statesmap : gmap Z Z) (q : Z)
    (st : list (Z * Z * EventsSet.t) * list (Z * Z * bool)) (qto_e : Z * N)
    : list (Z * Z * EventsSet.t) * list (Z * Z * bool) :=
  let '(triplet, bittriplet) := st in
  let qto := qto_e.1 in
  if decide (is_Some (statesmap !! qto)) then
    let event := qto_e.2 in
    let qto_mapped := at_key statesmap qto in
    let q_mapped := at_key statesmap q in
    (triplet ++ [(q_mapped, qto_mapped, label event)],
     bittriplet ++ [(qto_mapped, q_mapped, true)])
  else st.

(** Third loop, outer part: [transtriplet_] is emptied from its back. *)
Definition emit_state (statesmap : gmap Z Z)
    (st : list (Z * Z * EventsSet.t) * list (Z * Z * bool))
    (q_trans : Z * InvArgTrans)
    : list (Z * Z * EventsSet.t) * list (Z * Z * bool) :=
  foldl (emit_transition statesmap q_trans.1) st (rev q_trans.2).

Definition SynchronizeStage2 (aVirtualSys : t) : t :=
  let states_number := Z.of_nat (length (virtual_states_ aVirtualSys)) in
  let '(statesmap, bittriplet, _) :=
    foldl map_state (∅, bittriplet_ aVirtualSys, 0)
      (virtual_states_ aVirtualSys) in
  let marked :=
    remap_marked aVirtualSys statesmap (marked_states_ aVirtualSys) in
  let '(triplet, bittriplet) :=
    foldl (emit_state statesmap) (triplet_ aVirtualSys, bittriplet)
      (rev (transtriplet_ aVirtualSys)) in
  {| states_number_ := states_number;
     init_state_ := init_state_ aVirtualSys;
     events_ := events_ aVirtualSys;
     marked_states_ := marked;
     sys0_ := sys0_ aVirtualSys;
     sys1_ := sys1_ aVirtualSys;
     n_states_sys0_ := n_states_sys0_ aVirtualSys;
     only_in_0_ := only_in_0_ aVirtualSys;
     only_in_1_ := only_in_1_ aVirtualSys;
     virtual_states_ := [];
     transtriplet_ := [];
     triplet_ := triplet;
     bittriplet_ := bittriplet |}.

Definition sort_states (l : list Z) : list Z := merge_sort Z.le l.

(** The renumbering built from a vector of virtual states, and the index
    it gives to a state. *)
Definition renumbering (l : list Z) : gmap Z Z :=
  (foldl map_state (∅, [], 0) l).1.1.

Definition rank (survivors : list Z) (k : Z) : Z :=
  at_key (renumbering (sort_states survivors)) k.

(** The recorded transitions [(q, q', e)], in the order in which the third
    loop of [SynchronizeStage2] meets them. *)
Definition recorded_transitions (tt : list (Z * InvArgTrans))
    : list (Z * Z * N) :=
  q_trans ← rev tt; (λ qto_e, (q_trans.1, qto_e.1, qto_e.2)) <$> rev q_trans.2.

(** The triplet of a recorded transition under a renumbering. *)
Definition render (statesmap : gmap Z Z) (tr : Z * Z * N)
    : Z * Z * EventsSet.t :=
  (at_key statesmap tr.1.1, at_key statesmap tr.1.2, label tr.2).

Definition with_virtual_states (V : t) (l : list Z) : t :=
  {| states_number_ := states_number_ V;
     init_state_ := init_state_ V;
     events_ := events_ V;
     marked_states_ := marked_states_ V;
     sys0_ := sys0_ V;
     sys1_ := sys1_ V;
     n_states_sys0_ := n_states_sys0_ V;
     only_in_0_ := only_in_0_ V;
     only_in_1_ := only_in_1_ V;
     virtual_states_ := l;
     transtriplet_ := transtriplet_ V;
     triplet_ := triplet_ V;
     bittriplet_ := bittriplet_ V |}.

(** [SuperProxy::operator DESystem()]: sort the virtual states, run the
    second stage, move the members and the triplets to the new system.
    [graph_] and [bit_graph_] keep the triplets in the order in which
    [setFromTriplets] receives them; [DESystem.coeff] reads the matrix
    built from them, where the triplets of equal coordinates make one
    entry. *)
Definition to_DESystem (V : t) : DESystem.t :=
  let V1 := with_virtual_states V (sort_states (virtual_states_ V)) in
  let V2 := SynchronizeStage2 V1 in
  {| DESystem.states_number_ := states_number_ V2;
     DESystem.init_state_ := init_state_ V2;
     DESystem.marked_states_ := marked_states_ V2;
     DESystem.events_ := events_ V2;
     DESystem.graph_ := triplet_ V2;
     DESystem.bit_graph_ := bittriplet_ V2 |}.

End Materialise.

(** ** Supervisor synthesis: [RemoveBadStates] and [SupervisorSynth] *)

Module Synth.

Import SuperProxy.

(** [TransMap]: the surviving states and their recorded transitions. *)
Abbreviation TransMap := (gmap Z InvArgTrans).

(** *** [RemoveBadStates] *)

(** The state of its loops: the stack [f], [aC] and [aRmTable]. *)
Definition kill_state : Type := list Z * TransMap * gset Z.

(** Body of [for (StorageIndex s : finv)]. *)
Definition kill_visit (st : kill_state) (s : Z) : kill_state :=
  let '(f, aC, aRmTable) := st in
  if decide (s ∈ aRmTable) then st
  else (s :: f, delete s aC, {[ s ]} ∪ aRmTable).

(** Body of [if (q_events.test(0))], for the event at hand. *)
Definition kill_event (V : t) (x : Z) (event : N) (st : kill_state)
    : kill_state :=
  foldl kill_visit st (InvTrans V x event).

(** One iteration of [while (!f.empty())], after [x] has been popped. *)
Definition kill_pop (V : t) (aNonContrBit : EventsSet.t) (x : Z)
    (st : kill_state) : kill_state :=
  let q_events := N.land (GetInvStateEvents V x) aNonContrBit in
  EventsSet.for_each (kill_event V x) q_events st.

Fixpoint kill_loop (fuel : nat) (V : t) (aNonContrBit : EventsSet.t)
    (st : kill_state) : option (TransMap * gset Z) :=
  match fuel with
  | O => None
  | S fuel =>
      let '(f, aC, aRmTable) := st in
      match f with
      | [] => Some (aC, aRmTable)
      | x :: f => kill_loop fuel V aNonContrBit
                    (kill_pop V aNonContrBit x (f, aC, aRmTable))
      end
  end.

Definition RemoveBadStates (fuel : nat) (aVirtualSys : t) (aC : TransMap)
    (aQ : Z) (aNonContrBit : EventsSet.t) (aRmTable : gset Z)
    : option (TransMap * gset Z) :=
  kill_loop fuel aVirtualSys aNonContrBit ([aQ], aC, {[ aQ ]} ∪ aRmTable).

(** *** [SupervisorSynth] *)

(** [for (cldes::ScalarType event : aNonContr)]: the pair
    [(p_non_contr_bit, non_contr_bit)]. *)
Definition non_contr_event (aP : DESystemBase.t) (virtualsys : t)
    (bits : EventsSet.t * EventsSet.t) (event : N)
    : EventsSet.t * EventsSet.t :=
  let '(p_non_contr_bit, non_contr_bit) := bits in
  if EventsSet.test (DESystemBase.GetEvents aP) event then
    (EventsSet.set p_non_contr_bit event,
     if EventsSet.test (events_ virtualsys) event
     then EventsSet.set non_contr_bit event
     else non_contr_bit)
  else bits.

Definition non_contr_bits (aP : DESystemBase.t) (virtualsys : t)
    (aNonContr : gset N) : EventsSet.t * EventsSet.t :=
  foldl (non_contr_event aP virtualsys) (0%N, 0%N) (elements aNonContr).

(** The state of the main loop: the stack [f], [c] and [rmtable]. *)
Definition synth_state : Type := list Z * TransMap * gset Z.

(** Body of [if (event_it.test(0))] in the main loop; [rmtable] does not
    change while the events of [q] are visited. *)
Definition synth_event (V : t) (rmtable : gset Z) (q : Z) (event : N)
    (st : list Z * TransMap) : list Z * TransMap :=
  let '(f, c) := st in
  let fsqe := Trans V q event in
  let f :=
    if decide (fsqe ∈ rmtable) then f
    else if decide (is_Some (c !! fsqe)) then f
    else fsqe :: f in
  (f, <[q := default [] (c !! q) ++ [(fsqe, event)]]> c).

Definition required_u (aP : DESystemBase.t) (V : t)
    (p_non_contr_bit : EventsSet.t) (q : Z) : EventsSet.t :=
  N.land p_non_contr_bit
         (DESystemBase.GetStateEvents aP (q mod n_states_sys0_ V)).

Definition enabled_u (aP : DESystemBase.t) (V : t)
    (p_non_contr_bit : EventsSet.t) (q : Z) : EventsSet.t :=
  N.land (required_u aP V p_non_contr_bit q) (GetStateEvents V q).

(** One iteration of the main loop, after [q] has been popped. *)
Definition synth_pop (fuel : nat) (aP : DESystemBase.t) (V : t)
    (p_non_contr_bit non_contr_bit : EventsSet.t) (q : Z)
    (st : synth_state) : option synth_state :=
  let '(f, c, rmtable) := st in
  if decide (q ∈ rmtable) then Some st
  else if decide (is_Some (c !! q)) then Some st
  else
    let q_events := GetStateEvents V q in
    let in_ncqx := required_u aP V p_non_contr_bit q in
    let in_ncqx_and_q := N.land in_ncqx q_events in
    if negb (N.eqb in_ncqx_and_q in_ncqx) then
      match RemoveBadStates fuel V c q non_contr_bit rmtable with
      | Some (c, rmtable) => Some (f, c, rmtable)
      | None => None
      end
    else
      let '(f, c) :=
        EventsSet.for_each (synth_event V rmtable q) q_events
          (f, <[q := []]> c) in
      Some (f, c, rmtable).

Fixpoint synth_loop (fuel : nat) (aP : DESystemBase.t) (V : t)
    (p_non_contr_bit non_contr_bit : EventsSet.t) (st : synth_state)
    : option synth_state :=
  match fuel with
  | O => None
  | S fuel =>
      let '(f, c, rmtable) := st in
      match f with
      | [] => Some st
      | q :: f =>
          match synth_pop fuel aP V p_non_contr_bit non_contr_bit q
                  (f, c, rmtable) with
          | Some st => synth_loop fuel aP V p_non_contr_bit non_contr_bit st
          | None => None
          end
      end
  end.

(** The events of [q] with their successors: what the main loop puts in
    the buffer of a surviving [q]. *)
Definition recorded (V : t) (q : Z) : InvArgTrans :=
  (λ event, (Trans V q event, event)) <$> EventsSet.to_list (GetStateEvents V q).

(** The states pushed while the events of a surviving [q] are visited, the
    last one on top. *)
Definition pushed (V : t) (c : TransMap) (rmtable : gset Z) (q : Z)
    : list Z :=
  rev (filter (λ fsqe, (fsqe ∉ rmtable) ∧ fsqe ≠ q ∧ c !! fsqe = None)
         (Trans V q <$> EventsSet.to_list (GetStateEvents V q))).

(** The candidates met by one iteration of [RemoveBadStates] on [x]: the
    predecessors of [x] on the events of [aNonContrBit]. *)
Definition predecessors (V : t) (aNonContrBit : EventsSet.t) (x : Z)
    : list Z :=
  event ← EventsSet.to_list (N.land (GetInvStateEvents V x) aNonContrBit);
  InvTrans V x event.

(** Backward reachability from [x0] along inverse transitions on the
    events of [aNonContrBit], through states outside [avoid]. *)
Inductive kill_reach (V : t) (aNonContrBit : EventsSet.t) (avoid : gset Z)
    (x0 : Z) : Z → Prop :=
| kill_reach_start : kill_reach V aNonContrBit avoid x0 x0
| kill_reach_back (x p : Z) :
    kill_reach V aNonContrBit avoid x0 x →
    p ∈ predecessors V aNonContrBit x →
    p ∉ avoid →
    kill_reach V aNonContrBit avoid x0 p.

(** The states of the product, as a finite set. *)
Definition all_states (V : t) : gset Z :=
  list_to_set (seqZ 0 (states_number_ V)).

(** The proxy handed to the conversion: the keys of [c] and its entries. *)
Definition with_survivors (V : t) (c : TransMap) : t :=
  {| states_number_ := states_number_ V;
     init_state_ := init_state_ V;
     events_ := events_ V;
     marked_states_ := marked_states_ V;
     sys0_ := sys0_ V;
     sys1_ := sys1_ V;
     n_states_sys0_ := n_states_sys0_ V;
     only_in_0_ := only_in_0_ V;
     only_in_1_ := only_in_1_ V;
     virtual_states_ := virtual_states_ V ++ (map_to_list c).*1;
     transtriplet_ := transtriplet_ V ++ map_to_list c;
     triplet_ := triplet_ V;
     bittriplet_ := bittriplet_ V |}.

(** The main loop from its initial state. *)
Definition explore (fuel : nat) (aP aE : DESystemBase.t)
    (aNonContr : gset N) : option synth_state :=
  let virtualsys := SuperProxy aP aE aNonContr in
  let '(p_non_contr_bit, non_contr_bit) :=
    non_contr_bits aP virtualsys aNonContr in
  synth_loop fuel aP virtualsys p_non_contr_bit non_contr_bit
    ([init_state_ virtualsys], ∅, ∅).

(** [SupervisorSynth] up to the conversion of the proxy: the system [sys]
    on which [Trim] is called. *)
Definition SupervisorSynth_sys (fuel : nat) (aP aE : DESystemBase.t)
    (aNonContr : gset N) : option DESystem.t :=
  match explore fuel aP aE aNonContr with
  | Some (_, c, _) =>
      let virtualsys := SuperProxy aP aE aNonContr in
      Some (Materialise.to_DESystem (with_survivors virtualsys c))
  | None => None
  end.

(** [SupervisorSynth(aP, aE, aNonContr)].  [DESystem::Trim] is defined in
    cldes/src/des/DESystemCore.hpp, which is not among the sources: it is
    a parameter. *)
Definition SupervisorSynth (Trim : DESystem.t → DESystem.t) (fuel : nat)
    (aP aE : DESystemBase.t) (aNonContr : gset N) : option DESystem.t :=
  Trim <$> SupervisorSynth_sys fuel aP aE aNonContr.

End Synth.

(** ** The reduction tree: [GenBinExprTree] *)

Module BinExprTree.

(** A [std::shared_ptr<DESystemBase>] of the tree: a copy of an input
    system, or a proxy of two nodes. *)
Inductive node : Type :=
| Leaf (s : DESystem.t)
| Sync (lhs rhs : node).

(** The system behind a node. *)
Fixpoint system (n : node) : DESystemBase.t :=
  match n with
  | Leaf s => DESystem.as_base s
  | Sync lhs rhs =>
      SuperProxy.as_base (SuperProxy.SuperProxy (system lhs) (system rhs) ∅)
  end.

Fixpoint leaves (n : node) : list DESystem.t :=
  match n with
  | Leaf s => [s]
  | Sync lhs rhs => leaves lhs ++ leaves rhs
  end.

(** [while (!cp_sys.empty())]: two nodes leave the back of [cp_sys] at
    each iteration; [back] lists [cp_sys] from its last element. *)
Fixpoint pair_up (back : list node) (sys nodes_ref : list node)
    : list node * list node :=
  match back with
  | lhs :: rhs :: back =>
      let n := Sync lhs rhs in
      pair_up back (sys ++ [n]) (nodes_ref ++ [n])
  | _ => (sys, nodes_ref)
  end.

(** One iteration of [while (sys.size() != 1)]: when the size is odd the
    last node goes first to the new [sys]. *)
Definition level (sys nodes_ref : list node) : list node * list node :=
  let back := rev sys in
  if decide (Z.of_nat (length sys) mod 2 ≠ 0) then
    match back with
    | n :: back => pair_up back [n] nodes_ref
    | [] => ([], nodes_ref)
    end
  else pair_up back [] nodes_ref.

Fixpoint reduce (fuel : nat) (sys nodes_ref : list node)
    : option (node * list node) :=
  match fuel with
  | O => None
  | S fuel =>
      match sys with
      | [root] => Some (root, nodes_ref)
      | _ => let '(sys, nodes_ref) := level sys nodes_ref in
             reduce fuel sys nodes_ref
      end
  end.

Definition GenBinExprTree (fuel : nat) (aSystems : list DESystem.t)
    : option (node * list node) :=
  reduce fuel (Leaf <$> aSystems) (Leaf <$> aSystems).

(** The pairs of adjacent entries of a list, from its front; the last
    entry of a list of odd length is in no pair. *)
Fixpoint adjacent_pairs (l : list node) : list (node * node) :=
  match l with
  | a :: b :: l => (a, b) :: adjacent_pairs l
  | _ => []
  end.

(** The proxy built for a pair of adjacent entries: the later entry is its
    left operand. *)
Definition sync_pair (ab : node * node) : node := Sync ab.2 ab.1.

(** The nodes created from a level: one proxy per pair, the last pair
    first. *)
Definition paired (l : list node) : list node :=
  rev (sync_pair <$> adjacent_pairs l).

(** The input systems below the nodes of a level. *)
Definition all_leaves (sys : list node) : list DESystem.t :=
  n ← sys; leaves n.

End BinExprTree.

(** ** The automata of the scenarios *)

Module Scenario.

Definition a0 : N := 0.
Definition a1 : N := 1.
Definition b0 : N := 2.
Definition b1 : N := 3.

Definition non_contr : gset N := {[ b0; b1 ]}.

(** S1: the plant of four states. *)
Definition plant_S1 : DESystem.t :=
  let p := DESystem.make_automaton 4 0 {[ 0 ]} in
  let p := DESystem.set_transition p 0 1 a0 in
  let p := DESystem.set_transition p 0 2 a1 in
  let p := DESystem.set_transition p 1 0 b0 in
  let p := DESystem.set_transition p 1 3 a1 in
  let p := DESystem.set_transition p 2 0 b1 in
  let p := DESystem.set_transition p 2 3 a0 in
  let p := DESystem.set_transition p 3 1 b1 in
  DESystem.set_transition p 3 2 b0.

(** S2: the specification that disables [b0]. *)
Definition spec_S2 : DESystem.t :=
  let e := DESystem.make_automaton 2 0 {[ 0; 1 ]} in
  let e := DESystem.set_transition e 0 1 b0 in
  DESystem.set_transition e 1 0 a1.

(** S3: one state with a self-loop on [b0]; one state and no event. *)
Definition plant_S3 (marked : gset Z) : DESystem.t :=
  DESystem.set_transition (DESystem.make_automaton 1 0 marked) 0 0 b0.

Definition spec_S3 (marked : gset Z) : DESystem.t :=
  DESystem.make_automaton 1 0 marked.

(** A plant whose initial state is not its state 0: state 0 is not
    reachable from the initial state 1. *)
Definition plant_init1 : DESystem.t :=
  DESystem.set_transition (DESystem.make_automaton 2 1 {[ 1 ]}) 1 1 a0.

End Scenario.

(** ** More automata for the scenarios *)

Module Scenario2.

Import Scenario.

(** A specification that knows [b0] but does not enable it in its initial
    state: state 1 carries the only transition. *)
Definition spec_blocks_b0 : DESystem.t :=
  DESystem.set_transition (DESystem.make_automaton 2 0 {[ 0 ]}) 1 1 b0.

End Scenario2.

(** ** The query contract of an operand *)

Module Contract.

Import DESystemBase.

Definition in_alphabet (S : DESystemBase.t) (e : N) : Prop :=
  EventsSet.test (GetEvents S) e = true.

Definition is_state (S : DESystemBase.t) (q : Z) : Prop :=
  0 ≤ q < GetStatesNumber S.

(** Invariant I1, one inclusion: the events of a state, forward or
    inverse, belong to the alphabet. *)
Definition events_in_alphabet (S : DESystemBase.t) : Prop :=
  ∀ q e,
    EventsSet.test (GetStateEvents S q) e = true
    ∨ EventsSet.test (GetInvStateEvents S q) e = true →
    in_alphabet S e.

(** The boolean queries agree with the events sets of the states. *)
Definition queries_agree (S : DESystemBase.t) : Prop :=
  ∀ q e,
    ContainsTrans S q e = EventsSet.test (GetStateEvents S q) e
    ∧ ContainsInvTrans S q e = EventsSet.test (GetInvStateEvents S q) e.

(** What a client of the interface relies on (sections 3 and 4.2 of the
    specification): indices are states, the queries are consistent, and
    the inverse relation contains the transpose of the forward one. *)
Record t (S : DESystemBase.t) : Prop := Make {
  init_is_state : is_state S (GetInitialState S);
  alphabet : events_in_alphabet S;
  agree : queries_agree S;
  trans_is_state : ∀ q e,
    is_state S q → ContainsTrans S q e = true → is_state S (Trans S q e);
  inv_trans_is_state : ∀ q e p,
    is_state S q → p ∈ InvTrans S q e → is_state S p;
  trans_inv_trans : ∀ q e,
    is_state S q → ContainsTrans S q e = true →
    ContainsInvTrans S (Trans S q e) e = true
    ∧ q ∈ InvTrans S (Trans S q e) e
}.

End Contract.

(** ** What the main loop of the synthesis maintains *)

Module Invariant.

Import SuperProxy Synth.

(** The states that the product reaches from its initial state. *)
Inductive reachable (V : SuperProxy.t) : Z → Prop :=
| reachable_init : reachable V (init_state_ V)
| reachable_step (q : Z) (e : N) :
    reachable V q →
    EventsSet.test (GetStateEvents V q) e = true →
    reachable V (Trans V q e).

(** The invariant of [while (!f.empty())] in [SupervisorSynth], on the
    stack [f], the survivors [c] and the killed states [rmtable]. *)
Record t (aP : DESystemBase.t) (V : SuperProxy.t)
    (p_non_contr_bit non_contr_bit : EventsSet.t) (st : synth_state)
    : Prop := Make {
  stack_reachable : ∀ x,
    x ∈ st.1.1 → Contract.is_state (as_base V) x ∧ reachable V x;
  killed_not_surviving : ∀ q, q ∈ st.2 → st.1.2 !! q = None;
  killed_states : ∀ q, q ∈ st.2 → Contract.is_state (as_base V) q;
  survivor : ∀ q l,
    st.1.2 !! q = Some l →
    l = recorded V q
    ∧ enabled_u aP V p_non_contr_bit q = required_u aP V p_non_contr_bit q
    ∧ Contract.is_state (as_base V) q
    ∧ reachable V q;
  killed_closed : ∀ x p,
    x ∈ st.2 → p ∈ predecessors V non_contr_bit x → p ∈ st.2;
  successors_met : ∀ q e,
    is_Some (st.1.2 !! q) →
    EventsSet.test (GetStateEvents V q) e = true →
    is_Some (st.1.2 !! Trans V q e)
    ∨ Trans V q e ∈ st.2 ∨ Trans V q e ∈ st.1.1;
  init_met :
    is_Some (st.1.2 !! init_state_ V)
    ∨ init_state_ V ∈ st.2 ∨ init_state_ V ∈ st.1.1;
  killed_cause : ∀ x,
    x ∈ st.2 →
    ∃ b, b ∈ st.2
         ∧ reachable V b
         ∧ enabled_u aP V p_non_contr_bit b ≠ required_u aP V p_non_contr_bit b
         ∧ kill_reach V non_contr_bit ∅ b x
}.

(** [leads V U q q']: the product goes from [q] to [q'] by transitions on
    events of [U] only. *)
Inductive leads (V : SuperProxy.t) (U : N → Prop) : Z → Z → Prop :=
| leads_here (q : Z) : leads V U q q
| leads_step (q q' : Z) (e : N) :
    U e → ContainsTrans V q e = true →
    leads V U (Trans V q e) q' →
    leads V U q q'.

End Invariant.

(** ** The inverse lists hold predecessors only *)

Module Inverse.

Import DESystemBase.

(** Every state listed by [InvTrans S q e] has a transition on [e], and
    this transition leads to [q]. *)
Definition sound (S : DESystemBase.t) : Prop :=
  ∀ q e p,
    Contract.is_state S q → p ∈ InvTrans S q e →
    ContainsTrans S p e = true ∧ Trans S p e = q.

(** A concrete automaton is deterministic when two stored transitions from
    one state to two states have no common event. *)
Definition deterministic (s : DESystem.t) : bool :=
  forallb
    (λ tr, forallb
       (λ tr', negb (Z.eqb tr.1.1 tr'.1.1) || Z.eqb tr.1.2 tr'.1.2
               || N.eqb (N.land tr.2 tr'.2) 0)
       (DESystem.graph_ s))
    (DESystem.graph_ s).

End Inverse.

(** ** Supervisor synthesis from two vectors of systems *)

Module SynthVectors.

(** [SupervisorSynth(aPlants, aSpecs, aNonContr)], up to the conversion of
    the proxy: the two reduction trees, then the synthesis on their roots. *)
Definition SupervisorSynth_sys (fuel : nat) (aPlants aSpecs : list DESystem.t)
    (aNonContr : gset N) : option DESystem.t :=
  match BinExprTree.GenBinExprTree fuel aPlants with
  | Some plant =>
      match BinExprTree.GenBinExprTree fuel aSpecs with
      | Some spec =>
          Synth.SupervisorSynth_sys fuel (BinExprTree.system plant.1)
            (BinExprTree.system spec.1) aNonContr
      | None => None
      end
  | None => None
  end.

Definition SupervisorSynth (Trim : DESystem.t → DESystem.t) (fuel : nat)
    (aPlants aSpecs : list DESystem.t) (aNonContr : gset N)
    : option DESystem.t :=
  Trim <$> SupervisorSynth_sys fuel aPlants aSpecs aNonContr.

End SynthVectors.

(** ** The kill rule, in the words of the specification *)

Module Rule.

Import SuperProxy.

(** [p] is a predecessor of [x] on an event of the mask: the inverse query
    of the product lists [p] at [x] for an event that the inverse events
    of [x] and the mask both hold. *)
Definition back_step (V : t) (aNonContrBit : EventsSet.t) (x p : Z) : Prop :=
  ∃ e, EventsSet.test (GetInvStateEvents V x) e = true
       ∧ EventsSet.test aNonContrBit e = true
       ∧ p ∈ InvTrans V x e.

(** The kill propagates backwards from [q], through predecessors that are
    not yet killed. *)
Inductive propagates (V : t) (aNonContrBit : EventsSet.t) (killed : gset Z)
    (q : Z) : Z → Prop :=
| propagates_start : propagates V aNonContrBit killed q q
| propagates_back (x p : Z) :
    propagates V aNonContrBit killed q x →
    back_step V aNonContrBit x p →
    p ∉ killed →
    propagates V aNonContrBit killed q p.

End Rule.

(** ** The reduction, in the words of the specification *)

Module TreeSpec.

Import BinExprTree.

(** One round: adjacent entries are paired into products, and the last
    entry of a level of odd size is carried through unpaired; the node
    carried through comes first in the next level. *)
Definition round (l : list node) : list node :=
  (if Nat.even (length l) then [] else option_list (last l)) ++ paired l.

(** The level reached after [n] rounds. *)
Fixpoint rounds (n : nat) (l : list node) : list node :=
  match n with
  | O => l
  | S n => rounds n (round l)
  end.

(** The products created by [n] rounds, in the order of their creation. *)
Fixpoint created (n : nat) (l : list node) : list node :=
  match n with
  | O => []
  | S n => paired l ++ created n (round l)
  end.

End TreeSpec.

(** ** The index types of the machine *)

Module StorageIndex.

Import BinExprTree.

(** A value of [StorageIndex], an unsigned integer of [w] bits, and a
    value of [StorageIndexSigned], the signed integer of the same width:
    the conversions are modulo [2 ^ w]. *)
Definition wrap (w : N) (z : Z) : Z := z mod 2 ^ Z.of_N w.

Definition signed (w : N) (z : Z) : Z :=
  if wrap w z <? 2 ^ (Z.of_N w - 1) then wrap w z else wrap w z - 2 ^ Z.of_N w.

(** What [SuperProxy::Trans] returns: the sum [q1 * n_states_sys0_ + q0]
    is computed on [StorageIndex] and returned as a
    [StorageIndexSigned]. *)
Definition Trans (w : N) (V : SuperProxy.t) (q : Z) (e : N) : Z :=
  signed w (SuperProxy.Trans V q e).

(** The number of states of a node: the constructor of the proxy computes
    [aSys0.GetStatesNumber() * aSys1.GetStatesNumber()] on
    [StorageIndex]. *)
Fixpoint states_number (w : N) (n : node) : Z :=
  match n with
  | Leaf s => DESystem.states_number_ s
  | Sync lhs rhs => wrap w (states_number w lhs * states_number w rhs)
  end.

End StorageIndex.

(** ** Notions used to state the properties *)

Module Notions.

(** The product of the numbers of states of a list of automata. *)
Definition states_product (l : list DESystem.t) : Z :=
  foldr Z.mul 1 (DESystem.states_number_ <$> l).

(** The entry of the bit graph for a triplet of the graph: the same edge,
    from its target to its source. *)
Definition transposed (tr : Z * Z * EventsSet.t) : Z * Z * bool :=
  (tr.1.2, tr.1.1, true).

End Notions.

(** * Properties *)

Arguments EventsSet.test : simpl never.
Arguments EventsSet.set : simpl never.
Arguments DESystem.GetStateEvents : simpl never.
Arguments DESystem.GetInvStateEvents : simpl never.
Arguments DESystem.ContainsTrans : simpl never.
Arguments DESystem.ContainsInvTrans : simpl never.
Arguments DESystem.Trans : simpl never.
Arguments DESystem.InvTrans : simpl never.

(** ** Events sets *)

Section EventsSetFacts.

Import EventsSet.

Lemma test_land (a b : t) (e : N) : test (N.land a b) e = test a e && test b e.
Proof. apply N.land_spec. Qed.

Lemma test_lor (a b : t) (e : N) : test (N.lor a b) e = test a e || test b e.
Proof. apply N.lor_spec. Qed.

Lemma test_lxor (a b : t) (e : N) : test (N.lxor a b) e = xorb (test a e) (test b e).
Proof. apply N.lxor_spec. Qed.

Lemma test_zero (e : N) : test 0%N e = false.
Proof. apply N.bits_0. Qed.

Lemma test_set (s : t) (e e' : N) :
  test (set s e) e' = (N.eqb e e') || test s e'.
Proof. apply N.setbit_eqb. Qed.

Lemma test_single (e e' : N) : test (N.shiftl 1 e) e' = N.eqb e e'.
Proof.
  unfold test. destruct (N.eqb_spec e e') as [-> |Hne].
  - rewrite N.shiftl_spec_high' by lia. now rewrite N.sub_diag.
  - destruct (N.lt_ge_cases e' e) as [Hlt|Hge].
    + now rewrite N.shiftl_spec_low.
    + rewrite N.shiftl_spec_high' by lia.
      apply N.bits_above_log2. simpl. lia.
Qed.

Lemma elem_of_rev {A} (l : list A) (x : A) : x ∈ rev l ↔ x ∈ l.
Proof. rewrite !list_elem_of_In. symmetry. apply in_rev. Qed.

Lemma for_each_pos_cons (ev : N) (p : positive) (acc : list N) :
  for_each_pos (λ e a, e :: a) ev p acc
  = for_each_pos (λ e a, e :: a) ev p [] ++ acc.
Proof.
  revert ev acc. induction p as [p IH|p IH|]; intros ev acc; simpl.
  - rewrite (IH _ [ev]), (IH _ (ev :: acc)), <- app_assoc. reflexivity.
  - apply IH.
  - reflexivity.
Qed.

Lemma for_each_pos_foldl {A} (body : N → A → A) (ev : N) (p : positive) (acc : A) :
  for_each_pos body ev p acc
  = foldl (λ a e, body e a) acc (rev (for_each_pos (λ e a, e :: a) ev p [])).
Proof.
  revert ev acc. induction p as [p IH|p IH|]; intros ev acc; simpl.
  - rewrite (for_each_pos_cons _ _ [ev]), rev_app_distr. simpl. apply IH.
  - apply IH.
  - reflexivity.
Qed.

(** The traversal visits the events of [to_list], in this order. *)
Lemma for_each_foldl {A} (body : N → A → A) (s : t) (acc : A) :
  for_each body s acc = foldl (λ a e, body e a) acc (to_list s).
Proof.
  destruct s as [|p]; [reflexivity|]. apply for_each_pos_foldl.
Qed.

Lemma elem_of_for_each_pos (ev : N) (p : positive) (e : N) :
  e ∈ for_each_pos (λ e a, e :: a) ev p []
  ↔ ∃ k, e = (ev + k)%N ∧ Pos.testbit p k = true.
Proof.
  revert ev. induction p as [p IH|p IH|]; intros ev; simpl.
  - rewrite for_each_pos_cons, elem_of_app, IH, list_elem_of_singleton.
    split.
    + intros [(k & -> & Hk)| ->].
      * exists (N.succ k). split; [lia|].
        destruct k; simpl; [done|]. now rewrite Pos.pred_N_succ.
      * exists 0%N. split; [lia|done].
    + intros (k & -> & Hk). destruct k as [|k].
      * right. lia.
      * left. exists (Pos.pred_N k). split; [lia|done].
  - rewrite IH. split.
    + intros (k & -> & Hk). exists (N.succ k). split; [lia|].
      destruct k; simpl; [done|]. now rewrite Pos.pred_N_succ.
    + intros (k & -> & Hk). destruct k as [|k]; [done|].
      exists (Pos.pred_N k). split; [lia|done].
  - rewrite list_elem_of_singleton. split.
    + intros ->. exists 0%N. split; [lia|done].
    + intros (k & -> & Hk). destruct k; [lia|done].
Qed.

(** The events visited are the ones that belong to the set. *)
Lemma elem_of_to_list (s : t) (e : N) : e ∈ to_list s ↔ test s e = true.
Proof.
  unfold to_list, test. rewrite elem_of_rev. destruct s as [|p]; simpl.
  - rewrite elem_of_nil. split; [done|discriminate].
  - rewrite elem_of_for_each_pos. split.
    + intros (k & -> & Hk). now rewrite N.add_0_l.
    + intros Hk. exists e. split; [lia|done].
Qed.

End EventsSetFacts.

(** ** The virtual product *)

Section VirtualProduct.

Import DESystemBase.
Import Contract.

Variables (X Y : DESystemBase.t) (aNonContr : gset N).

Let V : SuperProxy.t := SuperProxy.SuperProxy X Y aNonContr.

Lemma test_events (e : N) :
  EventsSet.test (SuperProxy.events_ V) e
  = EventsSet.test (GetEvents X) e || EventsSet.test (GetEvents Y) e.
Proof. apply test_lor. Qed.

Lemma test_only_in_0 (e : N) :
  EventsSet.test (SuperProxy.only_in_0_ V) e
  = EventsSet.test (GetEvents X) e && negb (EventsSet.test (GetEvents Y) e).
Proof.
  simpl. rewrite test_lxor, test_land.
  destruct (EventsSet.test (GetEvents X) e), (EventsSet.test (GetEvents Y) e);
    reflexivity.
Qed.

Lemma test_only_in_1 (e : N) :
  EventsSet.test (SuperProxy.only_in_1_ V) e
  = EventsSet.test (GetEvents Y) e && negb (EventsSet.test (GetEvents X) e).
Proof.
  simpl. rewrite test_lxor, test_land.
  destruct (EventsSet.test (GetEvents X) e), (EventsSet.test (GetEvents Y) e);
    reflexivity.
Qed.

(** The masks of the constructor are the set differences of the
    alphabets. *)
Lemma only_in_0_ldiff :
  SuperProxy.only_in_0_ V = N.ldiff (GetEvents X) (GetEvents Y).
Proof.
  apply N.bits_inj. intros e. fold (EventsSet.test (SuperProxy.only_in_0_ V) e).
  rewrite test_only_in_0, N.ldiff_spec. reflexivity.
Qed.

Lemma only_in_1_ldiff :
  SuperProxy.only_in_1_ V = N.ldiff (GetEvents Y) (GetEvents X).
Proof.
  apply N.bits_inj. intros e. fold (EventsSet.test (SuperProxy.only_in_1_ V) e).
  rewrite test_only_in_1, N.ldiff_spec. reflexivity.
Qed.

Lemma test_GetStateEvents (q : Z) (e : N) :
  EventsSet.test (SuperProxy.GetStateEvents V q) e
  = SuperProxy.fires V
      (EventsSet.test (GetStateEvents X (q mod GetStatesNumber X)) e)
      (EventsSet.test (GetStateEvents Y (q / GetStatesNumber X)) e) e.
Proof.
  unfold SuperProxy.GetStateEvents, SuperProxy.fires.
  rewrite !test_lor, !test_land. reflexivity.
Qed.

Lemma test_GetInvStateEvents (q : Z) (e : N) :
  EventsSet.test (SuperProxy.GetInvStateEvents V q) e
  = SuperProxy.fires V
      (EventsSet.test (GetInvStateEvents X (q mod GetStatesNumber X)) e)
      (EventsSet.test (GetInvStateEvents Y (q / GetStatesNumber X)) e) e.
Proof.
  unfold SuperProxy.GetInvStateEvents, SuperProxy.fires.
  rewrite !test_lor, !test_land. reflexivity.
Qed.

(** A state event of the product is in its alphabet as soon as the
    operands keep their state events in theirs. *)
Lemma fires_in_events (a b : bool) (e : N) :
  (a = true → in_alphabet X e) → (b = true → in_alphabet Y e) →
  SuperProxy.fires V a b e = true →
  EventsSet.test (SuperProxy.events_ V) e = true.
Proof.
  unfold SuperProxy.fires, in_alphabet. rewrite test_events, test_only_in_0, test_only_in_1.
  intros Ha Hb. destruct a, b; simpl; try discriminate;
    intros H; try rewrite Ha by done; try rewrite Hb by done;
    try reflexivity;
    destruct (EventsSet.test (GetEvents X) e), (EventsSet.test (GetEvents Y) e);
    done.
Qed.

(** The guard of the queries, on operands whose boolean queries agree
    with state events kept within the alphabets: the alphabet test of the
    product is then implied by the guard. *)
Lemma ContainsTrans_fires (q : Z) (e : N) :
  events_in_alphabet X → events_in_alphabet Y →
  queries_agree X → queries_agree Y →
  SuperProxy.ContainsTrans V q e
  = SuperProxy.fires V
      (ContainsTrans X (q mod GetStatesNumber X) e)
      (ContainsTrans Y (q / GetStatesNumber X) e) e.
Proof.
  intros HaX HaY HqX HqY. unfold SuperProxy.ContainsTrans.
  change (SuperProxy.n_states_sys0_ V) with (GetStatesNumber X).
  change (SuperProxy.sys0_ V) with X. change (SuperProxy.sys1_ V) with Y.
  destruct (SuperProxy.fires V _ _ e) eqn:Hf.
  - rewrite (fires_in_events _ _ e) with (3 := Hf); [done| |]; intros H.
    + apply (HaX (q mod GetStatesNumber X)). left.
      now rewrite <- (proj1 (HqX _ e)).
    + apply (HaY (q / GetStatesNumber X)). left.
      now rewrite <- (proj1 (HqY _ e)).
  - now destruct (negb _).
Qed.

Lemma ContainsInvTrans_fires (q : Z) (e : N) :
  events_in_alphabet X → events_in_alphabet Y →
  queries_agree X → queries_agree Y →
  SuperProxy.ContainsInvTrans V q e
  = SuperProxy.fires V
      (ContainsInvTrans X (q mod GetStatesNumber X) e)
      (ContainsInvTrans Y (q / GetStatesNumber X) e) e.
Proof.
  intros HaX HaY HqX HqY. unfold SuperProxy.ContainsInvTrans.
  change (SuperProxy.n_states_sys0_ V) with (GetStatesNumber X).
  change (SuperProxy.sys0_ V) with X. change (SuperProxy.sys1_ V) with Y.
  destruct (SuperProxy.fires V _ _ e) eqn:Hf.
  - rewrite (fires_in_events _ _ e) with (3 := Hf); [done| |]; intros H.
    + apply (HaX (q mod GetStatesNumber X)). right.
      now rewrite <- (proj2 (HqX _ e)).
    + apply (HaY (q / GetStatesNumber X)). right.
      now rewrite <- (proj2 (HqY _ e)).
  - now destruct (negb _).
Qed.

(** C3.  For every state [q = (qx, qy)] of the product of [X] and [Y] and every
    event [e]: the product has a transition on [e] iff [e] is shared and
    both operands enable it, or [e] is only in [X] and [X] enables it, or
    [e] is only in [Y] and [Y] enables it; the events set of [q] is
    [(X.state_events(qx) ∩ Y.state_events(qy)) ∪ (X.state_events(qx) ∩
    only_X) ∪ (Y.state_events(qy) ∩ only_Y)] and it holds [e] exactly when
    the product has a transition on [e]; a shared event enabled on one
    side only does not fire.  The operands keep their state events within
    their alphabets and answer [ContainsTrans] from them. *)
Theorem composition_rule (q : Z) (e : N) :
  events_in_alphabet X → events_in_alphabet Y →
  queries_agree X → queries_agree Y →
  let qx := q mod GetStatesNumber X in
  let qy := q / GetStatesNumber X in
  let in_X := ContainsTrans X qx e = true in
  let in_Y := ContainsTrans Y qy e = true in
  let only_X := N.ldiff (GetEvents X) (GetEvents Y) in
  let only_Y := N.ldiff (GetEvents Y) (GetEvents X) in
  (SuperProxy.ContainsTrans V q e = true
   ↔ (in_alphabet X e ∧ in_alphabet Y e ∧ in_X ∧ in_Y)
     ∨ (in_alphabet X e ∧ ¬ in_alphabet Y e ∧ in_X)
     ∨ (in_alphabet Y e ∧ ¬ in_alphabet X e ∧ in_Y))
  ∧ SuperProxy.GetStateEvents V q
    = N.lor (N.lor (N.land (GetStateEvents X qx) (GetStateEvents Y qy))
                   (N.land (GetStateEvents X qx) only_X))
            (N.land (GetStateEvents Y qy) only_Y)
  ∧ EventsSet.test (SuperProxy.GetStateEvents V q) e
    = SuperProxy.ContainsTrans V q e
  ∧ (in_alphabet X e → in_alphabet Y e →
     ContainsTrans X qx e ≠ ContainsTrans Y qy e →
     SuperProxy.ContainsTrans V q e = false
     ∧ SuperProxy.Trans V q e = -1).
Proof.
  intros HaX HaY HqX HqY qx qy in_X in_Y only_X only_Y.
  assert (HX : ContainsTrans X qx e = true → in_alphabet X e).
  { intros H. apply (HaX qx). left. now rewrite <- (proj1 (HqX qx e)). }
  assert (HY : ContainsTrans Y qy e = true → in_alphabet Y e).
  { intros H. apply (HaY qy). left. now rewrite <- (proj1 (HqY qy e)). }
  assert (Hct := ContainsTrans_fires q e HaX HaY HqX HqY). fold qx qy in Hct.
  split; [|split; [|split]].
  - rewrite Hct. unfold SuperProxy.fires, in_X, in_Y, in_alphabet in *.
    rewrite test_only_in_0, test_only_in_1.
    destruct (ContainsTrans X qx e), (ContainsTrans Y qy e),
      (EventsSet.test (GetEvents X) e) eqn:EX,
      (EventsSet.test (GetEvents Y) e) eqn:EY; simpl;
      try (specialize (HX eq_refl)); try (specialize (HY eq_refl));
      try discriminate; split; try discriminate; intuition congruence.
  - unfold SuperProxy.GetStateEvents. rewrite only_in_0_ldiff, only_in_1_ldiff.
    reflexivity.
  - rewrite Hct, test_GetStateEvents. fold qx qy.
    now rewrite (proj1 (HqX qx e)), (proj1 (HqY qy e)).
  - intros EX EY Hne. unfold in_alphabet in EX, EY.
    assert (Hf : SuperProxy.fires V (ContainsTrans X qx e) (ContainsTrans Y qy e) e = false).
    { unfold SuperProxy.fires. rewrite test_only_in_0, test_only_in_1, EX, EY.
      destruct (ContainsTrans X qx e), (ContainsTrans Y qy e); simpl; congruence. }
    split; [now rewrite Hct|].
    unfold SuperProxy.Trans.
    change (SuperProxy.n_states_sys0_ V) with (GetStatesNumber X).
    change (SuperProxy.sys0_ V) with X. change (SuperProxy.sys1_ V) with Y.
    fold qx qy. rewrite Hf. now destruct (negb (EventsSet.test _ e)).
Qed.

(** C6.  For every state [q] of the product and every event [e] outside its
    alphabet, [ContainsTrans] and [ContainsInvTrans] answer [false],
    [Trans] answers [-1] (NONE), [InvTrans] answers the empty list, and
    neither [GetStateEvents] nor [GetInvStateEvents] reports [e]; the
    last two rest on the operands keeping their state events within
    their alphabets. *)
Theorem outside_alphabet (q : Z) (e : N) :
  EventsSet.test (SuperProxy.events_ V) e = false →
  SuperProxy.ContainsTrans V q e = false
  ∧ SuperProxy.ContainsInvTrans V q e = false
  ∧ SuperProxy.Trans V q e = -1
  ∧ SuperProxy.InvTrans V q e = []
  ∧ (events_in_alphabet X → events_in_alphabet Y →
     EventsSet.test (SuperProxy.GetStateEvents V q) e = false
     ∧ EventsSet.test (SuperProxy.GetInvStateEvents V q) e = false).
Proof.
  intros He.
  unfold SuperProxy.ContainsTrans, SuperProxy.ContainsInvTrans,
    SuperProxy.Trans, SuperProxy.InvTrans.
  rewrite He. simpl. do 4 (split; [reflexivity|]).
  intros HaX HaY.
  assert (Hno : ∀ a b,
    (a = true → in_alphabet X e) → (b = true → in_alphabet Y e) →
    SuperProxy.fires V a b e = false).
  { intros a b Ha Hb. apply not_true_is_false. intros Hf.
    apply fires_in_events in Hf; [congruence|done|done]. }
  split.
  - rewrite test_GetStateEvents. apply Hno; intros Hs.
    + apply (HaX (q mod GetStatesNumber X)). now left.
    + apply (HaY (q / GetStatesNumber X)). now left.
  - rewrite test_GetInvStateEvents. apply Hno; intros Hs.
    + apply (HaX (q mod GetStatesNumber X)). now right.
    + apply (HaY (q / GetStatesNumber X)). now right.
Qed.

(** *** The product under the contract of its operands *)

Lemma pair_mod (a b : Z) :
  0 ≤ b < GetStatesNumber X → (a * GetStatesNumber X + b) mod GetStatesNumber X = b.
Proof.
  intros Hb. rewrite Z.add_comm, Z.mod_add by lia. now apply Z.mod_small.
Qed.

Lemma pair_div (a b : Z) :
  0 ≤ b < GetStatesNumber X → (a * GetStatesNumber X + b) / GetStatesNumber X = a.
Proof.
  intros Hb. rewrite Z.add_comm, Z.div_add by lia.
  rewrite Z.div_small by done. lia.
Qed.

Lemma pair_is_state (a b : Z) :
  is_state X b → is_state Y a →
  is_state (SuperProxy.as_base V) (a * GetStatesNumber X + b).
Proof. unfold is_state. simpl. nia. Qed.

Lemma split_is_state (q : Z) :
  0 < GetStatesNumber X → is_state (SuperProxy.as_base V) q →
  is_state X (q mod GetStatesNumber X) ∧ is_state Y (q / GetStatesNumber X).
Proof.
  unfold is_state. simpl. intros Hn Hq. split.
  - now apply Z.mod_pos_bound.
  - split.
    + apply Z.div_pos; lia.
    + apply Z.div_lt_upper_bound; lia.
Qed.

Section UnderContract.

Hypotheses (HX : Contract.t X) (HY : Contract.t Y).

Lemma states_number_pos : 0 < GetStatesNumber X.
Proof. destruct (init_is_state _ HX). lia. Qed.

Lemma Trans_defined (q : Z) (e : N) :
  SuperProxy.Trans V q e ≠ -1 → SuperProxy.ContainsTrans V q e = true.
Proof.
  rewrite (ContainsTrans_fires q e (alphabet _ HX) (alphabet _ HY)
             (agree _ HX) (agree _ HY)).
  unfold SuperProxy.Trans.
  change (SuperProxy.n_states_sys0_ V) with (GetStatesNumber X).
  change (SuperProxy.sys0_ V) with X. change (SuperProxy.sys1_ V) with Y.
  destruct (negb (EventsSet.test _ e)); [done|].
  destruct (SuperProxy.fires V _ _ e); simpl; done.
Qed.

(** The three cases of a step of the product. *)
Lemma ContainsTrans_cases (q : Z) (e : N) :
  SuperProxy.ContainsTrans V q e = true →
  let qx := q mod GetStatesNumber X in
  let qy := q / GetStatesNumber X in
  EventsSet.test (SuperProxy.events_ V) e = true
  ∧ ((ContainsTrans X qx e = true ∧ ContainsTrans Y qy e = true
      ∧ SuperProxy.Trans V q e
        = Trans Y qy e * GetStatesNumber X + Trans X qx e)
     ∨ (ContainsTrans X qx e = true ∧ ¬ in_alphabet Y e
        ∧ SuperProxy.Trans V q e = qy * GetStatesNumber X + Trans X qx e)
     ∨ (ContainsTrans Y qy e = true ∧ ¬ in_alphabet X e
        ∧ SuperProxy.Trans V q e = Trans Y qy e * GetStatesNumber X + qx)).
Proof.
  intros Hc qx qy. unfold SuperProxy.ContainsTrans, SuperProxy.Trans in *.
  change (SuperProxy.n_states_sys0_ V) with (GetStatesNumber X) in *.
  change (SuperProxy.sys0_ V) with X in *.
  change (SuperProxy.sys1_ V) with Y in *. fold qx qy in Hc |- *.
  destruct (EventsSet.test (SuperProxy.events_ V) e) eqn:He; [|done].
  split; [done|]. simpl in *.
  destruct (SuperProxy.fires V _ _ e) eqn:Hf; [|done]. simpl.
  unfold SuperProxy.fires in Hf.
  rewrite test_only_in_0, test_only_in_1 in Hf. unfold in_alphabet.
  destruct (ContainsTrans X qx e), (ContainsTrans Y qy e); simpl in *.
  - left. done.
  - right. left. split; [done|]. split; [|done].
    destruct (EventsSet.test (GetEvents Y) e); [|done].
    rewrite andb_false_r in Hf. done.
  - right. right. split; [done|]. split; [|done].
    destruct (EventsSet.test (GetEvents X) e); [|done].
    rewrite andb_false_r in Hf. done.
  - done.
Qed.

Lemma not_in_alphabet_no_inverse (S : DESystemBase.t) (q : Z) (e : N) :
  Contract.t S → ¬ in_alphabet S e → ContainsInvTrans S q e = false.
Proof.
  intros HS Hn. apply not_true_is_false. intros Hc. apply Hn.
  apply (alphabet _ HS q). right. now rewrite <- (proj2 (agree _ HS q e)).
Qed.

Lemma in_alphabet_of_inverse (S : DESystemBase.t) (q : Z) (e : N) :
  Contract.t S → ContainsInvTrans S q e = true → in_alphabet S e.
Proof.
  intros HS Hc. apply (alphabet _ HS q). right.
  now rewrite <- (proj2 (agree _ HS q e)).
Qed.

Lemma product_trans_is_state (q : Z) (e : N) :
  is_state (SuperProxy.as_base V) q →
  SuperProxy.ContainsTrans V q e = true →
  is_state (SuperProxy.as_base V) (SuperProxy.Trans V q e).
Proof.
  intros Hq Hc. destruct (split_is_state q states_number_pos Hq) as [Hqx Hqy].
  destruct (ContainsTrans_cases q e Hc) as (_ & [(Hx & Hy & ->)|[(Hx & _ & ->)|(Hy & _ & ->)]]).
  - apply pair_is_state; [now apply (trans_is_state _ HX)|now apply (trans_is_state _ HY)].
  - apply pair_is_state; [now apply (trans_is_state _ HX)|done].
  - apply pair_is_state; [done|now apply (trans_is_state _ HY)].
Qed.

Lemma product_trans_inv_trans (q : Z) (e : N) :
  is_state (SuperProxy.as_base V) q →
  SuperProxy.ContainsTrans V q e = true →
  SuperProxy.ContainsInvTrans V (SuperProxy.Trans V q e) e = true
  ∧ q ∈ SuperProxy.InvTrans V (SuperProxy.Trans V q e) e.
Proof.
  intros Hq Hc. pose proof states_number_pos as Hn.
  destruct (split_is_state q Hn Hq) as [Hqx Hqy].
  assert (Hdm : q = q / GetStatesNumber X * GetStatesNumber X
                    + q mod GetStatesNumber X).
  { rewrite (Z.div_mod q (GetStatesNumber X)) at 1 by lia. lia. }
  rewrite (ContainsInvTrans_fires _ e (alphabet _ HX) (alphabet _ HY)
             (agree _ HX) (agree _ HY)).
  unfold SuperProxy.InvTrans.
  change (SuperProxy.n_states_sys0_ V) with (GetStatesNumber X).
  change (SuperProxy.sys0_ V) with X. change (SuperProxy.sys1_ V) with Y.
  destruct (ContainsTrans_cases q e Hc)
    as (He & [(Hx & Hy & ->)|[(Hx & HnY & ->)|(Hy & HnX & ->)]]);
    rewrite He; simpl.
  - destruct (trans_inv_trans _ HX _ e Hqx Hx) as [Hcx Hix].
    destruct (trans_inv_trans _ HY _ e Hqy Hy) as [Hcy Hiy].
    pose proof (trans_is_state _ HX _ e Hqx Hx) as Hsx.
    rewrite pair_mod, pair_div by done. rewrite Hcx, Hcy.
    unfold SuperProxy.fires. simpl. split; [done|].
    apply list_elem_of_bind. eexists. split; [|exact Hix].
    apply list_elem_of_bind. eexists. split; [|exact Hiy].
    apply list_elem_of_singleton. exact Hdm.
  - destruct (trans_inv_trans _ HX _ e Hqx Hx) as [Hcx Hix].
    pose proof (trans_is_state _ HX _ e Hqx Hx) as Hsx.
    rewrite pair_mod, pair_div by done.
    rewrite Hcx, (not_in_alphabet_no_inverse Y _ e HY HnY).
    pose proof (in_alphabet_of_inverse X _ e HX Hcx) as HaX.
    unfold SuperProxy.fires. rewrite test_only_in_0.
    unfold in_alphabet in HaX, HnY. rewrite HaX.
    destruct (EventsSet.test (GetEvents Y) e); [done|]. simpl.
    split; [done|]. apply list_elem_of_fmap. eexists. split; [|exact Hix].
    exact Hdm.
  - destruct (trans_inv_trans _ HY _ e Hqy Hy) as [Hcy Hiy].
    rewrite pair_mod, pair_div by done.
    rewrite Hcy, (not_in_alphabet_no_inverse X _ e HX HnX).
    pose proof (in_alphabet_of_inverse Y _ e HY Hcy) as HaY.
    unfold SuperProxy.fires. rewrite test_only_in_1.
    unfold in_alphabet in HaY, HnX. rewrite HaY.
    destruct (EventsSet.test (GetEvents X) e); [done|]. simpl.
    split; [done|]. apply list_elem_of_fmap. eexists. split; [|exact Hiy].
    exact Hdm.
Qed.

(** C7.  Inverse round trip: for every state [q] of the product and every
    event [e] on which its transition is defined ([Trans] is not [-1]),
    the list [InvTrans (Trans q e) e] contains [q].  The operands
    satisfy the query contract. *)
Theorem inverse_round_trip (q : Z) (e : N) :
  is_state (SuperProxy.as_base V) q →
  SuperProxy.Trans V q e ≠ -1 →
  q ∈ SuperProxy.InvTrans V (SuperProxy.Trans V q e) e.
Proof.
  intros Hq Hd. apply product_trans_inv_trans; [done|].
  now apply Trans_defined.
Qed.

Lemma product_inv_trans_is_state (q : Z) (e : N) (p : Z) :
  is_state (SuperProxy.as_base V) q →
  p ∈ SuperProxy.InvTrans V q e →
  is_state (SuperProxy.as_base V) p.
Proof.
  intros Hq. destruct (split_is_state q states_number_pos Hq) as [Hqx Hqy].
  unfold SuperProxy.InvTrans.
  change (SuperProxy.n_states_sys0_ V) with (GetStatesNumber X).
  change (SuperProxy.sys0_ V) with X. change (SuperProxy.sys1_ V) with Y.
  destruct (negb (EventsSet.test _ e)); [by rewrite elem_of_nil|].
  destruct (negb (SuperProxy.fires V _ _ e)); [by rewrite elem_of_nil|].
  destruct (ContainsInvTrans X _ e && ContainsInvTrans Y _ e);
    [|destruct (ContainsInvTrans X _ e)].
  - intros (q0 & Hp & H0)%list_elem_of_bind.
    apply list_elem_of_bind in Hp as (q1 & Hp & H1).
    apply list_elem_of_singleton in Hp as ->.
    apply pair_is_state;
      [by eapply (inv_trans_is_state _ HX)|by eapply (inv_trans_is_state _ HY)].
  - intros (q0 & -> & H0)%list_elem_of_fmap.
    apply pair_is_state; [by eapply (inv_trans_is_state _ HX)|done].
  - intros (q1 & -> & H1)%list_elem_of_fmap.
    apply pair_is_state; [done|by eapply (inv_trans_is_state _ HY)].
Qed.

(** The product satisfies the contract of its operands: it can be the
    operand of another product. *)
Lemma product_contract : Contract.t (SuperProxy.as_base V).
Proof.
  split.
  - apply pair_is_state; [apply (init_is_state _ HX)|apply (init_is_state _ HY)].
  - intros q e [H|H]; unfold in_alphabet; simpl in *.
    + rewrite test_GetStateEvents in H.
      apply (fires_in_events _ _ e) with (3 := H); intros Hs.
      * apply (alphabet _ HX (q mod GetStatesNumber X)). now left.
      * apply (alphabet _ HY (q / GetStatesNumber X)). now left.
    + rewrite test_GetInvStateEvents in H.
      apply (fires_in_events _ _ e) with (3 := H); intros Hs.
      * apply (alphabet _ HX (q mod GetStatesNumber X)). now right.
      * apply (alphabet _ HY (q / GetStatesNumber X)). now right.
  - intros q e. simpl. split.
    + rewrite (ContainsTrans_fires q e (alphabet _ HX) (alphabet _ HY)
                 (agree _ HX) (agree _ HY)), test_GetStateEvents.
      now rewrite (proj1 (agree _ HX _ e)), (proj1 (agree _ HY _ e)).
    + rewrite (ContainsInvTrans_fires q e (alphabet _ HX) (alphabet _ HY)
                 (agree _ HX) (agree _ HY)), test_GetInvStateEvents.
      now rewrite (proj2 (agree _ HX _ e)), (proj2 (agree _ HY _ e)).
  - intros q e. apply product_trans_is_state.
  - intros q e p. apply product_inv_trans_is_state.
  - intros q e. apply product_trans_inv_trans.
Qed.

End UnderContract.

End VirtualProduct.

(** ** Concrete automata satisfy the contract *)

Section ConcreteAutomaton.

Import Contract.

Lemma test_union_events (l : list (Z * Z * EventsSet.t)) (e : N) :
  EventsSet.test (DESystem.union_events l) e = true
  ↔ ∃ tr, tr ∈ l ∧ EventsSet.test tr.2 e = true.
Proof.
  induction l as [|tr l IH].
  - change (DESystem.union_events []) with 0%N.
    rewrite test_zero. split; [done|]. intros (tr & Htr & _).
    by apply elem_of_nil in Htr.
  - change (DESystem.union_events (tr :: l))
      with (N.lor tr.2 (DESystem.union_events l)).
    rewrite test_lor, orb_true_iff, IH. split.
    + intros [H|(tr' & Hin & H)].
      * exists tr. split; [left|done].
      * exists tr'. split; [by right|done].
    + intros (tr' & Hin & H). apply elem_of_cons in Hin as [->|Hin].
      * by left.
      * right. by exists tr'.
Qed.

Variable s : DESystem.t.
Hypothesis Hvalid : DESystem.valid s.

Lemma graph_in_range (tr : Z * Z * EventsSet.t) :
  tr ∈ DESystem.graph_ s →
  DESystem.in_range s tr.1.1 ∧ DESystem.in_range s tr.1.2.
Proof.
  intros Hin. destruct Hvalid as [_ Hall].
  rewrite Forall_forall in Hall. by apply Hall.
Qed.

(** A transition that answers [ContainsTrans]. *)
Lemma ContainsTrans_witness (q : Z) (e : N) :
  DESystem.ContainsTrans s q e = true →
  EventsSet.test (DESystem.events_ s) e = true
  ∧ ∃ tr l,
      filter (λ tr, tr.1.1 = q ∧ EventsSet.test tr.2 e = true)
        (DESystem.graph_ s) = tr :: l.
Proof.
  unfold DESystem.ContainsTrans, DESystem.GetStateEvents.
  rewrite test_land, andb_true_iff, test_union_events.
  intros [(tr & Hin & Ht) He]. split; [done|].
  apply list_elem_of_filter in Hin as [Hq Hin].
  destruct (filter _ (DESystem.graph_ s)) as [|tr' l] eqn:Hf; [|by eauto].
  assert (tr ∈ filter (λ tr, tr.1.1 = q ∧ EventsSet.test tr.2 e = true)
                 (DESystem.graph_ s)) as Hin'.
  { by apply list_elem_of_filter. }
  rewrite Hf in Hin'. by apply elem_of_nil in Hin'.
Qed.

Lemma concrete_contract : Contract.t (DESystem.as_base s).
Proof.
  split; simpl.
  - apply Hvalid.
  - intros q e. unfold in_alphabet. simpl.
    unfold DESystem.GetStateEvents, DESystem.GetInvStateEvents.
    rewrite !test_land, !andb_true_iff. tauto.
  - intros q e. done.
  - intros q e _ Hc. destruct (ContainsTrans_witness q e Hc) as (He & tr & l & Hf).
    unfold DESystem.Trans. rewrite He, Hf.
    assert (tr ∈ filter (λ tr, tr.1.1 = q ∧ EventsSet.test tr.2 e = true)
                   (DESystem.graph_ s)) as Hin by (rewrite Hf; left).
    apply list_elem_of_filter in Hin as [_ Hin].
    apply (graph_in_range tr Hin).
  - intros q e p _. unfold DESystem.InvTrans.
    destruct (EventsSet.test (DESystem.events_ s) e); [|by rewrite elem_of_nil].
    intros (tr & -> & Hin)%list_elem_of_fmap.
    apply list_elem_of_filter in Hin as [_ Hin].
    apply (graph_in_range tr Hin).
  - intros q e _ Hc. destruct (ContainsTrans_witness q e Hc) as (He & tr & l & Hf).
    unfold DESystem.Trans, DESystem.InvTrans, DESystem.ContainsInvTrans,
      DESystem.GetInvStateEvents. rewrite He, Hf.
    assert (tr ∈ filter (λ tr, tr.1.1 = q ∧ EventsSet.test tr.2 e = true)
                   (DESystem.graph_ s)) as Hin by (rewrite Hf; left).
    apply list_elem_of_filter in Hin as [[Hq Ht] Hin].
    split.
    + rewrite test_land, He, andb_true_r. apply test_union_events.
      exists tr. split; [|done]. by apply list_elem_of_filter.
    + apply list_elem_of_fmap. exists tr. split; [done|].
      by apply list_elem_of_filter.
Qed.

End ConcreteAutomaton.

(** ** Kill propagation *)

Section KillPropagation.

Import Contract.
Import Synth.

Variables (V : SuperProxy.t) (nc : EventsSet.t).

Lemma foldl_bind {A B C} (f : A → C → A) (g : B → list C) (a : A) (l : list B) :
  foldl f a (l ≫= g) = foldl (λ a b, foldl f a (g b)) a l.
Proof.
  revert a. induction l as [|b l IH]; intros a; [done|].
  change ((b :: l) ≫= g) with (g b ++ (l ≫= g)).
  rewrite foldl_app. apply IH.
Qed.

(** One iteration visits the predecessors in the order of the events. *)
Lemma kill_pop_foldl (x : Z) (st : kill_state) :
  kill_pop V nc x st = foldl kill_visit st (predecessors V nc x).
Proof.
  unfold kill_pop, predecessors. rewrite for_each_foldl.
  rewrite foldl_bind. reflexivity.
Qed.

Lemma elem_of_predecessors (x p : Z) :
  p ∈ predecessors V nc x
  ↔ ∃ e, EventsSet.test (N.land (SuperProxy.GetInvStateEvents V x) nc) e = true
         ∧ p ∈ SuperProxy.InvTrans V x e.
Proof.
  unfold predecessors. rewrite list_elem_of_bind.
  split; intros (e & H1 & H2); exists e.
  - by rewrite <- elem_of_to_list.
  - by rewrite elem_of_to_list.
Qed.

(** What a sequence of visits does to the state of the loop. *)
Lemma foldl_kill_visit (cand : list Z) (f : list Z) (c : TransMap) (rm : gset Z) :
  ∃ new c',
    foldl kill_visit (f, c, rm) cand = (new ++ f, c', list_to_set new ∪ rm)
    ∧ (∀ p, p ∈ new → (p ∉ rm) ∧ p ∈ cand)
    ∧ (∀ p, p ∈ cand → p ∈ new ∨ p ∈ rm)
    ∧ (∀ p, c' !! p = if decide (p ∈ new) then None else c !! p).
Proof.
  revert f c rm. induction cand as [|s cand IH]; intros f c rm.
  - exists [], c. split; [|split; [|split]].
    + simpl. f_equal. by rewrite (left_id_L ∅ (∪)).
    + intros p H. by apply elem_of_nil in H.
    + intros p H. by apply elem_of_nil in H.
    + intros p. by rewrite decide_False by apply not_elem_of_nil.
  - change (foldl kill_visit (f, c, rm) (s :: cand))
      with (foldl kill_visit (kill_visit (f, c, rm) s) cand).
    unfold kill_visit at 2. destruct (decide (s ∈ rm)) as [Hs|Hs].
    + destruct (IH f c rm) as (new & c' & -> & H1 & H2 & H3).
      exists new, c'. split; [done|split; [|split; [|done]]].
      * intros p Hp. split; [by apply H1|]. right. by apply H1.
      * intros p [->|Hp]%elem_of_cons; [by right|by apply H2].
    + destruct (IH (s :: f) (delete s c) ({[s]} ∪ rm))
        as (new & c' & -> & H1 & H2 & H3).
      exists (new ++ [s]), c'. split; [|split; [|split]].
      * rewrite <- app_assoc. simpl. f_equal. set_solver.
      * intros p [H|H%list_elem_of_singleton]%elem_of_app.
        -- apply H1 in H. set_solver.
        -- subst. split; [done|left].
      * intros p [->|Hp]%elem_of_cons; [left; set_solver|].
        destruct (H2 p Hp) as [?|?]; [left|]; set_solver.
      * intros p. rewrite H3. destruct (decide (p ∈ new)) as [Hn|Hn].
        -- rewrite decide_True by set_solver. done.
        -- destruct (decide (p = s)) as [->|Hne].
           ++ rewrite decide_True by set_solver. apply lookup_delete_eq.
           ++ rewrite decide_False by set_solver. by apply lookup_delete_ne.
Qed.

Lemma kill_pop_spec (x : Z) (f : list Z) (c : TransMap) (rm : gset Z) :
  ∃ new c',
    kill_pop V nc x (f, c, rm) = (new ++ f, c', list_to_set new ∪ rm)
    ∧ (∀ p, p ∈ new → (p ∉ rm) ∧ p ∈ predecessors V nc x)
    ∧ (∀ p, p ∈ predecessors V nc x → p ∈ new ∨ p ∈ rm)
    ∧ (∀ p, c' !! p = if decide (p ∈ new) then None else c !! p).
Proof. rewrite kill_pop_foldl. apply foldl_kill_visit. Qed.

Lemma kill_reach_mono (avoid avoid' : gset Z) (x0 p : Z) :
  avoid ⊆ avoid' →
  kill_reach V nc avoid' x0 p → kill_reach V nc avoid x0 p.
Proof.
  intros Hsub. induction 1 as [|x p Hx IH Hp Hn].
  - constructor.
  - apply (kill_reach_back _ _ _ _ x); [done|done|set_solver].
Qed.

Lemma kill_reach_trans (avoid : gset Z) (x0 x1 p : Z) :
  kill_reach V nc avoid x0 x1 → kill_reach V nc avoid x1 p →
  kill_reach V nc avoid x0 p.
Proof.
  intros H01. induction 1 as [|x p Hx IH Hp Hn]; [done|].
  by apply (kill_reach_back _ _ _ _ x).
Qed.

End KillPropagation.

(** ** The kill rule and the recorded transitions, without the loop *)

Section KillRule.

Import Contract Synth.

Variables (V : SuperProxy.t) (nc : EventsSet.t).

Lemma back_step_predecessors (x p : Z) :
  Rule.back_step V nc x p ↔ p ∈ predecessors V nc x.
Proof.
  rewrite elem_of_predecessors. unfold Rule.back_step.
  split; intros (e & H); exists e; rewrite test_land, andb_true_iff in *; tauto.
Qed.

Lemma propagates_kill_reach (killed : gset Z) (q p : Z) :
  Rule.propagates V nc killed q p ↔ kill_reach V nc killed q p.
Proof.
  split; induction 1 as [|x p Hx IH Hp Hn]; try constructor.
  - apply (kill_reach_back _ _ _ _ x); [done| |done].
    by apply back_step_predecessors.
  - apply (Rule.propagates_back _ _ _ _ x); [done| |done].
    by apply back_step_predecessors.
Qed.

Lemma elem_of_recorded (q q' : Z) (e : N) :
  (q', e) ∈ recorded V q
  ↔ EventsSet.test (SuperProxy.GetStateEvents V q) e = true
    ∧ q' = SuperProxy.Trans V q e.
Proof.
  unfold recorded. rewrite list_elem_of_fmap. split.
  - intros (e' & [= -> ->] & He). by apply elem_of_to_list in He.
  - intros [He ->]. exists e. split; [done|]. by apply elem_of_to_list.
Qed.

Lemma elem_of_pushed (c : TransMap) (rm : gset Z) (q x : Z) :
  x ∈ pushed V c rm q
  ↔ (x ∉ rm) ∧ x ≠ q ∧ c !! x = None
    ∧ ∃ e, EventsSet.test (SuperProxy.GetStateEvents V q) e = true
           ∧ x = SuperProxy.Trans V q e.
Proof.
  unfold pushed. rewrite elem_of_rev, list_elem_of_filter, list_elem_of_fmap.
  split.
  - intros ((H1 & H2 & H3) & e & -> & He). apply elem_of_to_list in He. eauto 10.
  - intros (H1 & H2 & H3 & e & He & ->). split; [done|].
    exists e. split; [done|]. by apply elem_of_to_list.
Qed.

End KillRule.

(** ** The synthesis loops on a product of two operands under contract *)

Section Synthesis.

Import Contract.
Import Synth.

Variables (aP aE : DESystemBase.t) (aNonContr : gset N).
Hypotheses (HP : Contract.t aP) (HE : Contract.t aE).

Let V : SuperProxy.t := SuperProxy.SuperProxy aP aE aNonContr.

Lemma elem_of_all_states (q : Z) :
  q ∈ all_states V ↔ is_state (SuperProxy.as_base V) q.
Proof.
  unfold all_states, is_state. rewrite elem_of_list_to_set, elem_of_seqZ.
  simpl. lia.
Qed.

Lemma predecessors_is_state (nc : EventsSet.t) (x p : Z) :
  is_state (SuperProxy.as_base V) x → p ∈ predecessors V nc x →
  is_state (SuperProxy.as_base V) p.
Proof.
  intros Hx (e & _ & Hp)%elem_of_predecessors.
  by apply (product_inv_trans_is_state aP aE aNonContr HP HE x e).
Qed.

(** The loop of [RemoveBadStates] from any state whose stack holds states
    of the product: it ends, [aRmTable] has grown by the states reached
    backwards from the stack, and these have left [aC]. *)
Lemma kill_loop_total (nc : EventsSet.t) (n : nat) :
  ∀ (f : list Z) (c : TransMap) (rm : gset Z),
    (∀ x, x ∈ f → is_state (SuperProxy.as_base V) x) →
    (size (all_states V ∖ rm) ≤ n)%nat →
    ∃ fuel c' rm',
      (∀ k, (fuel ≤ k)%nat → kill_loop k V nc (f, c, rm) = Some (c', rm'))
      ∧ rm ⊆ rm'
      ∧ (∀ x p, x ∈ f ∨ (x ∈ rm' ∧ x ∉ rm) →
                p ∈ predecessors V nc x → p ∈ rm')
      ∧ (∀ p, p ∈ rm' → p ∉ rm → ∃ x0, x0 ∈ f ∧ kill_reach V nc rm x0 p)
      ∧ (∀ p, c' !! p = if decide (p ∈ rm' ∧ p ∉ rm) then None else c !! p).
Proof.
  induction n as [n IHn] using lt_wf_ind.
  induction f as [|x f IHf]; intros c rm Hf Hsize.
  - exists 1%nat, c, rm. split; [|split; [|split; [|split]]].
    + intros [|k] Hk; [lia|done].
    + done.
    + intros x p [H|[? ?]] _; [by apply elem_of_nil in H|done].
    + done.
    + intros p. by rewrite decide_False by tauto.
  - destruct (kill_pop_spec V nc x f c rm) as (new & c1 & Hpop & Hnew & Hall & Hc1).
    assert (Hx : is_state (SuperProxy.as_base V) x) by (apply Hf; left).
    assert (Hstack : ∀ y, y ∈ new ++ f → is_state (SuperProxy.as_base V) y).
    { intros y [Hy|Hy]%elem_of_app.
      - apply (predecessors_is_state nc x); [done|]. by apply Hnew.
      - apply Hf. by right. }
    assert (Hnext : ∃ fuel c' rm',
      (∀ k, (fuel ≤ k)%nat →
            kill_loop k V nc (new ++ f, c1, list_to_set new ∪ rm) = Some (c', rm'))
      ∧ list_to_set new ∪ rm ⊆ rm'
      ∧ (∀ x p, x ∈ new ++ f ∨ (x ∈ rm' ∧ x ∉ list_to_set new ∪ rm) →
                p ∈ predecessors V nc x → p ∈ rm')
      ∧ (∀ p, p ∈ rm' → p ∉ list_to_set new ∪ rm →
              ∃ x0, x0 ∈ new ++ f ∧ kill_reach V nc (list_to_set new ∪ rm) x0 p)
      ∧ (∀ p, c' !! p
              = if decide (p ∈ rm' ∧ p ∉ list_to_set new ∪ rm) then None
                else c1 !! p)).
    { destruct new as [|p0 new'].
      - assert (c1 = c) as ->.
        { apply map_eq. intros p. rewrite Hc1.
          by rewrite decide_False by apply not_elem_of_nil. }
        rewrite list_to_set_nil, (left_id_L ∅ (∪)). simpl.
        apply IHf; [|done]. intros y Hy. apply Hf. by right.
      - apply (IHn (size (all_states V ∖ (list_to_set (p0 :: new') ∪ rm))));
          [|done|done].
        eapply Nat.lt_le_trans; [|exact Hsize].
        apply subset_size. apply strict_spec_alt. split; [set_solver|].
        assert (p0 ∈ all_states V ∖ rm) as Hin.
        { apply elem_of_difference. split.
          - apply elem_of_all_states, Hstack. left.
          - apply (Hnew p0). left. }
        intros Heq. rewrite <- Heq in Hin. set_solver. }
    destruct Hnext as (fuel & c' & rm' & Hrun & Hsub & Hclosed & Hsound & Hc').
    exists (S fuel), c', rm'. split; [|split; [|split; [|split]]].
    + intros [|k] Hk; [lia|]. simpl. rewrite Hpop. apply Hrun. lia.
    + set_solver.
    + intros y p Hy Hp.
      destruct (decide (y ∈ new ++ f)) as [Hin|Hout];
        [by apply (Hclosed y); [left|]|].
      destruct Hy as [[->|Hy]%elem_of_cons|[Hy1 Hy2]].
      * apply Hsub. destruct (Hall p Hp); set_solver.
      * exfalso. apply Hout. set_solver.
      * apply (Hclosed y); [|done]. right. split; [done|].
        intros [Hy%elem_of_list_to_set|Hy]%elem_of_union; [|done].
        apply Hout. set_solver.
    + intros p Hp Hn. destruct (decide (p ∈ new)) as [Hin|Hout].
      * exists x. split; [left|].
        apply (kill_reach_back _ _ _ _ x); [constructor|by apply Hnew|done].
      * destruct (Hsound p Hp) as (x0 & Hx0 & Hreach); [set_solver|].
        apply (kill_reach_mono _ _ rm) in Hreach; [|set_solver].
        apply elem_of_app in Hx0 as [Hx0|Hx0].
        -- exists x. split; [left|].
           apply (kill_reach_trans _ _ _ _ x0); [|done].
           apply (kill_reach_back _ _ _ _ x); [constructor|by apply Hnew|].
           by apply Hnew.
        -- exists x0. split; [by right|done].
    + intros p. rewrite Hc', Hc1.
      destruct (decide (p ∈ new)) as [Hin|Hout].
      * destruct (decide (p ∈ rm' ∧ p ∉ rm)) as [?|Hno];
          [by destruct (decide _)|].
        exfalso. apply Hno. split; [set_solver|by apply Hnew].
      * destruct (decide (p ∈ rm' ∧ p ∉ rm)) as [[H1 H2]|Hno].
        -- rewrite decide_True; [done|]. set_solver.
        -- rewrite decide_False; [done|]. set_solver.
Qed.

Lemma kill_reach_outside (nc : EventsSet.t) (avoid : gset Z) (x0 x : Z) :
  kill_reach V nc avoid x0 x → x = x0 ∨ x ∉ avoid.
Proof. destruct 1; [by left|by right]. Qed.

(** [RemoveBadStates] on a state [q] of the product that is not yet
    killed: it ends; the killed set becomes the old one with the states
    reached backwards from [q]; the states that entered it have left
    [aC] (but [q], which the caller never put there). *)
Lemma RemoveBadStates_total (nc : EventsSet.t) (c : TransMap) (q : Z)
    (rm : gset Z) :
  is_state (SuperProxy.as_base V) q → q ∉ rm →
  ∃ fuel c' rm',
    (∀ k, (fuel ≤ k)%nat → RemoveBadStates k V c q nc rm = Some (c', rm'))
    ∧ (∀ p, p ∈ rm' ↔ p ∈ rm ∨ kill_reach V nc rm q p)
    ∧ (∀ p, c' !! p
            = if decide (p ∈ rm' ∧ p ∉ {[q]} ∪ rm) then None else c !! p).
Proof.
  intros Hq Hnq.
  destruct (kill_loop_total nc (size (all_states V ∖ ({[q]} ∪ rm))) [q] c
              ({[q]} ∪ rm))
    as (fuel & c' & rm' & Hrun & Hsub & Hclosed & Hsound & Hc'); [|done|].
  { intros x ->%list_elem_of_singleton. done. }
  exists fuel, c', rm'. split; [done|]. split; [|done].
  intros p. split.
  - intros Hp. destruct (decide (p ∈ {[q]} ∪ rm)) as [Hin|Hout].
    + apply elem_of_union in Hin as [->%elem_of_singleton|Hin];
        [right; constructor|by left].
    + right. destruct (Hsound p Hp Hout) as (x0 & ->%list_elem_of_singleton & Hr).
      apply (kill_reach_mono _ _ rm) in Hr; [done|set_solver].
  - intros [Hp|Hr]; [set_solver|].
    induction Hr as [|x p Hx IH Hp Hn]; [set_solver|].
    apply (Hclosed x); [|done].
    destruct (kill_reach_outside _ _ _ _ Hx) as [->|Hout]; [left; left|].
    destruct (decide (x = q)) as [->|Hne]; [left; left|].
    right. split; [done|set_solver].
Qed.

(** The visit of the events of a surviving [q]: every successor is
    recorded, the ones neither killed nor surviving are pushed. *)
Lemma foldl_synth_event (rm : gset Z) (q : Z) (c : TransMap)
    (l : list N) (f : list Z) (buf : SuperProxy.InvArgTrans) :
  foldl (λ st e, synth_event V rm q e st) (f, <[q := buf]> c) l
  = (rev (filter (λ fsqe, (fsqe ∉ rm) ∧ fsqe ≠ q ∧ c !! fsqe = None)
                 (SuperProxy.Trans V q <$> l)) ++ f,
     <[q := buf ++ ((λ e, (SuperProxy.Trans V q e, e)) <$> l)]> c).
Proof.
  revert f buf. induction l as [|e l IH]; intros f buf.
  - simpl. by rewrite app_nil_r.
  - change (foldl (λ st e, synth_event V rm q e st) (f, <[q := buf]> c) (e :: l))
      with (foldl (λ st e, synth_event V rm q e st)
              (synth_event V rm q e (f, <[q := buf]> c)) l).
    unfold synth_event at 2.
    rewrite lookup_insert_eq, insert_insert_eq. simpl default.
    rewrite IH, <- app_assoc. simpl. f_equal.
    rewrite filter_cons.
    destruct (decide (SuperProxy.Trans V q e ∈ rm)) as [Hin|Hout].
    + rewrite decide_False by tauto. done.
    + destruct (decide (is_Some (<[q:=buf]> c !! SuperProxy.Trans V q e)))
        as [Hs|Hs].
      * rewrite decide_False; [done|]. intros (_ & Hne & Hc).
        rewrite lookup_insert_ne, Hc in Hs by done. by destruct Hs.
      * rewrite decide_True.
        -- simpl. by rewrite <- app_assoc.
        -- split; [done|]. split.
           ++ intros Heq. apply Hs. rewrite Heq, lookup_insert_eq. eauto.
           ++ destruct (decide (SuperProxy.Trans V q e = q)) as [Heq|Hne].
              ** exfalso. apply Hs. rewrite Heq, lookup_insert_eq. eauto.
              ** rewrite lookup_insert_ne in Hs by done.
                 by apply eq_None_not_Some.
Qed.

Lemma for_each_synth_event (rm : gset Z) (q : Z) (c : TransMap)
    (f : list Z) :
  EventsSet.for_each (synth_event V rm q) (SuperProxy.GetStateEvents V q)
    (f, <[q := []]> c)
  = (pushed V c rm q ++ f, <[q := recorded V q]> c).
Proof. rewrite for_each_foldl. apply foldl_synth_event. Qed.

Lemma pushed_is_state (c : TransMap) (rm : gset Z) (q x : Z) :
  is_state (SuperProxy.as_base V) q → x ∈ pushed V c rm q →
  is_state (SuperProxy.as_base V) x.
Proof.
  intros Hq. unfold pushed. rewrite elem_of_rev, list_elem_of_filter.
  intros (_ & (e & -> & He)%list_elem_of_fmap).
  apply elem_of_to_list in He.
  apply (product_trans_is_state aP aE aNonContr HP HE q e Hq).
  pose proof (product_contract aP aE aNonContr HP HE) as HV.
  etrans; [apply (proj1 (agree _ HV q e))|done].
Qed.

(** One iteration of the main loop on a popped state [q] of the product:
    it ends, in one of three ways. *)
Lemma synth_pop_total (p_nc nc : EventsSet.t) (q : Z) (f : list Z)
    (c : TransMap) (rm : gset Z) :
  is_state (SuperProxy.as_base V) q →
  ∃ fuel st',
    (∀ k, (fuel ≤ k)%nat → synth_pop k aP V p_nc nc q (f, c, rm) = Some st')
    ∧ (q ∈ rm ∨ is_Some (c !! q) → st' = (f, c, rm))
    ∧ (q ∉ rm → c !! q = None →
       enabled_u aP V p_nc q = required_u aP V p_nc q →
       st' = (pushed V c rm q ++ f, <[q := recorded V q]> c, rm))
    ∧ (q ∉ rm → c !! q = None →
       enabled_u aP V p_nc q ≠ required_u aP V p_nc q →
       ∃ c' rm',
         st' = (f, c', rm')
         ∧ (∀ p, p ∈ rm' ↔ p ∈ rm ∨ kill_reach V nc rm q p)
         ∧ (∀ p, c' !! p
                 = if decide (p ∈ rm' ∧ p ∉ rm) then None else c !! p)).
Proof.
  intros Hq. unfold synth_pop.
  destruct (decide (q ∈ rm)) as [Hin|Hout].
  { exists 0%nat, (f, c, rm). split; [done|]. split; [done|]. split; done. }
  destruct (decide (is_Some (c !! q))) as [Hs|Hs].
  { exists 0%nat, (f, c, rm). split; [done|]. split; [done|].
    split; intros _ Hc; rewrite Hc in Hs; by destruct Hs. }
  fold (enabled_u aP V p_nc q).
  destruct (N.eqb_spec (enabled_u aP V p_nc q) (required_u aP V p_nc q))
    as [Heq|Hne]; simpl.
  - rewrite for_each_synth_event.
    exists 0%nat, (pushed V c rm q ++ f, <[q := recorded V q]> c, rm).
    split; [done|]. split; [intros [?|?]; done|]. split; done.
  - destruct (RemoveBadStates_total nc c q rm Hq Hout)
      as (fuel & c' & rm' & Hrun & Hrm & Hc').
    exists fuel, (f, c', rm'). split; [|split; [|split]].
    + intros k Hk. by rewrite Hrun.
    + intros [?|?]; done.
    + done.
    + intros _ Hc _. exists c', rm'. split; [done|]. split; [done|].
      intros p. rewrite Hc'.
      destruct (decide (p = q)) as [->|Hpq].
      * rewrite decide_False by set_solver. rewrite Hc.
        by destruct (decide _).
      * destruct (decide (p ∈ rm' ∧ p ∉ rm)) as [[? ?]|Hno].
        -- rewrite decide_True; [done|set_solver].
        -- rewrite decide_False; [done|set_solver].
Qed.

(** What an iteration does to the two tables and to the stack. *)
Lemma synth_pop_grows (p_nc nc : EventsSet.t) (q : Z) (f : list Z)
    (c : TransMap) (rm : gset Z) :
  (∀ x, x ∈ q :: f → is_state (SuperProxy.as_base V) x) →
  ∃ fuel f' c' rm',
    (∀ k, (fuel ≤ k)%nat →
          synth_pop k aP V p_nc nc q (f, c, rm) = Some (f', c', rm'))
    ∧ dom c ∪ rm ⊆ dom c' ∪ rm'
    ∧ rm ⊆ rm'
    ∧ dom c ∖ dom c' ⊆ rm'
    ∧ q ∈ dom c' ∪ rm'
    ∧ (q ∈ dom c ∪ rm → (f', c', rm') = (f, c, rm))
    ∧ (∀ x, x ∈ f' → is_state (SuperProxy.as_base V) x).
Proof.
  intros Hst. assert (Hq : is_state (SuperProxy.as_base V) q) by (apply Hst; left).
  assert (Hf : ∀ x, x ∈ f → is_state (SuperProxy.as_base V) x)
    by (intros x Hx; apply Hst; by right).
  destruct (synth_pop_total p_nc nc q f c rm Hq)
    as (fuel & st' & Hrun & Hskip & Hlive & Hkill).
  destruct (decide (q ∈ rm)) as [Hin|Hout].
  { rewrite (Hskip (or_introl Hin)) in Hrun. exists fuel, f, c, rm.
    split; [done|]. split; [done|]. split; [done|].
    split; [intros p Hp; apply elem_of_difference in Hp; tauto|].
    split; [apply elem_of_union; by right|]. split; done. }
  destruct (c !! q) as [l|] eqn:Hc.
  { rewrite Hskip in Hrun by eauto. exists fuel, f, c, rm.
    split; [done|]. split; [done|]. split; [done|].
    split; [intros p Hp; apply elem_of_difference in Hp; tauto|].
    split; [|split; done].
    apply elem_of_union. left. apply elem_of_dom. eauto. }
  assert (Hfresh : q ∈ dom c ∪ rm → False).
  { intros [Hd%elem_of_dom|?]%elem_of_union; [|done].
    rewrite Hc in Hd. by destruct Hd. }
  destruct (decide (enabled_u aP V p_nc q = required_u aP V p_nc q))
    as [Heq|Hne].
  - rewrite (Hlive Hout eq_refl Heq) in Hrun.
    exists fuel, (pushed V c rm q ++ f), (<[q := recorded V q]> c), rm.
    split; [done|]. rewrite dom_insert_L.
    split; [intros p Hp; apply elem_of_union in Hp as [Hp|Hp];
            apply elem_of_union; [left; apply elem_of_union|]; by right|].
    split; [done|].
    split; [intros p [Hp Hn]%elem_of_difference; exfalso; apply Hn;
            apply elem_of_union; by right|].
    split; [apply elem_of_union; left; apply elem_of_union; left;
            by apply elem_of_singleton|].
    split; [intros H; by destruct (Hfresh H)|].
    intros x [Hx|Hx]%elem_of_app; [by apply (pushed_is_state c rm q)|by apply Hf].
  - destruct (Hkill Hout eq_refl Hne) as (c' & rm' & -> & Hrm & Hc').
    assert (Hdom : ∀ p, p ∈ dom c' ↔ p ∈ dom c ∧ ¬ (p ∈ rm' ∧ p ∉ rm)).
    { intros p. rewrite !elem_of_dom, Hc'.
      destruct (decide (p ∈ rm' ∧ p ∉ rm)) as [H|H].
      - split; [intros []; done|tauto].
      - tauto. }
    assert (Hsub : rm ⊆ rm') by (intros p Hp; apply Hrm; by left).
    exists fuel, f, c', rm'. split; [done|].
    split; [|split; [done|split; [|split; [|split; [|done]]]]].
    + intros p [Hp|Hp]%elem_of_union;
        [|apply elem_of_union; right; by apply Hsub].
      destruct (decide (p ∈ rm')) as [?|Hno];
        [apply elem_of_union; by right|].
      apply elem_of_union. left. apply Hdom. tauto.
    + intros p [Hp Hn]%elem_of_difference.
      destruct (decide (p ∈ rm')) as [?|Hno]; [done|].
      exfalso. apply Hn, Hdom. tauto.
    + apply elem_of_union. right. apply Hrm. right. constructor.
    + intros H. by destruct (Hfresh H).
Qed.

Lemma synth_loop_pop (k : nat) (p_nc nc : EventsSet.t) (q : Z) (f : list Z)
    (c : TransMap) (rm : gset Z) :
  synth_loop (S k) aP V p_nc nc (q :: f, c, rm)
  = match synth_pop k aP V p_nc nc q (f, c, rm) with
    | Some st => synth_loop k aP V p_nc nc st
    | None => None
    end.
Proof. reflexivity. Qed.

(** The main loop from any state whose stack holds states of the product:
    it ends with an empty stack. *)
Lemma synth_loop_total (p_nc nc : EventsSet.t) (n : nat) :
  ∀ (f : list Z) (c : TransMap) (rm : gset Z),
    (∀ x, x ∈ f → is_state (SuperProxy.as_base V) x) →
    (size (all_states V ∖ (dom c ∪ rm)) ≤ n)%nat →
    ∃ fuel c' rm',
      ∀ k, (fuel ≤ k)%nat →
           synth_loop k aP V p_nc nc (f, c, rm) = Some ([], c', rm').
Proof.
  induction n as [n IHn] using lt_wf_ind.
  induction f as [|q f IHf]; intros c rm Hst Hsize.
  - exists 1%nat, c, rm. intros [|k] Hk; [lia|done].
  - destruct (synth_pop_grows p_nc nc q f c rm Hst)
      as (fuel1 & f' & c' & rm' & Hrun & Hgrow & _ & _ & Hq & Hsame & Hst').
    assert (Hnext : ∃ fuel c'' rm'',
      ∀ k, (fuel ≤ k)%nat →
           synth_loop k aP V p_nc nc (f', c', rm') = Some ([], c'', rm'')).
    { destruct (decide (q ∈ dom c ∪ rm)) as [Hin|Hout].
      - rewrite (Hsame Hin). apply IHf; [|done].
        intros x Hx. apply Hst. by right.
      - apply (IHn (size (all_states V ∖ (dom c' ∪ rm')))); [|done|done].
        eapply Nat.lt_le_trans; [|exact Hsize].
        apply subset_size. apply strict_spec_alt. split.
        { intros p [Hp Hn]%elem_of_difference. apply elem_of_difference.
          split; [done|]. intros Hp'. by apply Hn, Hgrow. }
        assert (q ∈ all_states V ∖ (dom c ∪ rm)) as Hin.
        { apply elem_of_difference. split; [|done].
          apply elem_of_all_states, Hst. left. }
        intros Heq. rewrite <- Heq in Hin.
        apply elem_of_difference in Hin as [_ Hin]. done. }
    destruct Hnext as (fuel2 & c'' & rm'' & Hrest).
    exists (S (Nat.max fuel1 fuel2)), c'', rm''.
    intros [|k] Hk; [lia|].
    rewrite synth_loop_pop, Hrun by lia. apply Hrest. lia.
Qed.

(** *** The masks of the uncontrollable events *)

Lemma non_contr_event_split (a b : EventsSet.t) (e' : N) :
  non_contr_event aP V (a, b) e'
  = (if EventsSet.test (DESystemBase.GetEvents aP) e'
     then EventsSet.set a e' else a,
     if EventsSet.test (DESystemBase.GetEvents aP) e'
        && EventsSet.test (SuperProxy.events_ V) e'
     then EventsSet.set b e' else b).
Proof.
  unfold non_contr_event.
  by destruct (EventsSet.test (DESystemBase.GetEvents aP) e').
Qed.

Lemma test_set_if (cond : bool) (a : EventsSet.t) (e' e : N) :
  EventsSet.test (if cond then EventsSet.set a e' else a) e = true
  ↔ EventsSet.test a e = true ∨ (e = e' ∧ cond = true).
Proof.
  destruct cond.
  - rewrite test_set, orb_true_iff, N.eqb_eq. naive_solver.
  - naive_solver.
Qed.

Lemma foldl_non_contr_event (l : list N) (a b : EventsSet.t) (e : N) :
  (EventsSet.test (foldl (non_contr_event aP V) (a, b) l).1 e = true
   ↔ EventsSet.test a e = true ∨ (e ∈ l ∧ in_alphabet aP e))
  ∧ (EventsSet.test (foldl (non_contr_event aP V) (a, b) l).2 e = true
     ↔ EventsSet.test b e = true
       ∨ (e ∈ l ∧ in_alphabet aP e
          ∧ EventsSet.test (SuperProxy.events_ V) e = true)).
Proof.
  revert a b. induction l as [|e' l IH]; intros a b.
  - simpl. split; (split; [by left|]); intros [?|[H _]]; try done;
      by apply elem_of_nil in H.
  - change (foldl (non_contr_event aP V) (a, b) (e' :: l))
      with (foldl (non_contr_event aP V) (non_contr_event aP V (a, b) e') l).
    rewrite non_contr_event_split.
    destruct (IH (if EventsSet.test (DESystemBase.GetEvents aP) e'
                  then EventsSet.set a e' else a)
                 (if EventsSet.test (DESystemBase.GetEvents aP) e'
                     && EventsSet.test (SuperProxy.events_ V) e'
                  then EventsSet.set b e' else b)) as [-> ->].
    rewrite !test_set_if, andb_true_iff, !elem_of_cons. unfold in_alphabet.
    split; split.
    + intros [[?|[-> ?]]|[? ?]]; tauto.
    + intros [?|[[->|?] ?]]; tauto.
    + intros [[?|[-> [? ?]]]|[? ?]]; tauto.
    + intros [?|[[->|?] [? ?]]]; tauto.
Qed.

(** [p_non_contr_bit] holds the uncontrollable events of the plant,
    [non_contr_bit] the ones that are also events of the product. *)
Lemma test_non_contr_bits (e : N) :
  let bits := non_contr_bits aP V aNonContr in
  (EventsSet.test bits.1 e = true ↔ e ∈ aNonContr ∧ in_alphabet aP e)
  ∧ (EventsSet.test bits.2 e = true
     ↔ e ∈ aNonContr ∧ in_alphabet aP e
       ∧ EventsSet.test (SuperProxy.events_ V) e = true).
Proof.
  destruct (foldl_non_contr_event (elements aNonContr) 0%N 0%N e) as [H1 H2].
  unfold non_contr_bits. simpl. rewrite H1, H2, test_zero, elem_of_elements.
  split; split; try tauto; intros [?|?]; done.
Qed.

(** C1.  In the main loop, for a popped state [q] of the product that is
    neither killed nor surviving: [required_u] holds the uncontrollable
    events enabled by the plant at [q mod n_P], [enabled_u] is its
    intersection with the events of the product at [q], and the
    iteration ends with [q] killed exactly when the two differ.  In that
    case the killed set becomes the old one with every state to which the
    kill propagates from [q], backwards along inverse transitions on the
    uncontrollable events of the product, and each state that entered it
    has left the survivors; otherwise [q] enters the survivors with the
    list of its transitions, one [(Trans V q e, e)] for each event [e] of
    [q] and no other, the successors that are neither killed nor
    surviving are pushed, and the killed set is unchanged. *)
Theorem bad_state_rule (q : Z) (f : list Z) (c : TransMap) (rm : gset Z) :
  let p_non_contr_bit := (non_contr_bits aP V aNonContr).1 in
  let non_contr_bit := (non_contr_bits aP V aNonContr).2 in
  let required := required_u aP V p_non_contr_bit q in
  let enabled := enabled_u aP V p_non_contr_bit q in
  is_state (SuperProxy.as_base V) q → q ∉ rm → c !! q = None →
  (∀ e, EventsSet.test required e = true
        ↔ e ∈ aNonContr
          ∧ EventsSet.test
              (DESystemBase.GetStateEvents aP
                 (q mod DESystemBase.GetStatesNumber aP)) e = true)
  ∧ enabled = N.land required (SuperProxy.GetStateEvents V q)
  ∧ (∀ e, EventsSet.test non_contr_bit e = true
          ↔ e ∈ aNonContr ∧ in_alphabet aP e
            ∧ EventsSet.test (SuperProxy.events_ V) e = true)
  ∧ ∃ fuel f' c' rm',
      (∀ k, (fuel ≤ k)%nat →
            synth_pop k aP V p_non_contr_bit non_contr_bit q (f, c, rm)
            = Some (f', c', rm'))
      ∧ (q ∈ rm' ↔ enabled ≠ required)
      ∧ (enabled ≠ required →
         f' = f
         ∧ (∀ p, p ∈ rm'
                 ↔ p ∈ rm ∨ Rule.propagates V non_contr_bit rm q p)
         ∧ (∀ p, c' !! p
                 = if decide (p ∈ rm' ∧ p ∉ rm) then None else c !! p))
      ∧ (enabled = required →
         rm' = rm ∧ c' = <[q := recorded V q]> c
         ∧ f' = pushed V c rm q ++ f
         ∧ (∀ q' e,
              (q', e) ∈ recorded V q
              ↔ EventsSet.test (SuperProxy.GetStateEvents V q) e = true
                ∧ q' = SuperProxy.Trans V q e)
         ∧ (∀ x,
              x ∈ pushed V c rm q
              ↔ (x ∉ rm) ∧ x ≠ q ∧ c !! x = None
                ∧ ∃ e, EventsSet.test (SuperProxy.GetStateEvents V q) e = true
                       ∧ x = SuperProxy.Trans V q e)).
Proof.
  intros p_nc nc required enabled Hq Hrm Hc.
  split; [|split; [done|split]].
  - intros e. unfold required, required_u, p_nc.
    rewrite test_land, andb_true_iff.
    rewrite (proj1 (test_non_contr_bits e)).
    change (SuperProxy.n_states_sys0_ V) with (DESystemBase.GetStatesNumber aP).
    split; [tauto|]. intros [H1 H2]. split; [|done]. split; [done|].
    apply (alphabet _ HP (q mod DESystemBase.GetStatesNumber aP)). by left.
  - intros e. apply (proj2 (test_non_contr_bits e)).
  - destruct (synth_pop_total p_nc nc q f c rm Hq)
      as (fuel & [[f' c'] rm'] & Hrun & _ & Hlive & Hkill).
    exists fuel, f', c', rm'. split; [done|].
    destruct (decide (enabled = required)) as [Heq|Hne].
    + injection (Hlive Hrm Hc Heq) as -> -> ->.
      split; [split; [done|congruence]|]. split; [congruence|].
      intros _. split; [done|]. split; [done|]. split; [done|].
      split; [apply elem_of_recorded|apply elem_of_pushed].
    + destruct (Hkill Hrm Hc Hne) as (c'' & rm'' & [= -> -> ->] & H1 & H2).
      split; [|split; [|congruence]].
      * split; [done|]. intros _. apply H1. right. constructor.
      * intros _. split; [done|]. split; [|done].
        intros p. rewrite H1. by rewrite propagates_kill_reach.
Qed.

(** C9.  The main loop terminates.  Each iteration on a stack of states of the
    product ends and leaves the union of the survivors and of the killed
    states at least as large as before; the killed set never shrinks; a
    state that leaves the survivors is in the killed set; the popped
    state is in one of the two afterwards; and popping a state that is
    already in one of the two changes nothing but the stack.  Hence the
    exploration from the initial state ends with an empty stack. *)
Theorem synthesis_terminates :
  let p_non_contr_bit := (non_contr_bits aP V aNonContr).1 in
  let non_contr_bit := (non_contr_bits aP V aNonContr).2 in
  (∀ (q : Z) (f : list Z) (c : TransMap) (rm : gset Z),
     (∀ x, x ∈ q :: f → is_state (SuperProxy.as_base V) x) →
     ∃ fuel f' c' rm',
       (∀ k, (fuel ≤ k)%nat →
             synth_pop k aP V p_non_contr_bit non_contr_bit q (f, c, rm)
             = Some (f', c', rm'))
       ∧ dom c ∪ rm ⊆ dom c' ∪ rm'
       ∧ rm ⊆ rm'
       ∧ dom c ∖ dom c' ⊆ rm'
       ∧ q ∈ dom c' ∪ rm'
       ∧ (q ∈ dom c ∪ rm → (f', c', rm') = (f, c, rm))
       ∧ (∀ x, x ∈ f' → is_state (SuperProxy.as_base V) x))
  ∧ ∃ fuel c rm,
      ∀ k, (fuel ≤ k)%nat → explore k aP aE aNonContr = Some ([], c, rm).
Proof.
  intros p_nc nc. split; [apply synth_pop_grows|].
  unfold explore. fold V. subst p_nc nc.
  destruct (non_contr_bits aP V aNonContr) as [p_nc nc].
  apply (synth_loop_total p_nc nc (size (all_states V ∖ (dom (∅ : TransMap) ∪ ∅))));
    [|done].
  intros x ->%list_elem_of_singleton.
  apply (init_is_state _ (product_contract aP aE aNonContr HP HE)).
Qed.

End Synthesis.

(** ** Materialisation *)

Section Materialisation.

Import Materialise.

Lemma foldl_map_state_cons (s : Z) (l : list Z) (m : gmap Z Z)
    (bt : list (Z * Z * bool)) (cst : Z) :
  foldl map_state (m, bt, cst) (s :: l)
  = foldl map_state (<[s := cst]> m, bt ++ [(cst, cst, true)], cst + 1) l.
Proof. reflexivity. Qed.

(** The renumbering does not depend on the bit triplets. *)
Lemma foldl_map_state_bits (l : list Z) (m : gmap Z Z)
    (bt : list (Z * Z * bool)) (cst : Z) :
  (foldl map_state (m, bt, cst) l).1.1
  = (foldl map_state (m, [], cst) l).1.1.
Proof.
  revert m bt cst. induction l as [|s l IH]; intros m bt cst; [done|].
  rewrite !foldl_map_state_cons.
  by rewrite (IH _ (bt ++ _)), (IH _ ([] ++ _)).
Qed.

Lemma foldl_map_state_is_Some (l : list Z) (m : gmap Z Z)
    (bt : list (Z * Z * bool)) (cst : Z) (k : Z) :
  is_Some ((foldl map_state (m, bt, cst) l).1.1 !! k)
  ↔ is_Some (m !! k) ∨ k ∈ l.
Proof.
  revert m bt cst. induction l as [|s l IH]; intros m bt cst.
  - simpl. rewrite elem_of_nil. tauto.
  - rewrite foldl_map_state_cons, IH, elem_of_cons, lookup_insert_is_Some.
    destruct (decide (s = k)) as [->|Hne]; [tauto|].
    split; [intros [[?|[_ ?]]|?]; tauto|].
    intros [?|[?|?]]; [tauto|congruence|tauto].
Qed.

Lemma foldl_map_state_keep (l : list Z) (m : gmap Z Z) (cst : Z) (k : Z) :
  k ∉ l → (foldl map_state (m, [], cst) l).1.1 !! k = m !! k.
Proof.
  revert m cst. induction l as [|s l IH]; intros m cst Hn; [done|].
  apply not_elem_of_cons in Hn as [Hne Hn].
  rewrite foldl_map_state_cons, foldl_map_state_bits, IH by done.
  by apply lookup_insert_ne.
Qed.

(** A state has an index iff it is one of the virtual states. *)
Lemma renumbering_is_Some (l : list Z) (k : Z) :
  is_Some (renumbering l !! k) ↔ k ∈ l.
Proof.
  unfold renumbering. rewrite foldl_map_state_is_Some, lookup_empty.
  split; [intros [[? ?]|?]; done|by right].
Qed.

(** The index of a state is its position, when no state occurs twice. *)
Lemma foldl_map_state_lookup (l : list Z) (m : gmap Z Z) (cst : Z)
    (i : nat) (k : Z) :
  NoDup l → l !! i = Some k →
  (foldl map_state (m, [], cst) l).1.1 !! k = Some (cst + Z.of_nat i).
Proof.
  revert m cst i. induction l as [|s l IH]; intros m cst i Hnd Hi; [done|].
  apply NoDup_cons in Hnd as [Hs Hnd].
  rewrite foldl_map_state_cons, foldl_map_state_bits.
  destruct i as [|i]; simpl in Hi.
  - injection Hi as ->. rewrite foldl_map_state_keep by done.
    rewrite lookup_insert_eq. f_equal. lia.
  - rewrite (IH _ _ i) by done. f_equal. lia.
Qed.

Lemma renumbering_lookup (l : list Z) (i : nat) (k : Z) :
  NoDup l → l !! i = Some k → renumbering l !! k = Some (Z.of_nat i).
Proof.
  intros Hnd Hi. unfold renumbering.
  by rewrite (foldl_map_state_lookup l ∅ 0 i k).
Qed.

(** The renumbering is dense and ascending: the rank of a survivor is its
    position in the ascending list of the survivors. *)
Lemma rank_position (c : gmap Z SuperProxy.InvArgTrans) (i : nat) (k : Z) :
  Sorted Z.le (sort_states (map_to_list c).*1)
  ∧ (sort_states (map_to_list c).*1 !! i = Some k →
     rank (map_to_list c).*1 k = Z.of_nat i).
Proof.
  split; [apply Sorted_merge_sort; apply _|].
  intros Hi. unfold rank, at_key.
  rewrite (renumbering_lookup _ i k); [done| |done].
  unfold sort_states. rewrite merge_sort_Permutation.
  apply NoDup_fst_map_to_list.
Qed.

Lemma foldl_emit_transition (sm : gmap Z Z) (q : Z) (l : list (Z * N))
    (tr : list (Z * Z * EventsSet.t)) (bt : list (Z * Z * bool)) :
  (foldl (emit_transition sm q) (tr, bt) l).1
  = tr ++ (render sm
             <$> filter (λ t, is_Some (sm !! t.1.2))
                   ((λ qto_e, (q, qto_e.1, qto_e.2)) <$> l)).
Proof.
  revert tr bt. induction l as [|[qto e] l IH]; intros tr bt.
  - simpl. by rewrite app_nil_r.
  - change (foldl (emit_transition sm q) (tr, bt) ((qto, e) :: l))
      with (foldl (emit_transition sm q)
              (emit_transition sm q (tr, bt) (qto, e)) l).
    unfold emit_transition at 2. simpl fst. simpl snd.
    rewrite fmap_cons, filter_cons. simpl.
    destruct (decide (is_Some (sm !! qto))); rewrite IH; [|done].
    by rewrite <- app_assoc.
Qed.

Lemma foldl_emit_state (sm : gmap Z Z) (tt : list (Z * SuperProxy.InvArgTrans))
    (tr : list (Z * Z * EventsSet.t)) (bt : list (Z * Z * bool)) :
  (foldl (emit_state sm) (tr, bt) tt).1
  = tr ++ (render sm
             <$> filter (λ t, is_Some (sm !! t.1.2))
                   (q_trans ← tt;
                    (λ qto_e, (q_trans.1, qto_e.1, qto_e.2)) <$> rev q_trans.2)).
Proof.
  revert tr bt. induction tt as [|[q l] tt IH]; intros tr bt.
  - simpl. by rewrite app_nil_r.
  - change (foldl (emit_state sm) (tr, bt) ((q, l) :: tt))
      with (foldl (emit_state sm) (emit_state sm (tr, bt) (q, l)) tt).
    destruct (emit_state sm (tr, bt) (q, l)) as [tr1 bt1] eqn:Hemit.
    rewrite IH. 
    assert (tr1 = (emit_state sm (tr, bt) (q, l)).1) as -> by by rewrite Hemit.
    unfold emit_state. simpl fst. simpl snd. rewrite foldl_emit_transition.
    rewrite bind_cons, filter_app, fmap_app, <- app_assoc. done.
Qed.

(** The graph after [SynchronizeStage2]: a recorded transition gives a
    triplet iff its target is one of the virtual states. *)
Lemma triplet_SynchronizeStage2 (V : SuperProxy.t) :
  SuperProxy.triplet_ (SynchronizeStage2 V)
  = SuperProxy.triplet_ V
    ++ (render (renumbering (SuperProxy.virtual_states_ V))
          <$> filter (λ t, t.1.2 ∈ SuperProxy.virtual_states_ V)
                (recorded_transitions (SuperProxy.transtriplet_ V))).
Proof.
  unfold SynchronizeStage2, renumbering.
  rewrite <- (foldl_map_state_bits _ _ (SuperProxy.bittriplet_ V)).
  assert (Hk : ∀ k,
    is_Some ((foldl map_state (∅, SuperProxy.bittriplet_ V, 0)
                (SuperProxy.virtual_states_ V)).1.1 !! k)
    ↔ k ∈ SuperProxy.virtual_states_ V).
  { intros k. rewrite foldl_map_state_is_Some, lookup_empty.
    split; [intros [[? ?]|?]; done|by right]. }
  destruct (foldl map_state (∅, SuperProxy.bittriplet_ V, 0)
              (SuperProxy.virtual_states_ V)) as [[sm bt] cst].
  simpl in Hk.
  pose proof (foldl_emit_state sm (rev (SuperProxy.transtriplet_ V))
                (SuperProxy.triplet_ V) bt) as Hem.
  destruct (foldl (emit_state sm) (SuperProxy.triplet_ V, bt)
              (rev (SuperProxy.transtriplet_ V))) as [tr bt'].
  simpl in Hem. simpl. rewrite Hem. f_equal. f_equal.
  apply list_filter_iff. intros t. apply Hk.
Qed.

Lemma states_number_SynchronizeStage2 (V : SuperProxy.t) :
  SuperProxy.states_number_ (SynchronizeStage2 V)
  = Z.of_nat (length (SuperProxy.virtual_states_ V))
  ∧ SuperProxy.init_state_ (SynchronizeStage2 V) = SuperProxy.init_state_ V.
Proof.
  unfold SynchronizeStage2.
  destruct (foldl map_state _ _) as [[sm bt] cst].
  destruct (foldl (emit_state sm) _ _) as [tr bt']. done.
Qed.

End Materialisation.

(** ** Fuel: a loop that ends with some fuel ends alike with more *)

Section Fuel.

Import Synth.

Variables (aP : DESystemBase.t) (V : SuperProxy.t).
Variables (p_nc nc : EventsSet.t).

Lemma kill_loop_mono (k k' : nat) (st : kill_state) (r : TransMap * gset Z) :
  kill_loop k V nc st = Some r → (k ≤ k')%nat → kill_loop k' V nc st = Some r.
Proof.
  revert k' st. induction k as [|k IH]; intros k' [[f c] rm] Hrun Hk; [done|].
  destruct k' as [|k']; [lia|]. simpl in *.
  destruct f as [|x f]; [done|]. apply IH; [done|lia].
Qed.

Lemma synth_pop_mono (k k' : nat) (q : Z) (st st' : synth_state) :
  synth_pop k aP V p_nc nc q st = Some st' → (k ≤ k')%nat →
  synth_pop k' aP V p_nc nc q st = Some st'.
Proof.
  destruct st as [[f c] rm]. unfold synth_pop, RemoveBadStates. intros Hrun Hk.
  destruct (decide (q ∈ rm)); [done|].
  destruct (decide (is_Some (c !! q))); [done|].
  destruct (negb _); [|done].
  destruct (kill_loop k V nc _) as [[c1 rm1]|] eqn:Hkill; [|done].
  by rewrite (kill_loop_mono k k' _ _ Hkill Hk).
Qed.

Lemma synth_loop_mono (k k' : nat) (st st' : synth_state) :
  synth_loop k aP V p_nc nc st = Some st' → (k ≤ k')%nat →
  synth_loop k' aP V p_nc nc st = Some st'.
Proof.
  revert k' st. induction k as [|k IH]; intros k' [[f c] rm] Hrun Hk; [done|].
  destruct k' as [|k']; [lia|].
  destruct f as [|q f]; [done|].
  change (synth_loop (S k) aP V p_nc nc (q :: f, c, rm))
    with (match synth_pop k aP V p_nc nc q (f, c, rm) with
          | Some st => synth_loop k aP V p_nc nc st
          | None => None
          end) in Hrun.
  change (synth_loop (S k') aP V p_nc nc (q :: f, c, rm))
    with (match synth_pop k' aP V p_nc nc q (f, c, rm) with
          | Some st => synth_loop k' aP V p_nc nc st
          | None => None
          end).
  destruct (synth_pop k aP V p_nc nc q (f, c, rm)) as [st1|] eqn:Hpop; [|done].
  rewrite (synth_pop_mono k k' q _ _ Hpop) by lia. apply IH; [done|lia].
Qed.

End Fuel.

Lemma explore_mono (k k' : nat) (aP aE : DESystemBase.t) (aNonContr : gset N)
    (st : Synth.synth_state) :
  Synth.explore k aP aE aNonContr = Some st → (k ≤ k')%nat →
  Synth.explore k' aP aE aNonContr = Some st.
Proof.
  unfold Synth.explore. destruct (Synth.non_contr_bits _ _ _) as [p_nc nc].
  apply synth_loop_mono.
Qed.

(** The result of the exploration does not depend on the fuel. *)
Lemma explore_deterministic (k k' : nat) (aP aE : DESystemBase.t)
    (aNonContr : gset N) (st st' : Synth.synth_state) :
  Synth.explore k aP aE aNonContr = Some st →
  Synth.explore k' aP aE aNonContr = Some st' →
  st = st'.
Proof.
  intros H H'.
  apply (explore_mono _ (Nat.max k k')) in H; [|lia].
  apply (explore_mono _ (Nat.max k k')) in H'; [|lia].
  congruence.
Qed.

(** ** The supervisor before trimming *)

Section Supervisor.

Import Synth Materialise.

Variables (aP aE : DESystemBase.t) (aNonContr : gset N).

Let V : SuperProxy.t := SuperProxy.SuperProxy aP aE aNonContr.

Lemma elem_of_sort_states (l : list Z) (k : Z) : k ∈ sort_states l ↔ k ∈ l.
Proof. unfold sort_states. by rewrite merge_sort_Permutation. Qed.

Lemma elem_of_keys (c : TransMap) (k : Z) : k ∈ (map_to_list c).*1 ↔ k ∈ dom c.
Proof.
  rewrite elem_of_dom, list_elem_of_fmap. split.
  - intros ([k' l] & -> & Hin). apply elem_of_map_to_list in Hin. eauto.
  - intros [l Hl]. exists (k, l). split; [done|]. by apply elem_of_map_to_list.
Qed.

Lemma elem_of_recorded_transitions (c : TransMap) (t : Z * Z * N) :
  t ∈ recorded_transitions (map_to_list c)
  ↔ ∃ l, c !! t.1.1 = Some l ∧ (t.1.2, t.2) ∈ l.
Proof.
  unfold recorded_transitions. rewrite list_elem_of_bind. split.
  - intros ([q l] & Ht & Hin). rewrite elem_of_rev, elem_of_map_to_list in Hin.
    apply list_elem_of_fmap in Ht as ([qto e] & -> & Hqe).
    rewrite elem_of_rev in Hqe. simpl in *. eauto.
  - destruct t as [[q qto] e]. simpl. intros (l & Hl & Hin).
    exists (q, l). split.
    + apply list_elem_of_fmap. exists (qto, e). split; [done|].
      by rewrite elem_of_rev.
    + by rewrite elem_of_rev, elem_of_map_to_list.
Qed.

(** The system handed to [Trim], from the survivors [c]. *)
Lemma materialised (c : TransMap) :
  let sys := to_DESystem (with_survivors V c) in
  DESystem.states_number_ sys = Z.of_nat (size c)
  ∧ DESystem.init_state_ sys = SuperProxy.init_state_ V
  ∧ DESystem.graph_ sys
    = render (renumbering (sort_states (map_to_list c).*1))
        <$> filter (λ t, t.1.2 ∈ dom c)
              (recorded_transitions (map_to_list c)).
Proof.
  unfold to_DESystem. simpl.
  split; [|split].
  - rewrite (proj1 (states_number_SynchronizeStage2 _)). simpl.
    unfold sort_states. rewrite merge_sort_Permutation, length_fmap.
    by rewrite length_map_to_list.
  - by rewrite (proj2 (states_number_SynchronizeStage2 _)).
  - rewrite triplet_SynchronizeStage2. simpl. f_equal.
    apply list_filter_iff. intros t.
    by rewrite elem_of_sort_states, elem_of_keys.
Qed.

Lemma test_label (e b : N) :
  EventsSet.test (label e) b = true ↔ b = (e mod 64)%N.
Proof.
  unfold label. rewrite test_single, N.eqb_eq. split; congruence.
Qed.

Lemma label_small (e : N) : (e < 64)%N → label e = N.shiftl 1 e.
Proof. intros He. unfold label. by rewrite N.mod_small. Qed.

Lemma test_coeff (s : DESystem.t) (from to : Z) (b : N) :
  EventsSet.test (DESystem.coeff s from to) b = true
  ↔ ∃ tr, tr ∈ DESystem.graph_ s ∧ tr.1.1 = from ∧ tr.1.2 = to
          ∧ EventsSet.test tr.2 b = true.
Proof.
  unfold DESystem.coeff. rewrite test_union_events. split.
  - intros (tr & [[H1 H2] Hin]%list_elem_of_filter & Hb). eauto.
  - intros (tr & Hin & H1 & H2 & Hb). exists tr. split; [|done].
    by apply list_elem_of_filter.
Qed.

Lemma coeff_materialised (c : TransMap) (from to : Z) (b : N) :
  EventsSet.test
    (DESystem.coeff (to_DESystem (with_survivors V c)) from to) b = true
  ↔ ∃ t, t ∈ recorded_transitions (map_to_list c)
         ∧ t.1.2 ∈ dom c
         ∧ from = rank (map_to_list c).*1 t.1.1
         ∧ to = rank (map_to_list c).*1 t.1.2
         ∧ b = (t.2 mod 64)%N.
Proof.
  rewrite test_coeff.
  pose proof (materialised c) as (_ & _ & Hg). rewrite Hg. split.
  - intros (tr & (t & -> & [Hto Ht]%list_elem_of_filter)%list_elem_of_fmap
              & H1 & H2 & Hb).
    exists t. unfold render in *. simpl in *. apply test_label in Hb.
    unfold rank. done.
  - intros (t & Ht & Hto & -> & -> & ->).
    exists (render (renumbering (sort_states (map_to_list c).*1)) t).
    split; [|split; [done|split; [done|by apply test_label]]].
    apply list_elem_of_fmap. exists t. split; [done|].
    by apply list_elem_of_filter.
Qed.

(** C4.  Dangling edges are filtered at materialisation.  While the events of a
    surviving [q] are visited, [(q', e)] enters the buffer of [q] for
    every event [e] of [q], whether [q'] is killed or not; the graph of
    the materialised system holds an event at a pair of indices iff the
    pair is [(rank q, rank q')] for a recorded transition [(q, q', e)]
    whose target [q'] is a surviving state, and the event is [e mod 64].
    The events set emitted for [e] is [1ul << e]: the set of [e] alone for
    [e < 64]. *)
Theorem dangling_edges_filtered :
  (∀ (k : nat) (p_nc nc : EventsSet.t) (q : Z) (f : list Z) (c : TransMap)
     (rm : gset Z),
     q ∉ rm → c !! q = None →
     enabled_u aP V p_nc q = required_u aP V p_nc q →
     synth_pop k aP V p_nc nc q (f, c, rm)
     = Some (pushed V c rm q ++ f, <[q := recorded V q]> c, rm)
     ∧ ∀ e, EventsSet.test (SuperProxy.GetStateEvents V q) e = true →
            (SuperProxy.Trans V q e, e) ∈ recorded V q)
  ∧ (∀ c : TransMap,
       (∀ t, t ∈ recorded_transitions (map_to_list c)
             ↔ ∃ l, c !! t.1.1 = Some l ∧ (t.1.2, t.2) ∈ l)
       ∧ ∀ from to b,
           EventsSet.test
             (DESystem.coeff (to_DESystem (with_survivors V c)) from to) b
           = true
           ↔ ∃ t, t ∈ recorded_transitions (map_to_list c)
                  ∧ t.1.2 ∈ dom c
                  ∧ from = rank (map_to_list c).*1 t.1.1
                  ∧ to = rank (map_to_list c).*1 t.1.2
                  ∧ b = (t.2 mod 64)%N)
  ∧ ∀ e, label e = N.shiftl 1 (e mod 64)
         ∧ ((e < 64)%N → label e = N.shiftl 1 e).
Proof.
  split; [|split].
  - intros k p_nc nc q f c rm Hrm Hc Heq. split.
    + unfold synth_pop. rewrite decide_False by done.
      rewrite decide_False by (rewrite Hc; by intros []).
      fold (enabled_u aP V p_nc q). rewrite Heq, N.eqb_refl. simpl negb.
      cbv iota. by rewrite (for_each_synth_event aP aE aNonContr).
    + intros e He. unfold recorded. apply list_elem_of_fmap.
      exists e. split; [done|]. by apply elem_of_to_list.
  - intros c. split.
    + apply elem_of_recorded_transitions.
    + apply coeff_materialised.
  - intros e. split; [done|apply label_small].
Qed.

End Supervisor.

(** ** The scenarios *)

Section Scenarios.

Import Scenario Synth Materialise.

Ltac valid_automaton :=
  split; [unfold DESystem.in_range; simpl; lia
         |repeat constructor; unfold DESystem.in_range; simpl; lia].

Lemma plant_S1_contract : Contract.t (DESystem.as_base plant_S1).
Proof. apply concrete_contract. valid_automaton. Qed.

Lemma spec_S2_contract : Contract.t (DESystem.as_base spec_S2).
Proof. apply concrete_contract. valid_automaton. Qed.

Lemma plant_S3_contract (marked : gset Z) :
  Contract.t (DESystem.as_base (plant_S3 marked)).
Proof. apply concrete_contract. valid_automaton. Qed.

Lemma spec_S3_contract (marked : gset Z) :
  Contract.t (DESystem.as_base (spec_S3 marked)).
Proof. apply concrete_contract. valid_automaton. Qed.

(** The materialised system keeps the virtual initial state and has one
    state per survivor, whatever the operands. *)
Lemma materialised_init (aP aE : DESystemBase.t) (aNonContr : gset N)
    (c : TransMap) :
  let V := SuperProxy.SuperProxy aP aE aNonContr in
  let sys := to_DESystem (with_survivors V c) in
  DESystem.states_number_ sys = Z.of_nat (size c)
  ∧ DESystem.init_state_ sys
    = DESystemBase.GetInitialState aE * DESystemBase.GetStatesNumber aP
      + DESystemBase.GetInitialState aP.
Proof.
  destruct (materialised aP aE aNonContr c) as (H1 & H2 & _). by split.
Qed.

(** C2.  On the plant of two states whose initial state is 1 and the
    specification of one state, synthesis keeps the virtual state 1 alone:
    the materialised system has one state, the renumbering gives index 0
    to the virtual initial state, and the initial state of the
    materialised system is 1, which is not one of its states. *)
Theorem init_state_not_renumbered :
  let aP := DESystem.as_base plant_init1 in
  let aE := DESystem.as_base (spec_S3 {[ 0 ]}) in
  let V := SuperProxy.SuperProxy aP aE non_contr in
  ∃ c sys,
    explore 2 aP aE non_contr = Some ([], c, ∅)
    ∧ dom c = {[ SuperProxy.init_state_ V ]}
    ∧ SupervisorSynth_sys 2 aP aE non_contr = Some sys
    ∧ DESystem.states_number_ sys = Z.of_nat (size c)
    ∧ DESystem.states_number_ sys = 1
    ∧ rank (map_to_list c).*1 (SuperProxy.init_state_ V) = 0
    ∧ DESystem.init_state_ sys = 1.
Proof.
  eexists _, _. split; [vm_compute; reflexivity|].
  split; [vm_compute; reflexivity|].
  split; [vm_compute; reflexivity|].
  repeat split; vm_compute; reflexivity.
Qed.

(** C5, as the specification states it: it does not hold.  On the automata
    of S3 no run of the synthesis kills the initial state and none gives a
    system without states. *)
Lemma S3_init_not_killed :
  let aP := DESystem.as_base (plant_S3 {[ 0 ]}) in
  let aE := DESystem.as_base (spec_S3 {[ 0 ]}) in
  let V := SuperProxy.SuperProxy aP aE non_contr in
  ¬ ∃ k f c rm sys,
      explore k aP aE non_contr = Some (f, c, rm)
      ∧ SupervisorSynth_sys k aP aE non_contr = Some sys
      ∧ (SuperProxy.init_state_ V ∈ rm ∨ DESystem.states_number_ sys = 0).
Proof.
  intros aP aE V (k & f & c & rm & sys & Hrun & Hsys & Hbad).
  assert (H2 : explore 2 aP aE non_contr = Some ([], {[ 0 := [(0, b0)] ]}, ∅))
    by (vm_compute; reflexivity).
  pose proof (explore_deterministic _ _ _ _ _ _ _ Hrun H2) as [= -> -> ->].
  unfold SupervisorSynth_sys in Hsys. rewrite Hrun in Hsys.
  injection Hsys as <-. destruct Hbad as [Hin|Hn].
  - by apply not_elem_of_empty in Hin.
  - vm_compute in Hn. discriminate.
Qed.

(** C5.  Scenario S3, whatever the marked states: [b0] is an event of the
    product (its alphabet is the union of the alphabets) and the product
    enables it at the initial state, so [required_u = enabled_u = {b0}]:
    the initial state is not killed.  The exploration ends with the
    initial state as the only survivor, its self-loop on [b0] recorded and
    nothing killed; the system handed to [Trim] has one state, which is
    initial, and the self-loop on [b0]. *)
Theorem S3_init_survives (marked_P marked_E : gset Z) (k : nat) :
  let aP := DESystem.as_base (plant_S3 marked_P) in
  let aE := DESystem.as_base (spec_S3 marked_E) in
  let V := SuperProxy.SuperProxy aP aE non_contr in
  let p_non_contr_bit := (non_contr_bits aP V non_contr).1 in
  (2 ≤ k)%nat →
  EventsSet.test (SuperProxy.events_ V) b0 = true
  ∧ required_u aP V p_non_contr_bit (SuperProxy.init_state_ V)
    = N.shiftl 1 b0
  ∧ enabled_u aP V p_non_contr_bit (SuperProxy.init_state_ V)
    = N.shiftl 1 b0
  ∧ explore k aP aE non_contr = Some ([], {[ 0 := [(0, b0)] ]}, ∅)
  ∧ ∃ sys,
      SupervisorSynth_sys k aP aE non_contr = Some sys
      ∧ DESystem.states_number_ sys = 1
      ∧ DESystem.init_state_ sys = 0
      ∧ DESystem.graph_ sys = [(0, 0, N.shiftl 1 b0)].
Proof.
  intros aP aE V p_nc Hk.
  assert (Hrun : explore k aP aE non_contr = Some ([], {[ 0 := [(0, b0)] ]}, ∅)).
  { apply (explore_mono 2); [|done]. vm_compute. reflexivity. }
  split; [vm_compute; reflexivity|].
  split; [vm_compute; reflexivity|].
  split; [vm_compute; reflexivity|].
  split; [done|].
  unfold SupervisorSynth_sys. rewrite Hrun. eexists. split; [reflexivity|].
  repeat split; vm_compute; reflexivity.
Qed.

Lemma S3_init_survives_witness :
  (2 ≤ 2)%nat
  ∧ explore 2 (DESystem.as_base (plant_S3 {[ 0 ]}))
      (DESystem.as_base (spec_S3 {[ 0 ]})) non_contr
    = Some ([], {[ 0 := [(0, b0)] ]}, ∅).
Proof.
  split; [lia|].
  apply (S3_init_survives {[ 0 ]} {[ 0 ]} 2). lia.
Defined.

End Scenarios.

(** ** The reduction tree *)

Section ReductionTree.

Import BinExprTree.

Lemma list_pair_ind {A} (P : list A → Prop) :
  P [] → (∀ a, P [a]) → (∀ a b l, P l → P (a :: b :: l)) → ∀ l, P l.
Proof.
  intros H0 H1 H2 l. cut (P l ∧ ∀ a, P (a :: l)); [tauto|].
  induction l as [|b l [IH1 IH2]]; split; eauto.
Qed.

Lemma odd_size (n : nat) : Z.of_nat n mod 2 ≠ 0 ↔ ¬ Nat.Even n.
Proof.
  destruct (Nat.Even_or_Odd n) as [[m ->]|[m ->]].
  - rewrite Nat2Z.inj_mul, Z.mul_comm, Z.mod_mul by lia.
    split; [done|]. intros H. destruct H. by exists m.
  - rewrite Nat2Z.inj_add, Nat2Z.inj_mul, Z.add_comm, Z.mul_comm,
      Z.mod_add by lia.
    split; [|done]. intros _ [m' Hm']. lia.
Qed.

Lemma pair_up_spec (back sys nodes_ref : list node) :
  pair_up back sys nodes_ref
  = (sys ++ ((λ ab, Sync ab.1 ab.2) <$> adjacent_pairs back),
     nodes_ref ++ ((λ ab, Sync ab.1 ab.2) <$> adjacent_pairs back)).
Proof.
  revert sys nodes_ref.
  induction back as [|a|a b back IH] using list_pair_ind;
    intros sys nodes_ref.
  - simpl. by rewrite !app_nil_r.
  - simpl. by rewrite !app_nil_r.
  - simpl. rewrite IH, <- !app_assoc. done.
Qed.

Lemma adjacent_pairs_app (l1 l2 : list node) :
  Nat.Even (length l1) →
  adjacent_pairs (l1 ++ l2) = adjacent_pairs l1 ++ adjacent_pairs l2.
Proof.
  induction l1 as [|a|a b l1 IH] using list_pair_ind; intros Hev.
  - done.
  - destruct Hev as [m Hm]. simpl in Hm. lia.
  - simpl. rewrite IH; [done|].
    destruct Hev as [m Hm]. simpl in Hm. exists (m - 1)%nat. lia.
Qed.

Lemma adjacent_pairs_rev (l : list node) :
  Nat.Even (length l) →
  (λ ab, Sync ab.1 ab.2) <$> adjacent_pairs (rev l) = paired l.
Proof.
  unfold paired.
  induction l as [|a|a b l IH] using list_pair_ind; intros Hev.
  - done.
  - destruct Hev as [m Hm]. simpl in Hm. lia.
  - assert (Hev' : Nat.Even (length l)).
    { destruct Hev as [m Hm]. simpl in Hm. exists (m - 1)%nat. lia. }
    change (rev (a :: b :: l)) with ((rev l ++ [b]) ++ [a]).
    rewrite <- app_assoc, adjacent_pairs_app by by rewrite length_rev.
    rewrite fmap_app, IH by done. simpl. done.
Qed.

Lemma level_even (sys nodes_ref : list node) :
  Nat.Even (length sys) →
  level sys nodes_ref = (paired sys, nodes_ref ++ paired sys).
Proof.
  intros Hev. unfold level.
  rewrite decide_False by (rewrite odd_size; tauto).
  by rewrite pair_up_spec, adjacent_pairs_rev.
Qed.

Lemma level_odd (sys : list node) (n : node) (nodes_ref : list node) :
  Nat.Even (length sys) →
  level (sys ++ [n]) nodes_ref = (n :: paired sys, nodes_ref ++ paired sys).
Proof.
  intros Hev. unfold level.
  rewrite decide_True; last first.
  { rewrite odd_size, length_app. simpl. destruct Hev as [m ->].
    intros [m' Hm']. lia. }
  rewrite rev_app_distr. simpl.
  by rewrite pair_up_spec, adjacent_pairs_rev.
Qed.

(** A list is a list of even length, possibly followed by one entry. *)
Lemma even_or_last (l : list node) :
  Nat.Even (length l)
  ∨ ∃ l' n, l = l' ++ [n] ∧ Nat.Even (length l').
Proof.
  induction l as [|a|a b l IH] using list_pair_ind.
  - left. by exists 0%nat.
  - right. exists [], a. split; [done|]. by exists 0%nat.
  - destruct IH as [[m Hm]|(l' & n & -> & [m Hm])].
    + left. exists (S m). simpl. lia.
    + right. exists (a :: b :: l'), n. split; [done|].
      exists (S m). simpl. lia.
Qed.

Lemma length_paired (l : list node) :
  (length (paired l) = length l / 2)%nat.
Proof.
  unfold paired. rewrite length_rev, length_fmap.
  induction l as [|a|a b l IH] using list_pair_ind; [done|done|].
  simpl length. rewrite IH.
  change (S (S (length l))) with (2 + length l)%nat.
  replace (2 + length l)%nat with (length l + 1 * 2)%nat by lia.
  rewrite Nat.div_add by lia. lia.
Qed.

Lemma all_leaves_paired (l : list node) :
  Nat.Even (length l) → all_leaves (paired l) ≡ₚ all_leaves l.
Proof.
  unfold paired, all_leaves.
  induction l as [|a|a b l IH] using list_pair_ind; intros Hev.
  - done.
  - destruct Hev as [m Hm]. simpl in Hm. lia.
  - assert (Hev' : Nat.Even (length l)).
    { destruct Hev as [m Hm]. simpl in Hm. exists (m - 1)%nat. lia. }
    simpl. rewrite bind_app, IH by done. simpl.
    rewrite app_nil_r, (Permutation_app_comm (leaves b) (leaves a)).
    rewrite Permutation_app_comm, <- app_assoc. done.
Qed.

Lemma reduce_mono (k k' : nat) (sys nodes_ref : list node)
    (r : node * list node) :
  reduce k sys nodes_ref = Some r → (k ≤ k')%nat →
  reduce k' sys nodes_ref = Some r.
Proof.
  revert k' sys nodes_ref. induction k as [|k IH];
    intros k' sys nodes_ref Hrun Hk; [done|].
  destruct k' as [|k']; [lia|]. simpl in *.
  destruct sys as [|root [|n sys]]; try done;
    destruct (level _ nodes_ref) as [sys' nodes']; (apply IH; [done|lia]).
Qed.

(** The loop ends on a non-empty level and its root spans the level. *)
Lemma reduce_total (n : nat) :
  ∀ sys nodes_ref,
    sys ≠ [] → (length sys ≤ n)%nat →
    ∃ root nodes,
      (∀ k, (length sys ≤ k)%nat → reduce k sys nodes_ref = Some (root, nodes))
      ∧ leaves root ≡ₚ all_leaves sys.
Proof.
  induction n as [n IHn] using lt_wf_ind. intros sys nodes_ref Hne Hlen.
  destruct sys as [|root [|b sys]]; [done| |].
  - exists root, nodes_ref. split.
    + intros [|k] Hk; [simpl in Hk; lia|done].
    + unfold all_leaves. simpl. by rewrite app_nil_r.
  - set (l := root :: b :: sys) in *.
    assert (Hnext : ∃ sys' nodes',
      level l nodes_ref = (sys', nodes') ∧ sys' ≠ []
      ∧ (length sys' < length l)%nat ∧ all_leaves sys' ≡ₚ all_leaves l).
    { destruct (even_or_last l) as [Hev|(l' & x & Hl & Hev)].
      - rewrite level_even by done. eexists _, _. split; [done|].
        pose proof (length_paired l) as Hp.
        assert (2 ≤ length l)%nat by (unfold l; simpl; lia).
        assert (1 ≤ length l / 2)%nat by (apply Nat.div_le_lower_bound; lia).
        assert (length l / 2 < length l)%nat by (apply Nat.div_lt; lia).
        split; [intros Heq; rewrite Heq in Hp;
                change (length (@nil node)) with 0%nat in Hp; lia|].
        split; [lia|]. by apply all_leaves_paired.
      - assert (2 ≤ length l)%nat by (unfold l; simpl; lia).
        assert (Hll : length l = (length l' + 1)%nat)
          by (rewrite Hl, length_app; simpl; lia).
        rewrite Hll. clearbody l. subst l.
        rewrite level_odd by done. eexists _, _. split; [done|].
        split; [done|]. split.
        + simpl length. rewrite length_paired.
          assert (length l' / 2 < length l')%nat; [|lia].
          apply Nat.div_lt; lia.
        + unfold all_leaves. rewrite bind_app, bind_cons. simpl.
          rewrite app_nil_r.
          fold (all_leaves (paired l')). fold (all_leaves l').
          rewrite all_leaves_paired by done. apply Permutation_app_comm. }
    destruct Hnext as (sys' & nodes' & Hlevel & Hne' & Hlt & Hperm).
    destruct (IHn (length sys') ltac:(lia) sys' nodes' Hne' ltac:(lia))
      as (r & nodes & Hrun & Hleaves).
    exists r, nodes. split; [|by rewrite Hleaves].
    intros [|k] Hk; [simpl in Hk; lia|].
    change (reduce (S k) l nodes_ref)
      with (let '(sys, nodes_ref) := level l nodes_ref in
            reduce k sys nodes_ref).
    rewrite Hlevel. apply Hrun. lia.
Qed.

Lemma paired_snoc (l : list node) (n : node) :
  Nat.Even (length l) → paired (l ++ [n]) = paired l.
Proof.
  intros Hev. unfold paired. rewrite adjacent_pairs_app by done.
  simpl. by rewrite app_nil_r.
Qed.

Lemma round_even (l : list node) :
  Nat.Even (length l) → TreeSpec.round l = paired l.
Proof.
  intros Hev. unfold TreeSpec.round.
  by rewrite (proj2 (Nat.even_spec _) Hev).
Qed.

Lemma round_odd (l : list node) (n : node) :
  Nat.Even (length l) → TreeSpec.round (l ++ [n]) = n :: paired l.
Proof.
  intros Hev. unfold TreeSpec.round.
  assert (Nat.even (length (l ++ [n])) = false) as ->.
  { rewrite length_app. simpl.
    rewrite Nat.add_1_r, Nat.even_succ, <- Nat.negb_even.
    by rewrite (proj2 (Nat.even_spec _) Hev). }
  by rewrite last_snoc, paired_snoc.
Qed.

(** One iteration of the loop of the code is one round of the
    specification. *)
Lemma level_round (sys nodes_ref : list node) :
  level sys nodes_ref = (TreeSpec.round sys, nodes_ref ++ paired sys).
Proof.
  destruct (even_or_last sys) as [Hev|(l & n & -> & Hev)].
  - by rewrite level_even, round_even.
  - by rewrite level_odd, round_odd, paired_snoc.
Qed.

Lemma round_shrinks (l : list node) :
  (2 ≤ length l)%nat →
  TreeSpec.round l ≠ [] ∧ (length (TreeSpec.round l) < length l)%nat.
Proof.
  intros Hl. destruct (even_or_last l) as [Hev|(l' & n & -> & Hev)].
  - rewrite round_even by done.
    assert (length (paired l) = length l / 2)%nat as Hp by apply length_paired.
    destruct Hev as [m Hm]. rewrite Hm in Hp, Hl.
    rewrite (Nat.mul_comm 2 m), Nat.div_mul in Hp by lia.
    split; [intros E; rewrite E in Hp; simpl in Hp; lia|lia].
  - rewrite round_odd by done. split; [done|].
    assert (length (paired l') = length l' / 2)%nat as Hp by apply length_paired.
    destruct Hev as [m Hm]. rewrite Hm in Hp.
    rewrite (Nat.mul_comm 2 m), Nat.div_mul in Hp by lia.
    rewrite length_app in *. simpl in *. lia.
Qed.

Lemma rounds_single (n : nat) (x : node) : TreeSpec.rounds n [x] = [x].
Proof. induction n as [|n IH]; [done|]. exact IH. Qed.

Lemma created_single (n : nat) (x : node) : TreeSpec.created n [x] = [].
Proof. induction n as [|n IH]; [done|]. exact IH. Qed.

(** The loop of the code computes the rounds of the specification. *)
Lemma reduce_rounds (n : nat) (sys nodes_ref : list node) :
  sys ≠ [] → (length sys ≤ n)%nat →
  ∃ root,
    TreeSpec.rounds n sys = [root]
    ∧ ∀ k, (length sys ≤ k)%nat →
           reduce k sys nodes_ref
           = Some (root, nodes_ref ++ TreeSpec.created n sys).
Proof.
  revert sys nodes_ref. induction n as [|n IH]; intros sys nodes_ref Hne Hlen.
  { destruct sys; [done|simpl in Hlen; lia]. }
  destruct sys as [|root [|b sys]]; [done| |].
  - exists root. split; [apply rounds_single|].
    intros [|k] Hk; [simpl in Hk; lia|].
    rewrite created_single, app_nil_r. done.
  - set (l := root :: b :: sys) in *.
    destruct (round_shrinks l) as [Hne' Hlt]; [unfold l; simpl; lia|].
    destruct (IH (TreeSpec.round l) (nodes_ref ++ paired l) Hne')
      as (r & Hr & Hrun); [lia|].
    exists r. split; [exact Hr|].
    intros [|k] Hk; [unfold l in Hk; simpl in Hk; lia|].
    change (reduce (S k) l nodes_ref)
      with (let '(sys, nodes_ref) := level l nodes_ref in
            reduce k sys nodes_ref).
    rewrite level_round, Hrun by lia.
    change (TreeSpec.created (S n) l)
      with (paired l ++ TreeSpec.created n (TreeSpec.round l)).
    by rewrite app_assoc.
Qed.

(** C8.  The reduction tree.  One iteration of the loop pairs the adjacent
    entries of a level of even size, the later entry of a pair as the left
    operand and the last pair first, and carries the last entry of a level
    of odd size through, unpaired, to the front of the next level.  For a
    non-empty list the loop ends; its root is the one node left by the
    rounds of the specification, run on the list of the leaves, and the
    nodes it keeps are the leaves followed by the products that these
    rounds create, in their order; the leaves of the root are the input
    systems; the result is the same whatever the fuel. *)
Theorem reduction_tree (aSystems : list DESystem.t) :
  aSystems ≠ [] →
  (∀ sys nodes_ref,
     Nat.Even (length sys) →
     level sys nodes_ref = (paired sys, nodes_ref ++ paired sys))
  ∧ (∀ sys n nodes_ref,
       Nat.Even (length sys) →
       level (sys ++ [n]) nodes_ref
       = (n :: paired sys, nodes_ref ++ paired sys))
  ∧ ∃ root nodes_ref,
      (∀ k, (length aSystems ≤ k)%nat →
            GenBinExprTree k aSystems = Some (root, nodes_ref))
      ∧ leaves root ≡ₚ aSystems
      ∧ (∀ k r, GenBinExprTree k aSystems = Some r → r = (root, nodes_ref))
      ∧ TreeSpec.rounds (length aSystems) (Leaf <$> aSystems) = [root]
      ∧ nodes_ref
        = (Leaf <$> aSystems)
          ++ TreeSpec.created (length aSystems) (Leaf <$> aSystems).
Proof.
  intros Hne. split; [apply level_even|]. split; [apply level_odd|].
  destruct (reduce_rounds (length aSystems) (Leaf <$> aSystems)
              (Leaf <$> aSystems)) as (root & Hroot & Hrun);
    [by destruct aSystems|by rewrite length_fmap|].
  rewrite length_fmap in Hrun.
  destruct (reduce_total (length (Leaf <$> aSystems)) (Leaf <$> aSystems)
              (Leaf <$> aSystems)) as (root' & nodes' & Hrun' & Hleaves);
    [by destruct aSystems|done|].
  rewrite length_fmap in Hrun'.
  assert (root' = root) as ->.
  { pose proof (Hrun (length aSystems) ltac:(lia)) as H1.
    pose proof (Hrun' (length aSystems) ltac:(lia)) as H2. congruence. }
  exists root, ((Leaf <$> aSystems)
                ++ TreeSpec.created (length aSystems) (Leaf <$> aSystems)).
  split; [exact Hrun|]. split; [|split; [|split; [exact Hroot|done]]].
  - rewrite Hleaves. unfold all_leaves. clear.
    induction aSystems as [|s l IH]; [done|]. simpl. by rewrite IH.
  - intros k r Hr. unfold GenBinExprTree in Hr.
    apply (reduce_mono _ (Nat.max k (length aSystems))) in Hr; [|lia].
    unfold GenBinExprTree in Hrun.
    rewrite (Hrun (Nat.max k (length aSystems))) in Hr by lia. congruence.
Qed.

End ReductionTree.

Lemma GenBinExprTree_empty (k : nat) : BinExprTree.GenBinExprTree k [] = None.
Proof. induction k as [|k IH]; [done|]. exact IH. Qed.

(** ** The two constructors of the proxy *)

Section Constructors.

Import DESystemBase.

Lemma elem_of_marked_states (aSys0 aSys1 : DESystemBase.t)
    (aNonContr : gset N) (q : Z) :
  q ∈ SuperProxy.marked_states_ (SuperProxy.SuperProxy aSys0 aSys1 aNonContr)
  ↔ ∃ q0 q1, q0 ∈ GetMarkedStates aSys0 ∧ q1 ∈ GetMarkedStates aSys1
             ∧ q = q1 * GetStatesNumber aSys0 + q0.
Proof.
  simpl. rewrite elem_of_list_to_set, list_elem_of_bind. split.
  - intros (q0 & Hq & H0). apply list_elem_of_bind in Hq as (q1 & Hq & H1).
    apply list_elem_of_singleton in Hq. apply elem_of_elements in H0, H1.
    eauto.
  - intros (q0 & q1 & H0 & H1 & ->). exists q0.
    split; [|by apply elem_of_elements].
    apply list_elem_of_bind. exists q1.
    split; [by apply list_elem_of_singleton|by apply elem_of_elements].
Qed.

(** C10.  The constructor from two vectors has an empty body: whatever the
    plants, the specifications and the uncontrollable events, the object
    holds its default members, so two calls give the same object and some
    pair of systems has a composition that it does not represent.  The
    constructor from two operands is the one that sets the number of
    states, the initial state, the alphabets and the marked states. *)
Theorem vectors_constructor_is_empty (default_members : SuperProxy.t) :
  (∀ aPlants aSpecs aNonContr,
     SuperProxy.SuperProxy_from_vectors default_members aPlants aSpecs
       aNonContr = default_members)
  ∧ (∀ aPlants aSpecs aNonContr aPlants' aSpecs' aNonContr',
       SuperProxy.SuperProxy_from_vectors default_members aPlants aSpecs
         aNonContr
       = SuperProxy.SuperProxy_from_vectors default_members aPlants' aSpecs'
           aNonContr')
  ∧ (∃ aP aE, ∀ aNonContr,
       SuperProxy.states_number_
         (SuperProxy.SuperProxy_from_vectors default_members [aP] [aE]
            aNonContr)
       ≠ SuperProxy.states_number_ (SuperProxy.SuperProxy aP aE aNonContr))
  ∧ (∀ aSys0 aSys1 aNonContr,
       let V := SuperProxy.SuperProxy aSys0 aSys1 aNonContr in
       SuperProxy.states_number_ V
       = GetStatesNumber aSys0 * GetStatesNumber aSys1
       ∧ SuperProxy.init_state_ V
         = GetInitialState aSys1 * GetStatesNumber aSys0
           + GetInitialState aSys0
       ∧ SuperProxy.events_ V = N.lor (GetEvents aSys0) (GetEvents aSys1)
       ∧ SuperProxy.only_in_0_ V = N.ldiff (GetEvents aSys0) (GetEvents aSys1)
       ∧ SuperProxy.only_in_1_ V = N.ldiff (GetEvents aSys1) (GetEvents aSys0)
       ∧ ∀ q, q ∈ SuperProxy.marked_states_ V
              ↔ ∃ q0 q1, q0 ∈ GetMarkedStates aSys0
                         ∧ q1 ∈ GetMarkedStates aSys1
                         ∧ q = q1 * GetStatesNumber aSys0 + q0).
Proof.
  split; [done|]. split; [done|]. split.
  - destruct (decide (SuperProxy.states_number_ default_members = 1)) as [H1|H1].
    + exists (DESystem.as_base Scenario.plant_init1),
        (DESystem.as_base (Scenario.spec_S3 ∅)).
      intros aNonContr. unfold SuperProxy.SuperProxy_from_vectors.
      rewrite H1. simpl. lia.
    + exists (DESystem.as_base (Scenario.plant_S3 ∅)),
        (DESystem.as_base (Scenario.spec_S3 ∅)).
      intros aNonContr. unfold SuperProxy.SuperProxy_from_vectors. simpl.
      exact H1.
  - intros aSys0 aSys1 aNonContr V.
    split; [done|]. split; [done|]. split; [done|].
    split; [apply only_in_0_ldiff|]. split; [apply only_in_1_ldiff|].
    apply elem_of_marked_states.
Qed.

End Constructors.

(** ** The theorems on the automata of scenario S2 *)

Section OnScenarioS2.

Import Scenario Synth Materialise BinExprTree.

Let P : DESystemBase.t := DESystem.as_base plant_S1.
Let E : DESystem.t := spec_S2.
Let V : SuperProxy.t := SuperProxy.SuperProxy P (DESystem.as_base E) non_contr.

(** State 5 is the pair (1, 1): the plant enables [b0], the
    specification does not.  State 7, the pair (3, 1), steps to it on the
    uncontrollable [b1]: the kill reaches it. *)
Lemma bad_state_rule_witness :
  Contract.t P ∧ Contract.t (DESystem.as_base E)
  ∧ Contract.is_state (SuperProxy.as_base V) 5
  ∧ (5 ∉ (∅ : gset Z)) ∧ (∅ : TransMap) !! 5 = None
  ∧ enabled_u P V (non_contr_bits P V non_contr).1 5
    ≠ required_u P V (non_contr_bits P V non_contr).1 5
  ∧ Rule.back_step V (non_contr_bits P V non_contr).2 5 7
  ∧ ∃ fuel f' c' rm',
      (∀ k, (fuel ≤ k)%nat →
            synth_pop k P V (non_contr_bits P V non_contr).1
              (non_contr_bits P V non_contr).2 5 ([], ∅, ∅)
            = Some (f', c', rm'))
      ∧ 5 ∈ rm' ∧ 7 ∈ rm'.
Proof.
  assert (Hbad : enabled_u P V (non_contr_bits P V non_contr).1 5
                 ≠ required_u P V (non_contr_bits P V non_contr).1 5)
    by (vm_compute; discriminate).
  assert (Hback : Rule.back_step V (non_contr_bits P V non_contr).2 5 7).
  { exists b1. split; [reflexivity|]. split; [reflexivity|]. vm_compute. left. }
  split; [apply plant_S1_contract|]. split; [apply spec_S2_contract|].
  split; [unfold Contract.is_state; simpl; lia|].
  split; [apply not_elem_of_empty|]. split; [apply lookup_empty|].
  split; [exact Hbad|]. split; [exact Hback|].
  destruct (bad_state_rule P (DESystem.as_base E) non_contr
              plant_S1_contract spec_S2_contract 5 [] ∅ ∅)
    as (_ & _ & _ & fuel & f' & c' & rm' & Hrun & Hiff & Hkill & _).
  - unfold Contract.is_state; simpl; lia.
  - apply not_elem_of_empty.
  - apply lookup_empty.
  - exists fuel, f', c', rm'. split; [exact Hrun|].
    split; [exact (proj2 Hiff Hbad)|].
    apply (proj1 (proj2 (Hkill Hbad)) 7). right.
    apply (Rule.propagates_back _ _ _ _ 5 7);
      [apply Rule.propagates_start|exact Hback|apply not_elem_of_empty].
Defined.

Lemma synthesis_terminates_witness :
  Contract.t P ∧ Contract.t (DESystem.as_base E)
  ∧ ∃ fuel c rm,
      ∀ k, (fuel ≤ k)%nat →
           explore k P (DESystem.as_base E) non_contr = Some ([], c, rm).
Proof.
  split; [apply plant_S1_contract|]. split; [apply spec_S2_contract|].
  exact (proj2 (synthesis_terminates P (DESystem.as_base E) non_contr
                  plant_S1_contract spec_S2_contract)).
Defined.

(** [b0] is shared and enabled by the plant alone at the pair (1, 1). *)
Lemma composition_rule_witness :
  Contract.events_in_alphabet P
  ∧ Contract.events_in_alphabet (DESystem.as_base E)
  ∧ Contract.queries_agree P ∧ Contract.queries_agree (DESystem.as_base E)
  ∧ SuperProxy.ContainsTrans V 5 b0 = false
  ∧ SuperProxy.Trans V 5 b0 = -1.
Proof.
  pose proof plant_S1_contract as HP. pose proof spec_S2_contract as HE.
  split; [apply (Contract.alphabet _ HP)|].
  split; [apply (Contract.alphabet _ HE)|].
  split; [apply (Contract.agree _ HP)|].
  split; [apply (Contract.agree _ HE)|].
  apply (composition_rule P (DESystem.as_base E) non_contr 5 b0
           (Contract.alphabet _ HP) (Contract.alphabet _ HE)
           (Contract.agree _ HP) (Contract.agree _ HE)).
  - reflexivity.
  - reflexivity.
  - vm_compute. discriminate.
Defined.

(** No event 4 in the alphabet [{a0, a1, b0, b1}] of the product. *)
Lemma outside_alphabet_witness :
  EventsSet.test (SuperProxy.events_ V) 4 = false
  ∧ SuperProxy.ContainsTrans V 0 4 = false
  ∧ SuperProxy.ContainsInvTrans V 0 4 = false
  ∧ SuperProxy.Trans V 0 4 = -1
  ∧ SuperProxy.InvTrans V 0 4 = []
  ∧ EventsSet.test (SuperProxy.GetStateEvents V 0) 4 = false
  ∧ EventsSet.test (SuperProxy.GetInvStateEvents V 0) 4 = false.
Proof.
  split; [reflexivity|].
  destruct (outside_alphabet P (DESystem.as_base E) non_contr 0 4 eq_refl)
    as (H1 & H2 & H3 & H4 & H5).
  do 4 (split; [assumption|]).
  apply H5.
  - apply (Contract.alphabet _ plant_S1_contract).
  - apply (Contract.alphabet _ spec_S2_contract).
Defined.

(** The step [0 --a0--> 1] of the product. *)
Lemma inverse_round_trip_witness :
  Contract.t P ∧ Contract.t (DESystem.as_base E)
  ∧ Contract.is_state (SuperProxy.as_base V) 0
  ∧ SuperProxy.Trans V 0 a0 ≠ -1
  ∧ 0 ∈ SuperProxy.InvTrans V (SuperProxy.Trans V 0 a0) a0.
Proof.
  split; [apply plant_S1_contract|]. split; [apply spec_S2_contract|].
  split; [unfold Contract.is_state; simpl; lia|].
  split; [vm_compute; discriminate|].
  apply (inverse_round_trip P (DESystem.as_base E) non_contr
           plant_S1_contract spec_S2_contract 0 a0).
  - unfold Contract.is_state; simpl; lia.
  - vm_compute. discriminate.
Defined.

(** State 4 is the pair (0, 1); it steps on [a0] to the pair (1, 1), state
    5, which is killed: the transition is recorded, and no entry of the
    graph built from the survivor 4 comes from it. *)
Lemma dangling_edges_filtered_witness :
  let p_nc := (non_contr_bits P V non_contr).1 in
  let nc := (non_contr_bits P V non_contr).2 in
  let c : TransMap := <[4 := recorded V 4]> ∅ in
  (4 ∉ ({[ 5 ]} : gset Z)) ∧ (∅ : TransMap) !! 4 = None
  ∧ enabled_u P V p_nc 4 = required_u P V p_nc 4
  ∧ synth_pop 1 P V p_nc nc 4 ([], ∅, {[ 5 ]})
    = Some (pushed V ∅ {[ 5 ]} 4 ++ [], c, {[ 5 ]})
  ∧ SuperProxy.Trans V 4 a0 = 5
  ∧ (5, a0) ∈ recorded V 4
  ∧ (4, 5, a0) ∈ recorded_transitions (map_to_list c)
  ∧ (5 ∉ dom c)
  ∧ ∀ from to b,
      EventsSet.test
        (DESystem.coeff (to_DESystem (with_survivors V c)) from to) b = true →
      ∃ t, t ∈ recorded_transitions (map_to_list c) ∧ t.1.2 ∈ dom c
           ∧ t.1.2 ≠ 5.
Proof.
  intros p_nc nc c.
  assert (Hrm : 4 ∉ ({[ 5 ]} : gset Z)) by (apply not_elem_of_singleton; lia).
  assert (Heq : enabled_u P V p_nc 4 = required_u P V p_nc 4) by reflexivity.
  destruct (dangling_edges_filtered P (DESystem.as_base E) non_contr)
    as (Hpop & Hmat & _).
  destruct (Hpop 1%nat p_nc nc 4 [] ∅ {[ 5 ]} Hrm (lookup_empty _) Heq)
    as (Hrun & Hrec).
  destruct (Hmat c) as (Hrt & Hcoeff).
  split; [exact Hrm|]. split; [apply lookup_empty|]. split; [exact Heq|].
  split; [exact Hrun|]. split; [reflexivity|].
  split; [exact (Hrec a0 eq_refl)|].
  split.
  { apply (proj2 (Hrt (4, 5, a0))). exists (recorded V 4).
    split; [apply lookup_insert_eq|exact (Hrec a0 eq_refl)]. }
  assert (Hout : 5 ∉ dom c).
  { unfold c. rewrite dom_insert_L, dom_empty_L.
    intros [H|H]%elem_of_union; [apply elem_of_singleton in H; lia|].
    by apply not_elem_of_empty in H. }
  split; [exact Hout|].
  intros from to b Hb. destruct (proj1 (Hcoeff from to b) Hb) as (t & Ht & Hd & _).
  exists t. split; [exact Ht|]. split; [exact Hd|].
  intros H5. apply Hout. rewrite <- H5. exact Hd.
Defined.

(** Three systems: the last one is carried through the first round and
    comes first in the second level; the product of the first two is the
    left operand of the root. *)
Lemma reduction_tree_witness :
  [plant_S1; spec_S2; plant_S3 ∅] ≠ []
  ∧ TreeSpec.round (Leaf <$> [plant_S1; spec_S2; plant_S3 ∅])
    = [Leaf (plant_S3 ∅); Sync (Leaf spec_S2) (Leaf plant_S1)]
  ∧ ∀ k, (3 ≤ k)%nat →
         GenBinExprTree k [plant_S1; spec_S2; plant_S3 ∅]
         = Some (Sync (Sync (Leaf spec_S2) (Leaf plant_S1)) (Leaf (plant_S3 ∅)),
                 [Leaf plant_S1; Leaf spec_S2; Leaf (plant_S3 ∅);
                  Sync (Leaf spec_S2) (Leaf plant_S1);
                  Sync (Sync (Leaf spec_S2) (Leaf plant_S1))
                       (Leaf (plant_S3 ∅))]).
Proof.
  split; [discriminate|]. split; [reflexivity|].
  destruct (reduction_tree [plant_S1; spec_S2; plant_S3 ∅])
    as (_ & _ & root & nodes & Hrun & _ & _ & Hroot & Hnodes).
  - discriminate.
  - injection Hroot as <-. rewrite Hnodes in Hrun. exact Hrun.
Defined.

End OnScenarioS2.

(** ** The invariant of the main loop *)

Section SynthesisInvariant.

Import Contract.
Import Synth.

Variables (aP aE : DESystemBase.t) (aNonContr : gset N).
Hypotheses (HP : Contract.t aP) (HE : Contract.t aE).
Variables (p_nc nc : EventsSet.t).

Let V : SuperProxy.t := SuperProxy.SuperProxy aP aE aNonContr.

Lemma invariant_initial :
  Invariant.t aP V p_nc nc ([SuperProxy.init_state_ V], ∅, ∅).
Proof.
  split; simpl.
  - intros x ->%list_elem_of_singleton. split; [|constructor].
    apply (init_is_state _ (product_contract aP aE aNonContr HP HE)).
  - intros q Hq. by apply not_elem_of_empty in Hq.
  - intros q Hq. by apply not_elem_of_empty in Hq.
  - intros q l Hl. by rewrite lookup_empty in Hl.
  - intros x p Hx. by apply not_elem_of_empty in Hx.
  - intros q e [l Hl]. by rewrite lookup_empty in Hl.
  - right. right. left.
  - intros x Hx. by apply not_elem_of_empty in Hx.
Qed.

Lemma kill_reach_avoid (rm : gset Z) (q p : Z) :
  kill_reach V nc rm q p → kill_reach V nc ∅ q p.
Proof.
  induction 1 as [|x p Hx IH Hp Hn]; [constructor|].
  apply (kill_reach_back _ _ _ _ x); [done|done|apply not_elem_of_empty].
Qed.

(** The result of an iteration that ends is the one of [synth_pop_total]. *)
Lemma synth_pop_result (k : nat) (q : Z) (f : list Z) (c : TransMap)
    (rm : gset Z) (st' : synth_state) :
  is_state (SuperProxy.as_base V) q →
  synth_pop k aP V p_nc nc q (f, c, rm) = Some st' →
  (q ∈ rm ∨ is_Some (c !! q) → st' = (f, c, rm))
  ∧ (q ∉ rm → c !! q = None →
     enabled_u aP V p_nc q = required_u aP V p_nc q →
     st' = (pushed V c rm q ++ f, <[q := recorded V q]> c, rm))
  ∧ (q ∉ rm → c !! q = None →
     enabled_u aP V p_nc q ≠ required_u aP V p_nc q →
     ∃ c' rm',
       st' = (f, c', rm')
       ∧ (∀ p, p ∈ rm' ↔ p ∈ rm ∨ kill_reach V nc rm q p)
       ∧ (∀ p, c' !! p
               = if decide (p ∈ rm' ∧ p ∉ rm) then None else c !! p)).
Proof.
  intros Hq Hrun.
  destruct (synth_pop_total aP aE aNonContr HP HE p_nc nc q f c rm Hq)
    as (fuel & st'' & Hrun' & H).
  apply (synth_pop_mono _ _ _ _ _ (Nat.max k fuel)) in Hrun; [|lia].
  rewrite Hrun' in Hrun by lia. by injection Hrun as <-.
Qed.

Lemma kill_reach_is_state (rm : gset Z) (q p : Z) :
  is_state (SuperProxy.as_base V) q → kill_reach V nc rm q p →
  is_state (SuperProxy.as_base V) p.
Proof.
  intros Hq. induction 1 as [|x p Hx IH Hp Hn]; [done|].
  by apply (predecessors_is_state aP aE aNonContr HP HE nc x).
Qed.

Lemma pushed_successor (c : TransMap) (rm : gset Z) (q : Z) (e : N) :
  EventsSet.test (SuperProxy.GetStateEvents V q) e = true →
  SuperProxy.Trans V q e ∈ rm ∨ SuperProxy.Trans V q e = q
  ∨ is_Some (c !! SuperProxy.Trans V q e)
  ∨ SuperProxy.Trans V q e ∈ pushed V c rm q.
Proof.
  intros He. destruct (decide (SuperProxy.Trans V q e ∈ rm)); [by left|].
  destruct (decide (SuperProxy.Trans V q e = q)); [right; by left|].
  destruct (c !! SuperProxy.Trans V q e) eqn:Hc; [right; right; left; eauto|].
  right. right. right. unfold pushed. rewrite elem_of_rev, list_elem_of_filter.
  split; [done|]. apply list_elem_of_fmap. exists e. split; [done|].
  by apply elem_of_to_list.
Qed.

Lemma pushed_reachable (c : TransMap) (rm : gset Z) (q x : Z) :
  Invariant.reachable V q → x ∈ pushed V c rm q → Invariant.reachable V x.
Proof.
  intros Hq. unfold pushed. rewrite elem_of_rev, list_elem_of_filter.
  intros (_ & (e & -> & He)%list_elem_of_fmap).
  apply Invariant.reachable_step; [done|]. by apply elem_of_to_list.
Qed.

(** An iteration that ends keeps the invariant. *)
Lemma invariant_pop (k : nat) (q : Z) (f : list Z) (c : TransMap)
    (rm : gset Z) (st' : synth_state) :
  Invariant.t aP V p_nc nc (q :: f, c, rm) →
  synth_pop k aP V p_nc nc q (f, c, rm) = Some st' →
  Invariant.t aP V p_nc nc st'.
Proof.
  intros [Hstack Hdisj Hkst Hsurv Hclosed Hsucc Hinit Hcause] Hrun. simpl in *.
  destruct (Hstack q ltac:(left)) as [Hq Hreach].
  assert (Hf : ∀ x, x ∈ f →
    is_state (SuperProxy.as_base V) x ∧ Invariant.reachable V x)
    by (intros x Hx; apply Hstack; by right).
  destruct (synth_pop_result k q f c rm st' Hq Hrun) as (Hskip & Hlive & Hkill).
  destruct (decide (q ∈ rm ∨ is_Some (c !! q))) as [Hmet|Hnew].
  { rewrite (Hskip Hmet). split; simpl; try done.
    - intros q0 e Hq0 He.
      destruct (Hsucc q0 e Hq0 He) as [?|[?|[->|?]%elem_of_cons]];
        try tauto; destruct Hmet; tauto.
    - destruct Hinit as [?|[?|[Hi|?]%elem_of_cons]];
        try tauto; rewrite Hi; destruct Hmet; tauto. }
  assert (Hrm : q ∉ rm) by tauto.
  assert (Hc : c !! q = None).
  { destruct (c !! q) eqn:E; [|done]. exfalso. apply Hnew. right. eauto. }
  destruct (decide (enabled_u aP V p_nc q = required_u aP V p_nc q))
    as [Heq|Hne].
  - rewrite (Hlive Hrm Hc Heq). split; simpl.
    + intros x [Hx|Hx]%elem_of_app; [|by apply Hf]. split.
      * by apply (pushed_is_state aP aE aNonContr HP HE c rm q).
      * by apply (pushed_reachable c rm q).
    + intros q0 Hq0. rewrite lookup_insert_ne by congruence. by apply Hdisj.
    + done.
    + intros q0 l. rewrite lookup_insert. destruct (decide (q = q0)) as [<-|Hne].
      * intros [= <-]. done.
      * apply Hsurv.
    + done.
    + intros q0 e Hq0 He. rewrite lookup_insert_is_Some in Hq0.
      rewrite lookup_insert_is_Some, elem_of_app.
      destruct (decide (q = q0)) as [<-|Hne].
      * destruct (pushed_successor c rm q e He) as [?|[?|[?|?]]];
          destruct (decide (q = SuperProxy.Trans V q e));
          intuition congruence.
      * assert (Hq0' : is_Some (c !! q0)) by tauto.
        destruct (Hsucc q0 e Hq0' He) as [?|[?|[Hs|?]%elem_of_cons]];
          destruct (decide (q = SuperProxy.Trans V q0 e));
          intuition congruence.
    + rewrite lookup_insert_is_Some, elem_of_app.
      destruct Hinit as [?|[?|[Hi|?]%elem_of_cons]];
        destruct (decide (q = SuperProxy.init_state_ V));
        intuition congruence.
    + done.
  - destruct (Hkill Hrm Hc Hne) as (c' & rm' & -> & Hrm' & Hc').
    assert (Hsub : ∀ p, p ∈ rm → p ∈ rm') by (intros p Hp; apply Hrm'; by left).
    assert (Hqk : q ∈ rm') by (apply Hrm'; right; constructor).
    assert (Hkeep : ∀ p, is_Some (c !! p) → is_Some (c' !! p) ∨ p ∈ rm').
    { intros p Hp. rewrite Hc'. destruct (decide (p ∈ rm' ∧ p ∉ rm)); tauto. }
    split; simpl.
    + done.
    + intros q0 Hq0. rewrite Hc'.
      destruct (decide (q0 ∈ rm' ∧ q0 ∉ rm)) as [?|Hno]; [done|].
      apply Hdisj. destruct (decide (q0 ∈ rm)); tauto.
    + intros q0 [Hq0|Hq0]%Hrm'; [by apply Hkst|].
      by apply (kill_reach_is_state rm q).
    + intros q0 l. rewrite Hc'.
      destruct (decide (q0 ∈ rm' ∧ q0 ∉ rm)); [done|apply Hsurv].
    + intros x p [Hx|Hx]%Hrm' Hp.
      * apply Hsub. by apply (Hclosed x).
      * apply Hrm'. destruct (decide (p ∈ rm)); [by left|right].
        by apply (kill_reach_back _ _ _ _ x).
    + intros q0 e Hq0 He.
      assert (Hq0' : is_Some (c !! q0)).
      { rewrite Hc' in Hq0. by destruct (decide (q0 ∈ rm' ∧ q0 ∉ rm)). }
      destruct (Hsucc q0 e Hq0' He) as [Hs|[?|[Hs|?]%elem_of_cons]].
      * destruct (Hkeep _ Hs); tauto.
      * right. left. by apply Hsub.
      * right. left. by rewrite Hs.
      * tauto.
    + destruct Hinit as [Hs|[?|[Hs|?]%elem_of_cons]].
      * destruct (Hkeep _ Hs); tauto.
      * right. left. by apply Hsub.
      * right. left. by rewrite Hs.
      * tauto.
    + intros x [Hx|Hx]%Hrm'.
      * destruct (Hcause x Hx) as (b & Hb & H). exists b. split; [|done].
        by apply Hsub.
      * exists q. split; [done|]. split; [done|]. split; [done|].
        by apply (kill_reach_avoid rm).
Qed.

(** A run of the main loop that ends keeps the invariant and empties the
    stack. *)
Lemma invariant_loop (k : nat) (st st' : synth_state) :
  Invariant.t aP V p_nc nc st →
  synth_loop k aP V p_nc nc st = Some st' →
  Invariant.t aP V p_nc nc st' ∧ st'.1.1 = [].
Proof.
  revert st. induction k as [|k IH]; intros [[f c] rm] Hinv Hrun; [done|].
  destruct f as [|q f].
  - injection Hrun as <-. done.
  - rewrite (synth_loop_pop aP aE aNonContr) in Hrun. fold V in Hrun.
    destruct (synth_pop k aP V p_nc nc q (f, c, rm)) as [st1|] eqn:Hpop; [|done].
    apply (IH st1); [|done]. by apply (invariant_pop k q f c rm).
Qed.

End SynthesisInvariant.

(** ** More on the virtual product *)

Section VirtualProductSteps.

Import DESystemBase.
Import Contract.

Variables (X Y : DESystemBase.t) (aNonContr : gset N).
Hypotheses (HX : Contract.t X) (HY : Contract.t Y).

Let V : SuperProxy.t := SuperProxy.SuperProxy X Y aNonContr.

Lemma no_trans_outside_alphabet (S : DESystemBase.t) (q : Z) (e : N) :
  Contract.t S → ¬ in_alphabet S e → ContainsTrans S q e = false.
Proof.
  intros HS Hn. apply not_true_is_false. intros Hc. apply Hn.
  apply (alphabet _ HS q). left. by rewrite <- (proj1 (agree _ HS q e)).
Qed.

(** X7.  On the states of the product, [ContainsTrans] answers [true] exactly
    when [Trans] does not answer [-1]. *)
Theorem contains_trans_iff_trans (q : Z) (e : N) :
  is_state (SuperProxy.as_base V) q →
  SuperProxy.ContainsTrans V q e = true ↔ SuperProxy.Trans V q e ≠ -1.
Proof.
  intros Hq. split.
  - intros Hc.
    destruct (product_trans_is_state X Y aNonContr HX HY q e Hq Hc) as [H0 _].
    fold V in H0. lia.
  - apply (Trans_defined X Y aNonContr HX HY).
Qed.

(** A step of the product moves each component by its own operand when the
    operand has the transition, and leaves it where it is otherwise. *)
Lemma trans_components_Z (q : Z) (e : N) :
  is_state (SuperProxy.as_base V) q →
  SuperProxy.Trans V q e ≠ -1 →
  let qx := q mod GetStatesNumber X in
  let qy := q / GetStatesNumber X in
  SuperProxy.Trans V q e mod GetStatesNumber X
  = (if ContainsTrans X qx e then Trans X qx e else qx)
  ∧ SuperProxy.Trans V q e / GetStatesNumber X
    = (if ContainsTrans Y qy e then Trans Y qy e else qy).
Proof.
  intros Hq Hd. cbv zeta.
  pose proof (Trans_defined X Y aNonContr HX HY q e Hd) as Hc.
  destruct (split_is_state X Y aNonContr q
              (states_number_pos X HX) Hq) as [Hqx Hqy].
  unfold V in *.
  destruct (ContainsTrans_cases X Y aNonContr q e Hc)
    as (_ & [(Hx & Hy & Ht)|[(Hx & HnY & Ht)|(Hy & HnX & Ht)]]);
    rewrite Ht.
  - rewrite Hx, Hy.
    rewrite (pair_mod X), (pair_div X); [done| |];
      by apply (trans_is_state _ HX).
  - rewrite Hx, (no_trans_outside_alphabet Y _ e HY HnY).
    rewrite (pair_mod X), (pair_div X); [done| |];
      by apply (trans_is_state _ HX).
  - rewrite Hy, (no_trans_outside_alphabet X _ e HX HnX).
    by rewrite (pair_mod X), (pair_div X).
Qed.

(** The three cases of a list of predecessors in the product. *)
Lemma InvTrans_cases (q : Z) (e : N) (p : Z) :
  p ∈ SuperProxy.InvTrans V q e →
  let qx := q mod GetStatesNumber X in
  let qy := q / GetStatesNumber X in
  (∃ q0 q1, p = q1 * GetStatesNumber X + q0
            ∧ q0 ∈ InvTrans X qx e ∧ q1 ∈ InvTrans Y qy e)
  ∨ (¬ in_alphabet Y e
     ∧ ∃ q0, p = qy * GetStatesNumber X + q0 ∧ q0 ∈ InvTrans X qx e)
  ∨ (¬ in_alphabet X e
     ∧ ∃ q1, p = q1 * GetStatesNumber X + qx ∧ q1 ∈ InvTrans Y qy e).
Proof.
  intros Hp qx qy. unfold SuperProxy.InvTrans in Hp.
  change (SuperProxy.n_states_sys0_ V) with (GetStatesNumber X) in Hp.
  change (SuperProxy.sys0_ V) with X in Hp.
  change (SuperProxy.sys1_ V) with Y in Hp. fold qx qy in Hp.
  destruct (negb (EventsSet.test _ e)); [by apply elem_of_nil in Hp|].
  destruct (SuperProxy.fires V _ _ e) eqn:Hf; simpl in Hp;
    [|by apply elem_of_nil in Hp].
  unfold SuperProxy.fires in Hf.
  rewrite (test_only_in_0 X Y aNonContr), (test_only_in_1 X Y aNonContr) in Hf.
  unfold in_alphabet.
  destruct (ContainsInvTrans X qx e) eqn:Hix,
    (ContainsInvTrans Y qy e) eqn:Hiy; simpl in Hp, Hf.
  - left. apply list_elem_of_bind in Hp as (q0 & Hp & H0).
    apply list_elem_of_bind in Hp as (q1 & Hp & H1).
    apply list_elem_of_singleton in Hp. eauto.
  - right. left. apply list_elem_of_fmap in Hp as (q0 & -> & H0).
    split; [|eauto].
    destruct (EventsSet.test (GetEvents Y) e); [|done].
    by rewrite andb_false_r in Hf.
  - right. right. apply list_elem_of_fmap in Hp as (q1 & -> & H1).
    split; [|eauto].
    destruct (EventsSet.test (GetEvents X) e); [|done].
    by rewrite andb_false_r in Hf.
  - done.
Qed.

(** The product lists predecessors only, as soon as its operands do: every
    state of [InvTrans V q e] steps to [q] on [e]. *)
Lemma product_inverse_sound :
  Inverse.sound X → Inverse.sound Y → Inverse.sound (SuperProxy.as_base V).
Proof.
  intros HsX HsY q e p Hq Hp. simpl in *.
  pose proof (states_number_pos X HX) as Hn.
  destruct (split_is_state X Y aNonContr q Hn Hq) as [Hqx Hqy].
  assert (Hdm : q = q / GetStatesNumber X * GetStatesNumber X
                    + q mod GetStatesNumber X).
  { rewrite (Z.div_mod q (GetStatesNumber X)) at 1 by lia. lia. }
  assert (Hgo : ∀ a b,
    is_state X b →
    SuperProxy.fires V (ContainsTrans X b e) (ContainsTrans Y a e) e = true →
    SuperProxy.ContainsTrans V (a * GetStatesNumber X + b) e = true).
  { intros a b Hb Hf.
    rewrite (ContainsTrans_fires X Y aNonContr _ e (alphabet _ HX)
               (alphabet _ HY) (agree _ HX) (agree _ HY)).
    by rewrite (pair_mod X), (pair_div X). }
  destruct (InvTrans_cases q e p Hp)
    as [(q0 & q1 & -> & H0 & H1)|[(HnY & q0 & -> & H0)|(HnX & q1 & -> & H1)]].
  - destruct (HsX _ e q0 Hqx H0) as [Hc0 Ht0].
    destruct (HsY _ e q1 Hqy H1) as [Hc1 Ht1].
    pose proof (inv_trans_is_state _ HX _ e q0 Hqx H0) as Hs0.
    assert (Hc : SuperProxy.ContainsTrans V (q1 * GetStatesNumber X + q0) e
                 = true).
    { apply Hgo; [done|]. rewrite Hc0, Hc1. done. }
    split; [done|].
    destruct (ContainsTrans_cases X Y aNonContr _ e Hc)
      as (_ & [(_ & _ & Ht)|[(_ & HnY & _)|(_ & HnX & _)]]).
    + fold V in Ht. rewrite Ht, (pair_mod X), (pair_div X) by done.
      rewrite Ht0, Ht1. by rewrite <- Hdm.
    + exfalso. apply HnY. apply (alphabet _ HY q1). left.
      by rewrite <- (proj1 (agree _ HY q1 e)).
    + exfalso. apply HnX. apply (alphabet _ HX q0). left.
      by rewrite <- (proj1 (agree _ HX q0 e)).
  - destruct (HsX _ e q0 Hqx H0) as [Hc0 Ht0].
    pose proof (inv_trans_is_state _ HX _ e q0 Hqx H0) as Hs0.
    pose proof (no_trans_outside_alphabet Y (q / GetStatesNumber X) e HY HnY)
      as Hc1.
    assert (HaX : in_alphabet X e).
    { apply (alphabet _ HX q0). left. by rewrite <- (proj1 (agree _ HX q0 e)). }
    assert (Hc : SuperProxy.ContainsTrans V
                   (q / GetStatesNumber X * GetStatesNumber X + q0) e = true).
    { apply Hgo; [done|]. rewrite Hc0, Hc1. unfold SuperProxy.fires.
      rewrite (test_only_in_0 X Y aNonContr). unfold in_alphabet in HaX, HnY.
      rewrite HaX. by destruct (EventsSet.test (GetEvents Y) e). }
    split; [done|].
    destruct (ContainsTrans_cases X Y aNonContr _ e Hc)
      as (_ & [(_ & Hy & _)|[(_ & _ & Ht)|(_ & HnX & _)]]).
    + rewrite (pair_div X) in Hy by done. congruence.
    + fold V in Ht. rewrite Ht, (pair_mod X), (pair_div X) by done.
      rewrite Ht0. by rewrite <- Hdm.
    + done.
  - destruct (HsY _ e q1 Hqy H1) as [Hc1 Ht1].
    pose proof (no_trans_outside_alphabet X (q mod GetStatesNumber X) e HX HnX)
      as Hc0.
    assert (HaY : in_alphabet Y e).
    { apply (alphabet _ HY q1). left. by rewrite <- (proj1 (agree _ HY q1 e)). }
    assert (Hc : SuperProxy.ContainsTrans V
                   (q1 * GetStatesNumber X + q mod GetStatesNumber X) e = true).
    { apply Hgo; [done|]. rewrite Hc0, Hc1. unfold SuperProxy.fires.
      rewrite (test_only_in_1 X Y aNonContr). unfold in_alphabet in HaY, HnX.
      rewrite HaY. by destruct (EventsSet.test (GetEvents X) e). }
    split; [done|].
    destruct (ContainsTrans_cases X Y aNonContr _ e Hc)
      as (_ & [(Hx & _ & _)|[(_ & HnY & _)|(_ & _ & Ht)]]).
    + rewrite (pair_mod X) in Hx by done. congruence.
    + done.
    + fold V in Ht. rewrite Ht, (pair_mod X), (pair_div X) by done.
      rewrite Ht1. by rewrite <- Hdm.
Qed.

(** X9.  The inverse query of the product inherits the soundness of its
    operands.  When every state listed by [InvTrans] of each operand steps
    to the queried state on the queried event, so does every state listed
    by [InvTrans] of the product. *)
Theorem inverse_lists_predecessors (q : Z) (e : N) (p : Z) :
  Inverse.sound X → Inverse.sound Y →
  is_state (SuperProxy.as_base V) q →
  p ∈ SuperProxy.InvTrans V q e →
  SuperProxy.ContainsTrans V p e = true ∧ SuperProxy.Trans V p e = q.
Proof.
  intros HsX HsY Hq Hp. by apply (product_inverse_sound HsX HsY q e p).
Qed.

End VirtualProductSteps.

(** ** The index types of the machine *)

Section MachineIndices.

Import DESystemBase Contract.

Variable w : N.

Lemma wrap_small (z : Z) : 0 ≤ z < 2 ^ Z.of_N w → StorageIndex.wrap w z = z.
Proof. intros Hz. unfold StorageIndex.wrap. by apply Z.mod_small. Qed.

Lemma wrap_signed (z : Z) :
  StorageIndex.wrap w (StorageIndex.signed w z) = StorageIndex.wrap w z.
Proof.
  unfold StorageIndex.signed, StorageIndex.wrap.
  assert (0 < 2 ^ Z.of_N w) by (apply Z.pow_pos_nonneg; lia).
  destruct (z mod 2 ^ Z.of_N w <? 2 ^ (Z.of_N w - 1)).
  - apply Z.mod_mod. lia.
  - rewrite Zminus_mod, Z.mod_same, Z.sub_0_r, !Z.mod_mod by lia. done.
Qed.

Lemma signed_negative (z : Z) :
  (0 < w)%N → 0 ≤ z < 2 ^ Z.of_N w →
  StorageIndex.signed w z < 0 ↔ 2 ^ (Z.of_N w - 1) ≤ z.
Proof.
  intros Hw Hz. unfold StorageIndex.signed. rewrite wrap_small by done.
  assert (0 < 2 ^ (Z.of_N w - 1)) by (apply Z.pow_pos_nonneg; lia).
  destruct (Z.ltb_spec z (2 ^ (Z.of_N w - 1))); lia.
Qed.

Variables (X Y : DESystemBase.t) (aNonContr : gset N).
Hypotheses (HX : Contract.t X) (HY : Contract.t Y).

Let V : SuperProxy.t := SuperProxy.SuperProxy X Y aNonContr.

(** X8.  What [Trans] returns on a product that fits the index type.  The
    returned signed value is negative exactly when the successor is
    [2 ^ (w - 1)] or more; converted back to an index it is the successor,
    and a step of the product moves each component by its own operand
    when the operand has the transition, and leaves it where it is
    otherwise. *)
Theorem trans_components (q : Z) (e : N) :
  (0 < w)%N →
  GetStatesNumber X * GetStatesNumber Y ≤ 2 ^ Z.of_N w →
  is_state (SuperProxy.as_base V) q →
  SuperProxy.Trans V q e ≠ -1 →
  let qx := q mod GetStatesNumber X in
  let qy := q / GetStatesNumber X in
  let r := StorageIndex.Trans w V q e in
  (r < 0 ↔ 2 ^ (Z.of_N w - 1) ≤ SuperProxy.Trans V q e)
  ∧ StorageIndex.wrap w r = SuperProxy.Trans V q e
  ∧ StorageIndex.wrap w r mod GetStatesNumber X
    = (if ContainsTrans X qx e then Trans X qx e else qx)
  ∧ StorageIndex.wrap w r / GetStatesNumber X
    = (if ContainsTrans Y qy e then Trans Y qy e else qy).
Proof.
  intros Hw Hfit Hq Hd. cbv zeta.
  pose proof (Trans_defined X Y aNonContr HX HY q e Hd) as Hc.
  destruct (product_trans_is_state X Y aNonContr HX HY q e Hq Hc) as [H0 H1].
  simpl in H0, H1.
  assert (Hr : 0 ≤ SuperProxy.Trans (SuperProxy.SuperProxy X Y aNonContr) q e
               < 2 ^ Z.of_N w) by lia.
  unfold StorageIndex.Trans.
  split; [by apply signed_negative|].
  rewrite wrap_signed, wrap_small by done.
  split; [done|].
  by apply (trans_components_Z X Y aNonContr HX HY q e).
Qed.

End MachineIndices.

(** ** What the exploration computes *)

Section SynthesisResult.

Import Contract.
Import Synth Materialise.

Variables (aP aE : DESystemBase.t) (aNonContr : gset N).
Hypotheses (HP : Contract.t aP) (HE : Contract.t aE).

Let V : SuperProxy.t := SuperProxy.SuperProxy aP aE aNonContr.
Let p_nc : EventsSet.t := (non_contr_bits aP V aNonContr).1.
Let nc : EventsSet.t := (non_contr_bits aP V aNonContr).2.

(** The exploration ends, and its last state satisfies the invariant. *)
Lemma explore_invariant :
  ∃ fuel c rm,
    (∀ k, (fuel ≤ k)%nat → explore k aP aE aNonContr = Some ([], c, rm))
    ∧ Invariant.t aP V p_nc nc ([], c, rm).
Proof.
  destruct (synth_loop_total aP aE aNonContr HP HE p_nc nc
              (size (all_states V ∖ (dom (∅ : TransMap) ∪ ∅)))
              [SuperProxy.init_state_ V] ∅ ∅) as (fuel & c & rm & Hrun);
    [|done|].
  { intros x ->%list_elem_of_singleton.
    apply (init_is_state _ (product_contract aP aE aNonContr HP HE)). }
  exists fuel, c, rm.
  assert (Hex : ∀ k, explore k aP aE aNonContr
                     = synth_loop k aP V p_nc nc
                         ([SuperProxy.init_state_ V], ∅, ∅)).
  { intros k. unfold explore, p_nc, nc. fold V.
    by destruct (non_contr_bits aP V aNonContr). }
  split.
  - intros k Hk. rewrite Hex. by apply Hrun.
  - apply (invariant_loop aP aE aNonContr HP HE p_nc nc fuel
             ([SuperProxy.init_state_ V], ∅, ∅)).
    + apply invariant_initial; done.
    + by apply Hrun.
Qed.

(** X1.  The surviving and the killed states at the end of the exploration: no
    state is both; the initial state is one or the other; every survivor
    is a state that the product reaches from its initial state, holds the
    list of all its transitions, and has each of its successors surviving
    or killed. *)
Theorem exploration_closed :
  ∃ fuel c rm,
    (∀ k, (fuel ≤ k)%nat → explore k aP aE aNonContr = Some ([], c, rm))
    ∧ dom c ∩ rm = ∅
    ∧ SuperProxy.init_state_ V ∈ dom c ∪ rm
    ∧ ∀ q, q ∈ dom c →
           is_state (SuperProxy.as_base V) q
           ∧ Invariant.reachable V q
           ∧ c !! q = Some (recorded V q)
           ∧ ∀ e, EventsSet.test (SuperProxy.GetStateEvents V q) e = true →
                  SuperProxy.Trans V q e ∈ dom c ∪ rm.
Proof.
  destruct explore_invariant as (fuel & c & rm & Hrun & Hinv).
  destruct Hinv as [_ Hdisj _ Hsurv _ Hsucc Hinit _]. simpl in *.
  exists fuel, c, rm. split; [done|]. split; [|split].
  - apply set_eq. intros q. rewrite elem_of_intersection, elem_of_dom.
    split; [|by intros ?%not_elem_of_empty].
    intros [[l Hl] Hq]. rewrite (Hdisj q Hq) in Hl. done.
  - rewrite elem_of_union, elem_of_dom.
    destruct Hinit as [?|[?|H]]; [by left|by right|by apply elem_of_nil in H].
  - intros q [l Hl]%elem_of_dom. destruct (Hsurv q l Hl) as (-> & _ & Hq & Hr).
    split; [done|]. split; [done|]. split; [done|].
    intros e He. rewrite elem_of_union, elem_of_dom.
    destruct (Hsucc q e (mk_is_Some _ _ Hl) He) as [?|[?|H]];
      [by left|by right|by apply elem_of_nil in H].
Qed.

(** X2.  The killed states at the end of the exploration are states of the
    product, and every predecessor of a killed state on an uncontrollable
    event of the product is killed too. *)
Theorem killed_closed_backwards :
  ∃ fuel c rm,
    (∀ k, (fuel ≤ k)%nat → explore k aP aE aNonContr = Some ([], c, rm))
    ∧ ∀ x, x ∈ rm →
           is_state (SuperProxy.as_base V) x
           ∧ ∀ e p,
               e ∈ aNonContr → in_alphabet aP e →
               EventsSet.test (SuperProxy.GetInvStateEvents V x) e = true →
               p ∈ SuperProxy.InvTrans V x e →
               p ∈ rm.
Proof.
  destruct explore_invariant as (fuel & c & rm & Hrun & Hinv).
  destruct Hinv as [_ _ Hkst _ Hclosed _ _ _]. simpl in *.
  exists fuel, c, rm. split; [done|]. intros x Hx. split; [by apply Hkst|].
  intros e p He HeP Hinv Hp. apply (Hclosed x p Hx).
  apply elem_of_predecessors. exists e. split; [|done].
  rewrite test_land, Hinv. simpl. unfold nc.
  apply (proj2 (test_non_contr_bits aP aE aNonContr e)).
  split; [done|]. split; [done|].
  apply (alphabet _ (product_contract aP aE aNonContr HP HE) x). by right.
Qed.

(** X3.  The supervisor before trimming is controllable.  At every survivor [q]
    and for every uncontrollable event [e] that the plant enables at
    [q mod n_P], the product enables [e] at [q], the successor of [q] on
    [e] is a survivor, and the graph of the materialised system holds the
    event [e mod 64], the one of the events set [1ul << e], at the new
    indices of [q] and of its successor. *)
Theorem supervisor_controllable :
  ∃ fuel c rm sys,
    (∀ k, (fuel ≤ k)%nat →
          explore k aP aE aNonContr = Some ([], c, rm)
          ∧ SupervisorSynth_sys k aP aE aNonContr = Some sys)
    ∧ ∀ q e,
        q ∈ dom c → e ∈ aNonContr →
        EventsSet.test
          (DESystemBase.GetStateEvents aP
             (q mod DESystemBase.GetStatesNumber aP)) e = true →
        EventsSet.test (SuperProxy.GetStateEvents V q) e = true
        ∧ SuperProxy.Trans V q e ∈ dom c
        ∧ EventsSet.test
            (DESystem.coeff sys (rank (map_to_list c).*1 q)
               (rank (map_to_list c).*1 (SuperProxy.Trans V q e)))
            (e mod 64) = true.
Proof.
  destruct explore_invariant as (fuel & c & rm & Hrun & Hinv).
  destruct Hinv as [_ Hdisj _ Hsurv Hclosed Hsucc _ _]. simpl in *.
  pose proof (product_contract aP aE aNonContr HP HE) as HV.
  exists fuel, c, rm, (to_DESystem (with_survivors V c)).
  split.
  { intros k Hk. split; [by apply Hrun|].
    unfold SupervisorSynth_sys. by rewrite (Hrun k Hk). }
  intros q e [l Hl]%elem_of_dom He HeP.
  destruct (Hsurv q l Hl) as (-> & Heq & Hq & _).
  assert (HinP : in_alphabet aP e).
  { apply (alphabet _ HP (q mod DESystemBase.GetStatesNumber aP)). by left. }
  assert (Hreq : EventsSet.test (required_u aP V p_nc q) e = true).
  { unfold required_u. rewrite test_land. apply andb_true_iff. split; [|done].
    by apply (proj2 (proj1 (test_non_contr_bits aP aE aNonContr e))). }
  assert (HeV : EventsSet.test (SuperProxy.GetStateEvents V q) e = true).
  { rewrite <- Heq in Hreq. unfold enabled_u in Hreq.
    rewrite test_land in Hreq. by apply andb_true_iff in Hreq as [_ ?]. }
  assert (Hct : SuperProxy.ContainsTrans V q e = true).
  { etrans; [apply (proj1 (agree _ HV q e))|done]. }
  destruct (product_trans_inv_trans aP aE aNonContr HP HE q e Hq Hct)
    as [Hcit Hin].
  assert (Hs : SuperProxy.Trans V q e ∈ dom c).
  { destruct (Hsucc q e (mk_is_Some _ _ Hl) HeV) as [?|[Hk|H]];
      [by apply elem_of_dom| |by apply elem_of_nil in H].
    exfalso.
    assert (q ∈ rm) as Hqk; [|by rewrite (Hdisj q Hqk) in Hl].
    apply (Hclosed (SuperProxy.Trans V q e) q Hk).
    apply elem_of_predecessors. exists e. split; [|done].
    rewrite test_land. apply andb_true_iff. split.
    - etrans; [symmetry; apply (proj2 (agree _ HV _ e))|done].
    - unfold nc. apply (proj2 (test_non_contr_bits aP aE aNonContr e)).
      split; [done|]. split; [done|]. apply (alphabet _ HV q). by left. }
  split; [done|]. split; [done|].
  assert (Hrec : (q, SuperProxy.Trans V q e, e)
                 ∈ recorded_transitions (map_to_list c)).
  { apply elem_of_recorded_transitions. exists (recorded V q). split; [done|].
    by apply elem_of_recorded. }
  pose proof (coeff_materialised aP aE aNonContr c
                (rank (map_to_list c).*1 q)
                (rank (map_to_list c).*1 (SuperProxy.Trans V q e))
                (e mod 64)%N) as Hco.
  fold V in Hco. apply Hco. exists (q, SuperProxy.Trans V q e, e). done.
Qed.

(** X4.  No state is killed without cause.  When the inverse lists of the two
    operands hold predecessors only, every killed state leads, by
    transitions of the product on uncontrollable events of the plant only,
    to a killed state that the product reaches from its initial state and
    where it disables an uncontrollable event that the plant enables. *)
Theorem killed_for_cause :
  Inverse.sound aP → Inverse.sound aE →
  ∃ fuel c rm,
    (∀ k, (fuel ≤ k)%nat → explore k aP aE aNonContr = Some ([], c, rm))
    ∧ ∀ x, x ∈ rm →
           ∃ b, b ∈ rm
                ∧ Invariant.reachable V b
                ∧ enabled_u aP V p_nc b ≠ required_u aP V p_nc b
                ∧ Invariant.leads V
                    (λ e, e ∈ aNonContr ∧ in_alphabet aP e) x b.
Proof.
  intros HsP HsE.
  destruct explore_invariant as (fuel & c & rm & Hrun & Hinv).
  destruct Hinv as [_ _ Hkst _ Hclosed _ _ Hcause]. simpl in *.
  exists fuel, c, rm. split; [done|]. intros x Hx.
  destruct (Hcause x Hx) as (b & Hbk & Hb & Hbad & Hpath).
  exists b. split; [done|]. split; [done|]. split; [done|].
  clear Hx. induction Hpath as [|y p Hy IH Hp _]; [constructor|].
  assert (Hyk : y ∈ rm).
  { clear IH Hp. induction Hy as [|z p' Hz IHz Hp' _]; [done|].
    by apply (Hclosed z). }
  apply elem_of_predecessors in Hp as (e & He & Hp).
  rewrite test_land in He. apply andb_true_iff in He as [_ He].
  apply (proj2 (test_non_contr_bits aP aE aNonContr e)) in He
    as (HeU & HeP & _).
  destruct (product_inverse_sound aP aE aNonContr HP HE HsP HsE y e p
              (Hkst y Hyk) Hp) as [Hc Ht].
  apply (Invariant.leads_step _ _ _ _ e); [done|done|].
  simpl in Ht. fold V in Ht. rewrite Ht. done.
Qed.

(** X5.  The empty supervisor.  When the product disables at its initial state
    an uncontrollable event that the plant enables there, the exploration
    ends with no survivor and the initial state killed; the materialised
    system has no state and no transition, and its initial state is still
    the virtual one. *)
Theorem init_killed_no_survivor :
  enabled_u aP V p_nc (SuperProxy.init_state_ V)
  ≠ required_u aP V p_nc (SuperProxy.init_state_ V) →
  ∃ fuel rm sys,
    (∀ k, (fuel ≤ k)%nat →
          explore k aP aE aNonContr = Some ([], ∅, rm)
          ∧ SupervisorSynth_sys k aP aE aNonContr = Some sys)
    ∧ SuperProxy.init_state_ V ∈ rm
    ∧ DESystem.states_number_ sys = 0
    ∧ DESystem.graph_ sys = []
    ∧ DESystem.init_state_ sys = SuperProxy.init_state_ V.
Proof.
  intros Hbad.
  pose proof (init_is_state _ (product_contract aP aE aNonContr HP HE)) as Hi.
  destruct (synth_pop_total aP aE aNonContr HP HE p_nc nc
              (SuperProxy.init_state_ V) [] ∅ ∅ Hi)
    as (fuel & st' & Hrun & _ & _ & Hkill).
  destruct (Hkill (not_elem_of_empty _) (lookup_empty _) Hbad)
    as (c' & rm' & -> & Hrm & Hc').
  assert (c' = ∅) as ->.
  { apply map_eq. intros p. rewrite Hc', lookup_empty. by destruct (decide _). }
  assert (Hex : ∀ k, (S (S fuel) ≤ k)%nat →
                     explore k aP aE aNonContr = Some ([], ∅, rm')).
  { intros [|[|k]] Hk; [lia|lia|]. unfold explore. fold V.
    fold p_nc nc.
    replace (non_contr_bits aP V aNonContr) with (p_nc, nc)
      by (unfold p_nc, nc; by destruct (non_contr_bits aP V aNonContr)).
    rewrite (synth_loop_pop aP aE aNonContr). fold V.
    rewrite Hrun by lia. done. }
  exists (S (S fuel)), rm', (to_DESystem (with_survivors V ∅)).
  pose proof (materialised aP aE aNonContr ∅) as (Hn & Hin & Hg).
  fold V in Hn, Hin, Hg.
  split; [|split; [|split; [|split]]].
  - intros k Hk. split; [by apply Hex|].
    unfold SupervisorSynth_sys. by rewrite (Hex k Hk).
  - apply Hrm. right. constructor.
  - by rewrite Hn.
  - rewrite Hg. by rewrite map_to_list_empty.
  - done.
Qed.

End SynthesisResult.


(** ** Deterministic concrete automata *)

Section DeterministicAutomaton.

Variable s : DESystem.t.
Hypothesis Hdet : Inverse.deterministic s = true.

Lemma deterministic_targets (tr tr' : Z * Z * EventsSet.t) (e : N) :
  tr ∈ DESystem.graph_ s → tr' ∈ DESystem.graph_ s →
  tr.1.1 = tr'.1.1 →
  EventsSet.test tr.2 e = true → EventsSet.test tr'.2 e = true →
  tr.1.2 = tr'.1.2.
Proof.
  intros Hin Hin' Hfrom He He'. unfold Inverse.deterministic in Hdet.
  rewrite forallb_forall in Hdet.
  pose proof (Hdet tr (proj1 (list_elem_of_In _ _) Hin)) as Hrow.
  rewrite forallb_forall in Hrow.
  pose proof (Hrow tr' (proj1 (list_elem_of_In _ _) Hin')) as H.
  cbv beta in H. apply orb_true_iff in H as [H|H]; [apply orb_true_iff in H as [H|H]|].
  - apply negb_true_iff, Z.eqb_neq in H. done.
  - by apply Z.eqb_eq in H.
  - apply N.eqb_eq in H. exfalso.
    assert (EventsSet.test (N.land tr.2 tr'.2) e = true) as Hboth
      by (rewrite test_land, He, He'; done).
    unfold EventsSet.t in *. rewrite H, test_zero in Hboth. done.
Qed.

(** The inverse lists of a deterministic automaton hold predecessors
    only. *)
Lemma concrete_inverse_sound : Inverse.sound (DESystem.as_base s).
Proof.
  intros q e p _ Hp. simpl in *. unfold DESystem.InvTrans in Hp.
  destruct (EventsSet.test (DESystem.events_ s) e) eqn:He;
    [|by apply elem_of_nil in Hp].
  apply list_elem_of_fmap in Hp as (tr & -> & Htr).
  apply list_elem_of_filter in Htr as [[Hto Ht] Hin].
  assert (Hc : DESystem.ContainsTrans s tr.1.1 e = true).
  { unfold DESystem.ContainsTrans, DESystem.GetStateEvents.
    rewrite test_land, He, andb_true_r. apply test_union_events.
    exists tr. split; [|done]. by apply list_elem_of_filter. }
  split; [done|].
  destruct (ContainsTrans_witness s _ e Hc) as (_ & tr0 & l & Hf).
  unfold DESystem.Trans. rewrite He, Hf.
  assert (tr0 ∈ filter (λ t, t.1.1 = tr.1.1 ∧ EventsSet.test t.2 e = true)
                  (DESystem.graph_ s)) as Hin0 by (rewrite Hf; left).
  apply list_elem_of_filter in Hin0 as [[Hfrom0 Ht0] Hin0].
  rewrite <- Hto. by apply (deterministic_targets tr0 tr e).
Qed.

End DeterministicAutomaton.

(** ** Trees of proxies *)

Section Trees.

Import BinExprTree.

(** Every node of a tree over valid automata satisfies the contract of an
    operand: a proxy of proxies answers its queries like a product. *)
Lemma system_contract (n : node) :
  Forall DESystem.valid (leaves n) → Contract.t (system n).
Proof.
  induction n as [s|lhs IHl rhs IHr]; intros Hv.
  - change (leaves (Leaf s)) with [s] in Hv.
    change (system (Leaf s)) with (DESystem.as_base s).
    apply concrete_contract. exact (proj1 (Forall_singleton _ _) Hv).
  - change (leaves (Sync lhs rhs)) with (leaves lhs ++ leaves rhs) in Hv.
    change (system (Sync lhs rhs))
      with (SuperProxy.as_base
              (SuperProxy.SuperProxy (system lhs) (system rhs) ∅)).
    apply Forall_app in Hv as [Hl Hr].
    apply product_contract; [by apply IHl|by apply IHr].
Qed.

End Trees.

(** ** The traversal of an events set *)

Section Traversal.

Import EventsSet.

Lemma for_each_pos_descending (ev : N) (p : positive) :
  StronglySorted N.lt (rev (for_each_pos (λ e a, e :: a) ev p [])).
Proof.
  revert ev. induction p as [p IH|p IH|]; intros ev; simpl.
  - rewrite for_each_pos_cons, rev_app_distr. simpl.
    constructor; [apply IH|].
    apply Forall_forall. intros e He.
    apply elem_of_rev, elem_of_for_each_pos in He as (k & -> & _). lia.
  - apply IH.
  - repeat constructor.
Qed.

(** X11.  The loop over an events set runs its body on the events of the set and
    on nothing else, once each, in ascending order. *)
Theorem for_each_ascending {A : Type} (body : N → A → A) (s : t) (acc : A) :
  for_each body s acc = foldl (λ a e, body e a) acc (to_list s)
  ∧ StronglySorted N.lt (to_list s)
  ∧ ∀ e, e ∈ to_list s ↔ test s e = true.
Proof.
  split; [apply for_each_foldl|]. split; [|apply elem_of_to_list].
  destruct s as [|p]; [constructor|]. apply for_each_pos_descending.
Qed.

End Traversal.

(** ** The root of a reduction tree *)

Section TreeRoot.

Import BinExprTree Contract Notions.

Lemma GenBinExprTree_total (aSystems : list DESystem.t) :
  aSystems ≠ [] →
  ∃ root nodes,
    (∀ k, (length aSystems ≤ k)%nat →
          GenBinExprTree k aSystems = Some (root, nodes))
    ∧ leaves root ≡ₚ aSystems.
Proof.
  intros Hne.
  destruct (reduce_total (length (Leaf <$> aSystems)) (Leaf <$> aSystems)
              (Leaf <$> aSystems)) as (root & nodes & Hrun & Hleaves);
    [by destruct aSystems|done|].
  rewrite length_fmap in Hrun.
  exists root, nodes. split; [done|].
  rewrite Hleaves. unfold all_leaves. clear.
  induction aSystems as [|s l IH]; [done|]. simpl. by rewrite IH.
Qed.

Lemma GenBinExprTree_leaves (k : nat) (aSystems : list DESystem.t)
    (root : node) (nodes : list node) :
  GenBinExprTree k aSystems = Some (root, nodes) → leaves root ≡ₚ aSystems.
Proof.
  intros Hr.
  destruct (decide (aSystems = [])) as [->|Hne];
    [by rewrite GenBinExprTree_empty in Hr|].
  destruct (GenBinExprTree_total aSystems Hne) as (root' & nodes' & Hrun & Hl).
  unfold GenBinExprTree in Hr, Hrun.
  apply (reduce_mono _ (Nat.max k (length aSystems))) in Hr; [|lia].
  rewrite (Hrun (Nat.max k (length aSystems))) in Hr by lia. congruence.
Qed.

Lemma system_alphabet (n : node) (e : N) :
  in_alphabet (system n) e
  ↔ ∃ s, s ∈ leaves n ∧ EventsSet.test (DESystem.events_ s) e = true.
Proof.
  induction n as [s|lhs IHl rhs IHr].
  - change (leaves (Leaf s)) with [s]. split.
    + intros H. exists s. split; [left|done].
    + by intros (s' & ->%list_elem_of_singleton & H).
  - change (leaves (Sync lhs rhs)) with (leaves lhs ++ leaves rhs).
    change (in_alphabet (system (Sync lhs rhs)) e)
      with (EventsSet.test
              (N.lor (DESystemBase.GetEvents (system lhs))
                     (DESystemBase.GetEvents (system rhs))) e = true).
    rewrite test_lor, orb_true_iff. fold (in_alphabet (system lhs) e).
    fold (in_alphabet (system rhs) e). rewrite IHl, IHr. split.
    + intros [(s & Hs & H)|(s & Hs & H)]; exists s;
        (split; [apply elem_of_app; tauto|done]).
    + intros (s & [Hs|Hs]%elem_of_app & H); [left|right]; eauto.
Qed.

Lemma states_product_app (l1 l2 : list DESystem.t) :
  states_product (l1 ++ l2) = states_product l1 * states_product l2.
Proof.
  unfold states_product. rewrite fmap_app.
  induction (DESystem.states_number_ <$> l1) as [|n l IH];
    cbn [fold_right app]; [lia|].
  rewrite IH. lia.
Qed.

Lemma states_product_perm (l1 l2 : list DESystem.t) :
  l1 ≡ₚ l2 → states_product l1 = states_product l2.
Proof.
  unfold states_product.
  induction 1 as [|s l1 l2 _ IH|s1 s2 l| l1 l2 l3 _ IH1 _ IH2];
    rewrite ?fmap_cons; cbn [fold_right]; [done|by rewrite IH|lia|congruence].
Qed.

Lemma system_states_number (n : node) :
  DESystemBase.GetStatesNumber (system n) = states_product (leaves n).
Proof.
  induction n as [s|lhs IHl rhs IHr].
  - change (leaves (Leaf s)) with [s]. unfold states_product.
    rewrite fmap_cons. cbn [fold_right fmap list_fmap].
    change (DESystemBase.GetStatesNumber (system (Leaf s)))
      with (DESystem.states_number_ s). lia.
  - change (leaves (Sync lhs rhs)) with (leaves lhs ++ leaves rhs).
    rewrite states_product_app, <- IHl, <- IHr. done.
Qed.


End TreeRoot.

Section TreeRootMachine.

Import BinExprTree Contract Notions.

Variable w : N.

Lemma wrap_wrap (z : Z) :
  StorageIndex.wrap w (StorageIndex.wrap w z) = StorageIndex.wrap w z.
Proof.
  unfold StorageIndex.wrap. apply Z.mod_mod.
  assert (0 < 2 ^ Z.of_N w) by (apply Z.pow_pos_nonneg; lia). lia.
Qed.

Lemma wrap_mul (a b : Z) :
  StorageIndex.wrap w (a * b)
  = StorageIndex.wrap w (StorageIndex.wrap w a * StorageIndex.wrap w b).
Proof.
  unfold StorageIndex.wrap. apply Z.mul_mod.
  assert (0 < 2 ^ Z.of_N w) by (apply Z.pow_pos_nonneg; lia). lia.
Qed.

Lemma states_number_wrap (n : node) :
  StorageIndex.wrap w (StorageIndex.states_number w n)
  = StorageIndex.wrap w (states_product (leaves n)).
Proof.
  induction n as [s|lhs IHl rhs IHr].
  - change (leaves (Leaf s)) with [s]. unfold states_product.
    rewrite fmap_cons. cbn [fold_right fmap list_fmap].
    change (StorageIndex.states_number w (Leaf s))
      with (DESystem.states_number_ s). f_equal. lia.
  - change (leaves (Sync lhs rhs)) with (leaves lhs ++ leaves rhs).
    change (StorageIndex.states_number w (Sync lhs rhs))
      with (StorageIndex.wrap w (StorageIndex.states_number w lhs
                                 * StorageIndex.states_number w rhs)).
    rewrite wrap_wrap, states_product_app, wrap_mul, IHl, IHr, <- wrap_mul.
    done.
Qed.

Lemma states_product_pos (l : list DESystem.t) :
  Forall DESystem.valid l → 0 < states_product l.
Proof.
  unfold states_product. induction 1 as [|s l [Hs _] _ IH]; [done|].
  rewrite fmap_cons. cbn [fold_right]. unfold DESystem.in_range in Hs. nia.
Qed.

Lemma states_number_exact (n : node) :
  Forall DESystem.valid (leaves n) →
  states_product (leaves n) < 2 ^ Z.of_N w →
  StorageIndex.states_number w n = states_product (leaves n).
Proof.
  intros Hv Hfit. pose proof (states_product_pos _ Hv) as Hpos.
  pose proof (states_number_wrap n) as Hw.
  rewrite (wrap_small w (states_product (leaves n))) in Hw by lia.
  destruct n as [s|lhs rhs].
  - change (leaves (Leaf s)) with [s]. unfold states_product.
    rewrite fmap_cons. cbn [fold_right fmap list_fmap].
    change (StorageIndex.states_number w (Leaf s))
      with (DESystem.states_number_ s). lia.
  - rewrite <- Hw.
    change (StorageIndex.states_number w (Sync lhs rhs))
      with (StorageIndex.wrap w (StorageIndex.states_number w lhs
                                 * StorageIndex.states_number w rhs)).
    by rewrite wrap_wrap.
Qed.

(** X14.  The root of the tree built from a vector of valid automata: its
    alphabet is the union of the alphabets of the automata; its number of
    states, which the constructors compute on the index type, is the
    product of theirs modulo [2 ^ w]; when this product fits the index
    type the number of states is the product itself and the root answers
    its queries like a product. *)
Theorem tree_root (k : nat) (aSystems : list DESystem.t) (root : node)
    (nodes : list node) :
  Forall DESystem.valid aSystems →
  GenBinExprTree k aSystems = Some (root, nodes) →
  (∀ e, in_alphabet (system root) e
        ↔ ∃ s, s ∈ aSystems ∧ EventsSet.test (DESystem.events_ s) e = true)
  ∧ StorageIndex.wrap w (StorageIndex.states_number w root)
    = StorageIndex.wrap w (states_product aSystems)
  ∧ (states_product aSystems < 2 ^ Z.of_N w →
     StorageIndex.states_number w root = states_product aSystems
     ∧ DESystemBase.GetStatesNumber (system root) = states_product aSystems
     ∧ Contract.t (system root)).
Proof.
  intros Hv Hr. pose proof (GenBinExprTree_leaves k aSystems root nodes Hr) as Hl.
  assert (Hvl : Forall DESystem.valid (leaves root)) by by rewrite Hl.
  pose proof (states_product_perm _ _ Hl) as Hp.
  split; [|split].
  - intros e. rewrite system_alphabet. by setoid_rewrite Hl.
  - by rewrite states_number_wrap, Hp.
  - intros Hfit. split; [|split].
    + rewrite <- Hp. apply states_number_exact; [done|]. by rewrite Hp.
    + by rewrite system_states_number.
    + by apply system_contract.
Qed.

End TreeRootMachine.

Section Vectors.

Import BinExprTree Contract.


(** X16.  With an empty vector of plants or of specifications the reduction
    never reaches a single node: the synthesis returns with no fuel. *)
Theorem vectors_empty_diverges (k : nat) (aSystems : list DESystem.t)
    (aNonContr : gset N) :
  SynthVectors.SupervisorSynth_sys k [] aSystems aNonContr = None
  ∧ SynthVectors.SupervisorSynth_sys k aSystems [] aNonContr = None.
Proof.
  unfold SynthVectors.SupervisorSynth_sys.
  rewrite !GenBinExprTree_empty. split; [done|].
  by destruct (GenBinExprTree k aSystems).
Qed.

End Vectors.

(** ** The masks of uncontrollable events *)

Section UncontrollableMasks.

Import Contract Synth.

Variables (aP aE : DESystemBase.t).

Lemma non_contr_bits_equal (U : gset N) :
  (non_contr_bits aP (SuperProxy.SuperProxy aP aE U) U).1
  = (non_contr_bits aP (SuperProxy.SuperProxy aP aE U) U).2.
Proof.
  apply N.bits_inj. intros e. apply eq_true_iff_eq.
  destruct (test_non_contr_bits aP aE U e) as [H1 H2].
  fold (EventsSet.test (non_contr_bits aP (SuperProxy.SuperProxy aP aE U) U).1 e).
  fold (EventsSet.test (non_contr_bits aP (SuperProxy.SuperProxy aP aE U) U).2 e).
  rewrite H1, H2. split; [|tauto]. intros [HU HeP]. split; [done|].
  split; [done|].
  change (EventsSet.test
            (N.lor (DESystemBase.GetEvents aP) (DESystemBase.GetEvents aE)) e
          = true).
  rewrite test_lor. unfold in_alphabet in HeP. by rewrite HeP.
Qed.

Lemma non_contr_bits_plant (U U' : gset N) :
  (∀ e, in_alphabet aP e → e ∈ U ↔ e ∈ U') →
  non_contr_bits aP (SuperProxy.SuperProxy aP aE U) U
  = non_contr_bits aP (SuperProxy.SuperProxy aP aE U') U'.
Proof.
  intros HU.
  assert (H :
    (non_contr_bits aP (SuperProxy.SuperProxy aP aE U) U).1
    = (non_contr_bits aP (SuperProxy.SuperProxy aP aE U') U').1).
  { apply N.bits_inj. intros e. apply eq_true_iff_eq.
    destruct (test_non_contr_bits aP aE U e) as [H1 _].
    destruct (test_non_contr_bits aP aE U' e) as [H1' _].
    fold (EventsSet.test
            (non_contr_bits aP (SuperProxy.SuperProxy aP aE U) U).1 e).
    fold (EventsSet.test
            (non_contr_bits aP (SuperProxy.SuperProxy aP aE U') U').1 e).
    rewrite H1, H1'. specialize (HU e). tauto. }
  pose proof (non_contr_bits_equal U) as E.
  pose proof (non_contr_bits_equal U') as E'.
  destruct (non_contr_bits aP (SuperProxy.SuperProxy aP aE U) U) as [a b].
  destruct (non_contr_bits aP (SuperProxy.SuperProxy aP aE U') U') as [a' b'].
  simpl in *. congruence.
Qed.

(** X12.  The two masks of uncontrollable events that [SupervisorSynth] computes
    are equal: each holds the events of [aNonContr] that belong to the
    alphabet of the plant. *)
Theorem uncontrollable_masks (U : gset N) (e : N) :
  (non_contr_bits aP (SuperProxy.SuperProxy aP aE U) U).1
  = (non_contr_bits aP (SuperProxy.SuperProxy aP aE U) U).2
  ∧ (EventsSet.test (non_contr_bits aP (SuperProxy.SuperProxy aP aE U) U).1 e
     = true ↔ e ∈ U ∧ in_alphabet aP e).
Proof.
  split; [apply non_contr_bits_equal|].
  apply (test_non_contr_bits aP aE U e).
Qed.

(** X13.  An event outside the alphabet of the plant is handled as a controllable
    one, whether [aNonContr] holds it or not: two sets of uncontrollable
    events that agree on the alphabet of the plant give the same
    exploration and the same system. *)
Theorem uncontrollable_outside_plant (k : nat) (U U' : gset N) :
  (∀ e, in_alphabet aP e → e ∈ U ↔ e ∈ U') →
  explore k aP aE U = explore k aP aE U'
  ∧ SupervisorSynth_sys k aP aE U = SupervisorSynth_sys k aP aE U'.
Proof.
  intros HU.
  assert (He : explore k aP aE U = explore k aP aE U').
  { unfold explore. cbv zeta. by rewrite (non_contr_bits_plant U U' HU). }
  split; [done|]. unfold SupervisorSynth_sys. by rewrite He.
Qed.

End UncontrollableMasks.

(** ** The materialised system *)

Section MaterialisedSystem.

Import Synth Materialise.

Variables (aP aE : DESystemBase.t) (aNonContr : gset N).

Let V : SuperProxy.t := SuperProxy.SuperProxy aP aE aNonContr.

Lemma StronglySorted_lookup_le (l : list Z) (i j : nat) (a b : Z) :
  StronglySorted Z.le l → l !! i = Some a → l !! j = Some b → (i < j)%nat →
  a ≤ b.
Proof.
  intros Hs. revert i j. induction Hs as [|x l Hs IH Hall]; intros i j Hi Hj Hij.
  - done.
  - destruct j as [|j]; [lia|]. simpl in Hj. destruct i as [|i]; simpl in Hi.
    + injection Hi as <-. rewrite Forall_forall in Hall. apply Hall.
      by apply (list_elem_of_lookup_2 _ j).
    + apply (IH i j); [done|done|lia].
Qed.

Lemma sorted_keys (c : TransMap) :
  StronglySorted Z.le (sort_states (map_to_list c).*1)
  ∧ NoDup (sort_states (map_to_list c).*1)
  ∧ length (sort_states (map_to_list c).*1) = size c.
Proof.
  unfold sort_states. split; [|split].
  - apply Sorted_StronglySorted; [intros x y z; lia|].
    apply Sorted_merge_sort; apply _.
  - rewrite merge_sort_Permutation. apply NoDup_fst_map_to_list.
  - rewrite merge_sort_Permutation, length_fmap. apply length_map_to_list.
Qed.

Lemma rank_lookup (c : TransMap) (k : Z) :
  k ∈ dom c →
  ∃ i, sort_states (map_to_list c).*1 !! i = Some k
       ∧ rank (map_to_list c).*1 k = Z.of_nat i
       ∧ (i < size c)%nat.
Proof.
  intros Hk. destruct (sorted_keys c) as (_ & Hnd & Hlen).
  assert (Hin : k ∈ sort_states (map_to_list c).*1)
    by by rewrite elem_of_sort_states, elem_of_keys.
  apply list_elem_of_lookup in Hin as [i Hi]. exists i. split; [done|]. split.
  - by apply (proj2 (rank_position c i k)).
  - rewrite <- Hlen. by apply lookup_lt_Some in Hi.
Qed.

(** X17.  The renumbering of the survivors is dense and keeps their order. *)
Theorem rank_order (c : TransMap) (k1 k2 : Z) :
  k1 ∈ dom c → k2 ∈ dom c →
  0 ≤ rank (map_to_list c).*1 k1 < Z.of_nat (size c)
  ∧ (rank (map_to_list c).*1 k1 < rank (map_to_list c).*1 k2 ↔ k1 < k2).
Proof.
  intros H1 H2.
  destruct (rank_lookup c k1 H1) as (i1 & Hi1 & -> & Hlt1).
  destruct (rank_lookup c k2 H2) as (i2 & Hi2 & -> & Hlt2).
  destruct (sorted_keys c) as (Hs & Hnd & _).
  split; [lia|].
  assert (Hmono : ∀ i j a b,
    sort_states (map_to_list c).*1 !! i = Some a →
    sort_states (map_to_list c).*1 !! j = Some b → (i < j)%nat → a < b).
  { intros i j a b Hi Hj Hij.
    pose proof (StronglySorted_lookup_le _ i j a b Hs Hi Hj Hij) as Hle.
    destruct (decide (a = b)) as [->|Hne]; [|lia].
    pose proof (NoDup_lookup _ i j b Hnd Hi Hj). lia. }
  split.
  - intros Hlt. apply (Hmono i1 i2); [done|done|lia].
  - intros Hlt. destruct (decide (i1 < i2)%nat) as [?|Hge]; [lia|].
    destruct (decide (i1 = i2)) as [->|Hne]; [rewrite Hi1 in Hi2; injection Hi2; lia|].
    pose proof (Hmono i2 i1 k2 k1 Hi2 Hi1 ltac:(lia)). lia.
Qed.

(** X18.  The graph of the materialised system is in range: the two indices
    of every triplet handed to it, and of every entry of the matrix built
    from the triplets that holds an event, are states of the system; the
    events of the entries are below 64. *)
Theorem materialised_graph_in_range (c : TransMap) :
  let sys := to_DESystem (with_survivors V c) in
  Forall (λ tr, DESystem.in_range sys tr.1.1 ∧ DESystem.in_range sys tr.1.2)
    (DESystem.graph_ sys)
  ∧ ∀ from to b,
      EventsSet.test (DESystem.coeff sys from to) b = true →
      DESystem.in_range sys from ∧ DESystem.in_range sys to ∧ (b < 64)%N.
Proof.
  intros sys. pose proof (materialised aP aE aNonContr c) as (Hn & _ & Hg).
  fold V in Hn, Hg. fold sys in Hn, Hg.
  assert (Hr : ∀ t, t ∈ recorded_transitions (map_to_list c) → t.1.2 ∈ dom c →
    DESystem.in_range sys (rank (map_to_list c).*1 t.1.1)
    ∧ DESystem.in_range sys (rank (map_to_list c).*1 t.1.2)).
  { intros t Ht Hto.
    apply elem_of_recorded_transitions in Ht as (l & Hl & _).
    assert (Hfrom : t.1.1 ∈ dom c) by (apply elem_of_dom; eauto).
    destruct (rank_lookup c _ Hfrom) as (i & _ & Hi & Hlt).
    destruct (rank_lookup c _ Hto) as (j & _ & Hj & Hlt').
    unfold DESystem.in_range. rewrite Hn, Hi, Hj. lia. }
  split.
  - apply Forall_forall. intros tr Htr. rewrite Hg in Htr.
    apply list_elem_of_fmap in Htr as (t & -> & Ht).
    apply list_elem_of_filter in Ht as [Hto Ht]. by apply Hr.
  - intros from to b Hb.
    apply (coeff_materialised aP aE aNonContr c) in Hb
      as (t & Ht & Hto & -> & -> & ->).
    destruct (Hr t Ht Hto) as [H1 H2]. split; [done|]. split; [done|].
    apply N.mod_lt. done.
Qed.

End MaterialisedSystem.

Section MaterialisedMarks.

Import Synth Materialise.

Variables (aP aE : DESystemBase.t) (aNonContr : gset N).

Let V : SuperProxy.t := SuperProxy.SuperProxy aP aE aNonContr.

Lemma elem_of_remap_inner (sm : gmap Z Z) (n0 s0 : Z) (l1 : list Z)
    (acc : gset Z) (q : Z) :
  q ∈ foldl (λ acc s1,
               let key := s1 * n0 + s0 in
               if decide (is_Some (sm !! key))
               then {[ at_key sm key ]} ∪ acc else acc) acc l1
  ↔ q ∈ acc
    ∨ ∃ s1, s1 ∈ l1 ∧ is_Some (sm !! (s1 * n0 + s0))
            ∧ q = at_key sm (s1 * n0 + s0).
Proof.
  revert acc. induction l1 as [|s l1 IH]; intros acc.
  - simpl. split; [by left|]. intros [?|(s1 & H & _)]; [done|].
    by apply elem_of_nil in H.
  - cbn [foldl]. rewrite IH. cbv zeta.
    destruct (decide (is_Some (sm !! (s * n0 + s0)))) as [Hs|Hs].
    + rewrite elem_of_union, elem_of_singleton. split.
      * intros [[->|?]|(s1 & H1 & H2)]; [right|by left|right].
        -- exists s. split; [left|done].
        -- exists s1. split; [by right|done].
      * intros [?|(s1 & [->|H1]%elem_of_cons & H2 & H3)];
          [left; by right|left; by left|right; eauto].
    + split.
      * intros [?|(s1 & H1 & H2)]; [by left|right].
        exists s1. split; [by right|done].
      * intros [?|(s1 & [->|H1]%elem_of_cons & H2 & H3)];
          [by left|done|right; eauto].
Qed.

Lemma elem_of_remap_marked (W : SuperProxy.t) (sm : gmap Z Z)
    (marked : gset Z) (q : Z) :
  q ∈ remap_marked W sm marked
  ↔ q ∈ marked
    ∨ ∃ s0 s1,
        s0 ∈ DESystemBase.GetMarkedStates (SuperProxy.sys0_ W)
        ∧ s1 ∈ DESystemBase.GetMarkedStates (SuperProxy.sys1_ W)
        ∧ is_Some (sm !! (s1 * SuperProxy.n_states_sys0_ W + s0))
        ∧ q = at_key sm (s1 * SuperProxy.n_states_sys0_ W + s0).
Proof.
  unfold remap_marked.
  setoid_rewrite <- (elem_of_elements
                       (DESystemBase.GetMarkedStates (SuperProxy.sys0_ W))).
  setoid_rewrite <- (elem_of_elements
                       (DESystemBase.GetMarkedStates (SuperProxy.sys1_ W))).
  generalize (elements (DESystemBase.GetMarkedStates (SuperProxy.sys1_ W))).
  generalize (elements (DESystemBase.GetMarkedStates (SuperProxy.sys0_ W))).
  intros l0 l1. revert marked.
  induction l0 as [|s l0 IH]; intros marked.
  - simpl. split; [by left|]. intros [?|(s0 & s1 & H & _)]; [done|].
    by apply elem_of_nil in H.
  - cbn [foldl]. rewrite IH, elem_of_remap_inner. split.
    + intros [[?|(s1 & H1 & H2)]|(s0 & s1 & H0 & H)]; [by left|right|right].
      * exists s, s1. split; [left|done].
      * exists s0, s1. split; [by right|done].
    + intros [?|(s0 & s1 & [->|H0]%elem_of_cons & H)];
        [left; by left|left; right; eauto|right; eauto].
Qed.

(** X19.  The marked states of the materialised system: the marked virtual
    indices that the constructor computed are still there, and the new
    index of every surviving pair of marked states joins them. *)
Theorem materialised_marked (c : TransMap) (q : Z) :
  q ∈ DESystem.marked_states_ (to_DESystem (with_survivors V c))
  ↔ q ∈ SuperProxy.marked_states_ V
    ∨ ∃ q0 q1,
        q0 ∈ DESystemBase.GetMarkedStates aP
        ∧ q1 ∈ DESystemBase.GetMarkedStates aE
        ∧ q1 * DESystemBase.GetStatesNumber aP + q0 ∈ dom c
        ∧ q = rank (map_to_list c).*1
                (q1 * DESystemBase.GetStatesNumber aP + q0).
Proof.
  unfold to_DESystem. cbn [DESystem.marked_states_].
  unfold SynchronizeStage2.
  set (W := with_virtual_states (with_survivors V c)
              (sort_states (SuperProxy.virtual_states_ (with_survivors V c)))).
  pose proof (foldl_map_state_bits (SuperProxy.virtual_states_ W) ∅
                (SuperProxy.bittriplet_ W) 0) as Hsm.
  destruct (foldl map_state (∅, SuperProxy.bittriplet_ W, 0)
              (SuperProxy.virtual_states_ W)) as [[sm bt] cst].
  destruct (foldl (emit_state sm) _ _) as [tr bt'].
  cbn [SuperProxy.marked_states_]. rewrite elem_of_remap_marked.
  simpl in Hsm. subst sm.
  change (foldl map_state (∅, [], 0) (SuperProxy.virtual_states_ W)).1.1
    with (renumbering (sort_states (map_to_list c).*1)).
  change (SuperProxy.marked_states_ W) with (SuperProxy.marked_states_ V).
  change (SuperProxy.sys0_ W) with aP. change (SuperProxy.sys1_ W) with aE.
  change (SuperProxy.n_states_sys0_ W) with (DESystemBase.GetStatesNumber aP).
  apply or_iff_compat_l.
  split; intros (q0 & q1 & H0 & H1 & Hk & ->); exists q0, q1;
    (split; [done|]); (split; [done|]); (split; [|done]).
  - apply renumbering_is_Some in Hk.
    by rewrite elem_of_sort_states, elem_of_keys in Hk.
  - apply renumbering_is_Some. by rewrite elem_of_sort_states, elem_of_keys.
Qed.

End MaterialisedMarks.

Section MaterialisedBitGraph.

Import Synth Materialise Notions.

Variables (aP aE : DESystemBase.t) (aNonContr : gset N).

Let V : SuperProxy.t := SuperProxy.SuperProxy aP aE aNonContr.

Lemma foldl_map_state_diagonal (l : list Z) (m : gmap Z Z)
    (bt : list (Z * Z * bool)) (cst : Z) :
  (foldl map_state (m, bt, cst) l).1.2
  = bt ++ ((λ i, (i, i, true)) <$> seqZ cst (Z.of_nat (length l))).
Proof.
  revert m bt cst. induction l as [|s l IH]; intros m bt cst.
  - simpl. by rewrite app_nil_r.
  - rewrite foldl_map_state_cons, IH, <- app_assoc. f_equal.
    rewrite length_cons, Nat2Z.inj_succ.
    rewrite (seqZ_cons cst) by lia.
    rewrite fmap_cons, Z.pred_succ. done.
Qed.

Lemma foldl_emit_transition_both (sm : gmap Z Z) (q : Z) (l : list (Z * N))
    (tr : list (Z * Z * EventsSet.t)) (bt : list (Z * Z * bool)) :
  foldl (emit_transition sm q) (tr, bt) l
  = (tr ++ (render sm
              <$> filter (λ t, is_Some (sm !! t.1.2))
                    ((λ qto_e, (q, qto_e.1, qto_e.2)) <$> l)),
     bt ++ (transposed ∘ render sm
              <$> filter (λ t, is_Some (sm !! t.1.2))
                    ((λ qto_e, (q, qto_e.1, qto_e.2)) <$> l))).
Proof.
  revert tr bt. induction l as [|[qto e] l IH]; intros tr bt.
  - simpl. by rewrite !app_nil_r.
  - change (foldl (emit_transition sm q) (tr, bt) ((qto, e) :: l))
      with (foldl (emit_transition sm q)
              (emit_transition sm q (tr, bt) (qto, e)) l).
    unfold emit_transition at 2. simpl fst. simpl snd.
    rewrite fmap_cons, filter_cons. simpl.
    destruct (decide (is_Some (sm !! qto))); rewrite IH; [|done].
    by rewrite <- !app_assoc.
Qed.

Lemma foldl_emit_state_both (sm : gmap Z Z)
    (tt : list (Z * SuperProxy.InvArgTrans))
    (tr : list (Z * Z * EventsSet.t)) (bt : list (Z * Z * bool)) :
  foldl (emit_state sm) (tr, bt) tt
  = (tr ++ (render sm
              <$> filter (λ t, is_Some (sm !! t.1.2))
                    (q_trans ← tt;
                     (λ qto_e, (q_trans.1, qto_e.1, qto_e.2))
                       <$> rev q_trans.2)),
     bt ++ (transposed ∘ render sm
              <$> filter (λ t, is_Some (sm !! t.1.2))
                    (q_trans ← tt;
                     (λ qto_e, (q_trans.1, qto_e.1, qto_e.2))
                       <$> rev q_trans.2))).
Proof.
  revert tr bt. induction tt as [|[q l] tt IH]; intros tr bt.
  - simpl. by rewrite !app_nil_r.
  - change (foldl (emit_state sm) (tr, bt) ((q, l) :: tt))
      with (foldl (emit_state sm) (emit_state sm (tr, bt) (q, l)) tt).
    unfold emit_state at 2. simpl fst. simpl snd.
    rewrite foldl_emit_transition_both, IH.
    rewrite bind_cons, filter_app, !fmap_app, <- !app_assoc. done.
Qed.

(** X20.  The bit graph of the materialised system is the diagonal followed by
    the transpose of the graph: one entry [(i, i)] for each state, in
    ascending order, then one entry [(to, from)] for each triplet
    [(from, to, events)] of the graph, in the order of the graph. *)
Theorem materialised_bit_graph (c : TransMap) :
  let sys := to_DESystem (with_survivors V c) in
  DESystem.bit_graph_ sys
  = ((λ i, (i, i, true)) <$> seqZ 0 (DESystem.states_number_ sys))
    ++ (transposed <$> DESystem.graph_ sys).
Proof.
  unfold to_DESystem. cbv zeta.
  cbn [DESystem.bit_graph_ DESystem.graph_ DESystem.states_number_].
  unfold SynchronizeStage2.
  set (W := with_virtual_states (with_survivors V c)
              (sort_states (SuperProxy.virtual_states_ (with_survivors V c)))).
  pose proof (foldl_map_state_diagonal (SuperProxy.virtual_states_ W) ∅
                (SuperProxy.bittriplet_ W) 0) as Hbt.
  destruct (foldl map_state (∅, SuperProxy.bittriplet_ W, 0)
              (SuperProxy.virtual_states_ W)) as [[sm bt] cst].
  rewrite foldl_emit_state_both.
  cbn [SuperProxy.bittriplet_ SuperProxy.triplet_ SuperProxy.states_number_].
  simpl in Hbt. rewrite Hbt.
  change (SuperProxy.triplet_ W) with (@nil (Z * Z * EventsSet.t)).
  rewrite app_nil_l, list_fmap_compose. done.
Qed.

End MaterialisedBitGraph.

(** ** The supervisor as a part of the product *)

Section SupervisorGraph.

Import Contract.
Import Synth Materialise.

Variables (aP aE : DESystemBase.t) (aNonContr : gset N).
Hypotheses (HP : Contract.t aP) (HE : Contract.t aE).

Let V : SuperProxy.t := SuperProxy.SuperProxy aP aE aNonContr.

(** X6.  The supervisor before trimming is the product restricted to the
    survivors: the matrix of its graph holds an event at a pair of
    indices iff these are the new indices of a survivor and of a surviving
    successor of it in the product, and the event is the one of this
    transition, modulo 64. *)
Theorem supervisor_subautomaton :
  ∃ fuel c rm sys,
    (∀ k, (fuel ≤ k)%nat →
          explore k aP aE aNonContr = Some ([], c, rm)
          ∧ SupervisorSynth_sys k aP aE aNonContr = Some sys)
    ∧ ∀ from to b,
        EventsSet.test (DESystem.coeff sys from to) b = true
        ↔ ∃ q e,
            q ∈ dom c
            ∧ SuperProxy.ContainsTrans V q e = true
            ∧ SuperProxy.Trans V q e ∈ dom c
            ∧ from = rank (map_to_list c).*1 q
            ∧ to = rank (map_to_list c).*1 (SuperProxy.Trans V q e)
            ∧ b = (e mod 64)%N.
Proof.
  destruct (explore_invariant aP aE aNonContr HP HE)
    as (fuel & c & rm & Hrun & Hinv).
  destruct Hinv as [_ _ _ Hsurv _ _ _ _]. simpl in *. fold V in Hsurv.
  pose proof (product_contract aP aE aNonContr HP HE) as HV. fold V in HV.
  exists fuel, c, rm, (to_DESystem (with_survivors V c)).
  split.
  { intros k Hk. split; [by apply Hrun|].
    unfold SupervisorSynth_sys. by rewrite (Hrun k Hk). }
  intros from to b.
  pose proof (coeff_materialised aP aE aNonContr c from to b) as Hco.
  fold V in Hco. rewrite Hco. split.
  - intros (t & Ht & Hto & -> & -> & ->).
    apply elem_of_recorded_transitions in Ht as (l & Hl & Hin).
    destruct (Hsurv _ l Hl) as (-> & _ & _ & _).
    apply elem_of_recorded in Hin as [He Heq].
    exists t.1.1, t.2. rewrite <- Heq.
    split; [apply elem_of_dom; eauto|]. split; [|done].
    etrans; [apply (proj1 (agree _ HV t.1.1 t.2))|done].
  - intros (q & e & [l Hl]%elem_of_dom & Hc & Hto & -> & -> & ->).
    exists (q, SuperProxy.Trans V q e, e). split; [|done].
    apply elem_of_recorded_transitions. exists l. split; [done|].
    destruct (Hsurv _ l Hl) as (-> & _ & _ & _).
    apply elem_of_recorded. split; [|done].
    etrans; [symmetry; apply (proj1 (agree _ HV q e))|done].
Qed.

End SupervisorGraph.

Section ProductStates.

Import DESystemBase Contract.

Variables (X Y : DESystemBase.t) (aNonContr : gset N).
Hypotheses (HX : Contract.t X) (HY : Contract.t Y).

Let V : SuperProxy.t := SuperProxy.SuperProxy X Y aNonContr.

(** X10.  The states of the product are the pairs of states of its operands:
    the initial state is the pair of the initial states, and a marked
    state of the product is a pair of marked states; the pair of two
    marked states that are states of the operands is a marked state of the
    product. *)
Theorem product_pairs :
  (∀ q, q ∈ GetMarkedStates X → is_state X q) →
  SuperProxy.init_state_ V mod GetStatesNumber X = GetInitialState X
  ∧ SuperProxy.init_state_ V / GetStatesNumber X = GetInitialState Y
  ∧ ∀ q, q ∈ SuperProxy.marked_states_ V
         ↔ q mod GetStatesNumber X ∈ GetMarkedStates X
           ∧ q / GetStatesNumber X ∈ GetMarkedStates Y.
Proof.
  intros Hm. pose proof (init_is_state _ HX) as Hi.
  split; [|split].
  - apply (pair_mod X). done.
  - apply (pair_div X). done.
  - intros q. unfold V. rewrite elem_of_marked_states. split.
    + intros (q0 & q1 & H0 & H1 & ->).
      rewrite (pair_mod X), (pair_div X) by by apply Hm. done.
    + intros [H0 H1]. exists (q mod GetStatesNumber X), (q / GetStatesNumber X).
      split; [done|]. split; [done|].
      pose proof (states_number_pos X HX).
      rewrite (Z.div_mod q (GetStatesNumber X)) at 1 by lia. lia.
Qed.

End ProductStates.

(** ** The properties on the scenarios *)

Section OnTheScenarios.

Import Scenario Scenario2 Synth Materialise.

Let P : DESystemBase.t := DESystem.as_base plant_S1.
Let E : DESystemBase.t := DESystem.as_base spec_S2.
Let V : SuperProxy.t := SuperProxy.SuperProxy P E non_contr.

Lemma plant_S1_valid : DESystem.valid plant_S1.
Proof.
  split; [unfold DESystem.in_range; simpl; lia
         |repeat constructor; unfold DESystem.in_range; simpl; lia].
Qed.

Lemma spec_S2_valid : DESystem.valid spec_S2.
Proof.
  split; [unfold DESystem.in_range; simpl; lia
         |repeat constructor; unfold DESystem.in_range; simpl; lia].
Qed.

Lemma spec_blocks_b0_contract : Contract.t (DESystem.as_base spec_blocks_b0).
Proof.
  apply concrete_contract.
  split; [unfold DESystem.in_range; simpl; lia
         |repeat constructor; unfold DESystem.in_range; simpl; lia].
Qed.

Lemma plant_S1_sound : Inverse.sound P.
Proof. apply concrete_inverse_sound. reflexivity. Qed.

Lemma spec_S2_sound : Inverse.sound E.
Proof. apply concrete_inverse_sound. reflexivity. Qed.

Lemma exploration_closed_witness :
  Contract.t P ∧ Contract.t E
  ∧ ∃ fuel c rm,
      (∀ k, (fuel ≤ k)%nat → explore k P E non_contr = Some ([], c, rm))
      ∧ dom c ∩ rm = ∅
      ∧ SuperProxy.init_state_ V ∈ dom c ∪ rm.
Proof.
  split; [apply plant_S1_contract|]. split; [apply spec_S2_contract|].
  destruct (exploration_closed P E non_contr plant_S1_contract
              spec_S2_contract) as (fuel & c & rm & Hrun & Hd & Hi & _).
  exists fuel, c, rm. split; [exact Hrun|]. split; [exact Hd|exact Hi].
Defined.

Lemma killed_closed_backwards_witness :
  Contract.t P ∧ Contract.t E
  ∧ ∃ fuel c rm,
      (∀ k, (fuel ≤ k)%nat → explore k P E non_contr = Some ([], c, rm))
      ∧ ∀ x, x ∈ rm → Contract.is_state (SuperProxy.as_base V) x.
Proof.
  split; [apply plant_S1_contract|]. split; [apply spec_S2_contract|].
  destruct (killed_closed_backwards P E non_contr plant_S1_contract
              spec_S2_contract) as (fuel & c & rm & Hrun & Hk).
  exists fuel, c, rm. split; [exact Hrun|].
  intros x Hx. exact (proj1 (Hk x Hx)).
Defined.

Lemma supervisor_controllable_witness :
  Contract.t P ∧ Contract.t E
  ∧ ∃ fuel c rm sys,
      (∀ k, (fuel ≤ k)%nat →
            explore k P E non_contr = Some ([], c, rm)
            ∧ SupervisorSynth_sys k P E non_contr = Some sys)
      ∧ ∀ q e,
          q ∈ dom c → e ∈ non_contr →
          EventsSet.test
            (DESystemBase.GetStateEvents P
               (q mod DESystemBase.GetStatesNumber P)) e = true →
          SuperProxy.Trans V q e ∈ dom c.
Proof.
  split; [apply plant_S1_contract|]. split; [apply spec_S2_contract|].
  destruct (supervisor_controllable P E non_contr plant_S1_contract
              spec_S2_contract) as (fuel & c & rm & sys & Hrun & Hc).
  exists fuel, c, rm, sys. split; [exact Hrun|].
  intros q e Hq He Hp. exact (proj1 (proj2 (Hc q e Hq He Hp))).
Defined.

Lemma killed_for_cause_witness :
  Contract.t P ∧ Contract.t E ∧ Inverse.sound P ∧ Inverse.sound E
  ∧ ∃ fuel c rm,
      (∀ k, (fuel ≤ k)%nat → explore k P E non_contr = Some ([], c, rm))
      ∧ ∀ x, x ∈ rm →
             ∃ b, b ∈ rm
                  ∧ Invariant.leads V
                      (λ e, e ∈ non_contr ∧ Contract.in_alphabet P e) x b.
Proof.
  split; [apply plant_S1_contract|]. split; [apply spec_S2_contract|].
  split; [apply plant_S1_sound|]. split; [apply spec_S2_sound|].
  destruct (killed_for_cause P E non_contr plant_S1_contract
              spec_S2_contract plant_S1_sound spec_S2_sound)
    as (fuel & c & rm & Hrun & Hk).
  exists fuel, c, rm. split; [exact Hrun|].
  intros x Hx. destruct (Hk x Hx) as (b & Hb & _ & _ & Hl).
  exists b. split; [exact Hb|exact Hl].
Defined.

Lemma supervisor_subautomaton_witness :
  Contract.t P ∧ Contract.t E
  ∧ ∃ fuel c rm sys,
      (∀ k, (fuel ≤ k)%nat →
            explore k P E non_contr = Some ([], c, rm)
            ∧ SupervisorSynth_sys k P E non_contr = Some sys)
      ∧ ∀ from to b,
          EventsSet.test (DESystem.coeff sys from to) b = true →
          ∃ q e, q ∈ dom c ∧ SuperProxy.ContainsTrans V q e = true
                 ∧ SuperProxy.Trans V q e ∈ dom c.
Proof.
  split; [apply plant_S1_contract|]. split; [apply spec_S2_contract|].
  destruct (supervisor_subautomaton P E non_contr plant_S1_contract
              spec_S2_contract) as (fuel & c & rm & sys & Hrun & Hg).
  exists fuel, c, rm, sys. split; [exact Hrun|].
  intros from to b Hb.
  destruct (proj1 (Hg from to b) Hb) as (q & e & Hq & Hc & Ht & _).
  exists q, e. split; [exact Hq|]. split; [exact Hc|exact Ht].
Defined.

(** The plant of S3 enables the uncontrollable [b0] in its only state; the
    specification knows [b0] and does not enable it in its initial
    state. *)
Lemma init_killed_no_survivor_witness :
  let aP := DESystem.as_base (plant_S3 ∅) in
  let aE := DESystem.as_base spec_blocks_b0 in
  let W := SuperProxy.SuperProxy aP aE non_contr in
  Contract.t aP ∧ Contract.t aE
  ∧ enabled_u aP W (non_contr_bits aP W non_contr).1 (SuperProxy.init_state_ W)
    ≠ required_u aP W (non_contr_bits aP W non_contr).1
        (SuperProxy.init_state_ W)
  ∧ ∃ fuel rm sys,
      (∀ k, (fuel ≤ k)%nat →
            explore k aP aE non_contr = Some ([], ∅, rm)
            ∧ SupervisorSynth_sys k aP aE non_contr = Some sys)
      ∧ DESystem.states_number_ sys = 0.
Proof.
  intros aP aE W.
  split; [apply plant_S3_contract|]. split; [apply spec_blocks_b0_contract|].
  split; [vm_compute; discriminate|].
  destruct (init_killed_no_survivor aP aE non_contr (plant_S3_contract ∅)
              spec_blocks_b0_contract)
    as (fuel & rm & sys & Hrun & _ & Hn & _).
  - vm_compute. discriminate.
  - exists fuel, rm, sys. split; [exact Hrun|exact Hn].
Defined.

Lemma contains_trans_iff_trans_witness :
  Contract.t P ∧ Contract.t E
  ∧ Contract.is_state (SuperProxy.as_base V) 5
  ∧ (SuperProxy.ContainsTrans V 5 b0 = true ↔ SuperProxy.Trans V 5 b0 ≠ -1).
Proof.
  split; [apply plant_S1_contract|]. split; [apply spec_S2_contract|].
  split; [unfold Contract.is_state; simpl; lia|].
  apply (contains_trans_iff_trans P E non_contr plant_S1_contract
           spec_S2_contract 5 b0).
  unfold Contract.is_state; simpl; lia.
Defined.

Lemma trans_components_witness :
  Contract.t P ∧ Contract.t E
  ∧ (0 < 32)%N
  ∧ DESystemBase.GetStatesNumber P * DESystemBase.GetStatesNumber E
    ≤ 2 ^ Z.of_N 32
  ∧ Contract.is_state (SuperProxy.as_base V) 0
  ∧ SuperProxy.Trans V 0 a0 ≠ -1
  ∧ StorageIndex.wrap 32 (StorageIndex.Trans 32 V 0 a0) = SuperProxy.Trans V 0 a0
  ∧ StorageIndex.wrap 32 (StorageIndex.Trans 32 V 0 a0)
      mod DESystemBase.GetStatesNumber P
    = (if DESystemBase.ContainsTrans P (0 mod DESystemBase.GetStatesNumber P) a0
       then DESystemBase.Trans P (0 mod DESystemBase.GetStatesNumber P) a0
       else 0 mod DESystemBase.GetStatesNumber P).
Proof.
  assert (Hfit : DESystemBase.GetStatesNumber P * DESystemBase.GetStatesNumber E
                 ≤ 2 ^ Z.of_N 32) by (vm_compute; discriminate).
  split; [apply plant_S1_contract|]. split; [apply spec_S2_contract|].
  split; [reflexivity|]. split; [exact Hfit|].
  split; [unfold Contract.is_state; simpl; lia|].
  split; [vm_compute; discriminate|].
  destruct (trans_components 32 P E non_contr plant_S1_contract
              spec_S2_contract 0 a0) as (_ & H1 & H2 & _).
  - reflexivity.
  - exact Hfit.
  - unfold Contract.is_state; simpl; lia.
  - vm_compute. discriminate.
  - split; [exact H1|exact H2].
Defined.

(** State 0 is in the inverse list of state 1 on [a0]. *)
Lemma inverse_lists_predecessors_witness :
  Contract.t P ∧ Contract.t E ∧ Inverse.sound P ∧ Inverse.sound E
  ∧ Contract.is_state (SuperProxy.as_base V) 1
  ∧ 0 ∈ SuperProxy.InvTrans V 1 a0
  ∧ SuperProxy.ContainsTrans V 0 a0 = true ∧ SuperProxy.Trans V 0 a0 = 1.
Proof.
  split; [apply plant_S1_contract|]. split; [apply spec_S2_contract|].
  split; [apply plant_S1_sound|]. split; [apply spec_S2_sound|].
  split; [unfold Contract.is_state; simpl; lia|].
  split; [vm_compute; left|].
  apply (inverse_lists_predecessors P E non_contr plant_S1_contract
           spec_S2_contract 1 a0 0 plant_S1_sound spec_S2_sound).
  - unfold Contract.is_state; simpl; lia.
  - vm_compute. left.
Defined.

Lemma product_pairs_witness :
  Contract.t P
  ∧ (∀ q, q ∈ DESystemBase.GetMarkedStates P → Contract.is_state P q)
  ∧ SuperProxy.init_state_ V mod DESystemBase.GetStatesNumber P
    = DESystemBase.GetInitialState P
  ∧ SuperProxy.init_state_ V / DESystemBase.GetStatesNumber P
    = DESystemBase.GetInitialState E.
Proof.
  assert (Hm : ∀ q, q ∈ DESystemBase.GetMarkedStates P → Contract.is_state P q).
  { intros q Hq. unfold Contract.is_state. simpl in *. set_solver by lia. }
  split; [apply plant_S1_contract|]. split; [exact Hm|].
  destruct (product_pairs P E non_contr plant_S1_contract Hm) as (H1 & H2 & _).
  split; [exact H1|exact H2].
Defined.

End OnTheScenarios.

Section OnTheVectors.

Import Scenario Synth Materialise BinExprTree.

Lemma tree_root_witness :
  Forall DESystem.valid [plant_S1; spec_S2]
  ∧ GenBinExprTree 2 [plant_S1; spec_S2]
    = Some (Sync (Leaf spec_S2) (Leaf plant_S1),
            [Leaf plant_S1; Leaf spec_S2; Sync (Leaf spec_S2) (Leaf plant_S1)])
  ∧ Notions.states_product [plant_S1; spec_S2] < 2 ^ Z.of_N 32
  ∧ StorageIndex.states_number 32 (Sync (Leaf spec_S2) (Leaf plant_S1))
    = Notions.states_product [plant_S1; spec_S2]
  ∧ Contract.t (system (Sync (Leaf spec_S2) (Leaf plant_S1))).
Proof.
  assert (Hv : Forall DESystem.valid [plant_S1; spec_S2]).
  { constructor; [apply plant_S1_valid|].
    constructor; [apply spec_S2_valid|constructor]. }
  assert (Hfit : Notions.states_product [plant_S1; spec_S2] < 2 ^ Z.of_N 32)
    by reflexivity.
  split; [exact Hv|]. split; [reflexivity|]. split; [exact Hfit|].
  destruct (tree_root 32 2 [plant_S1; spec_S2] _ _ Hv eq_refl)
    as (_ & _ & Hex).
  destruct (Hex Hfit) as (Hn & _ & Hc). split; [exact Hn|exact Hc].
Defined.


(** [a0] is not an event of the plant of S3: declaring it uncontrollable
    changes nothing.  The exploration ends with both states of the
    product killed. *)
Lemma uncontrollable_outside_plant_witness :
  let aP := DESystem.as_base (plant_S3 ∅) in
  let aE := DESystem.as_base spec_S2 in
  (∀ e, Contract.in_alphabet aP e
        → e ∈ ({[ b0 ]} : gset N) ↔ e ∈ ({[ b0; a0 ]} : gset N))
  ∧ explore 8 aP aE {[ b0; a0 ]} = explore 8 aP aE {[ b0 ]}
  ∧ explore 8 aP aE {[ b0 ]} = Some ([], ∅, {[ 0; 1 ]})
  ∧ SupervisorSynth_sys 8 aP aE {[ b0; a0 ]}
    = SupervisorSynth_sys 8 aP aE {[ b0 ]}.
Proof.
  intros aP aE.
  assert (HU : ∀ e, Contract.in_alphabet aP e
                    → e ∈ ({[ b0 ]} : gset N) ↔ e ∈ ({[ b0; a0 ]} : gset N)).
  { intros e He. unfold Contract.in_alphabet in He. simpl in He.
    unfold EventsSet.set in He. fold (EventsSet.set 0%N b0) in He.
    rewrite test_set, test_zero, orb_false_r in He.
    apply N.eqb_eq in He as <-. set_solver. }
  destruct (uncontrollable_outside_plant aP aE 8 {[ b0 ]} {[ b0; a0 ]} HU)
    as [He Hs].
  split; [exact HU|]. split; [symmetry; exact He|].
  split; [vm_compute; reflexivity|]. symmetry. exact Hs.
Defined.

Lemma rank_order_witness :
  let c : TransMap := {[ 3 := []; 7 := [] ]} in
  3 ∈ dom c ∧ 7 ∈ dom c
  ∧ (rank (map_to_list c).*1 3 < rank (map_to_list c).*1 7 ↔ 3 < 7).
Proof.
  intros c.
  assert (H3 : 3 ∈ dom c) by (apply elem_of_dom; eexists; reflexivity).
  assert (H7 : 7 ∈ dom c) by (apply elem_of_dom; eexists; reflexivity).
  split; [exact H3|]. split; [exact H7|].
  exact (proj2 (rank_order c 3 7 H3 H7)).
Defined.

End OnTheVectors.
